(** * Manuscript editor core: typographic normaliser and chapter parser

    A shallow embedding of [TypographyEngine] (typography.js), of [Parser]
    (parser.js) and of [countWords] (editor.js).  JavaScript strings are sequences of UTF-16 code units; the
    regular expressions of the source are transcribed as syntax trees and
    run by a backtracking matcher that follows the ECMAScript order of
    alternatives (leftmost start, first alternative first, greedy or lazy
    repetition as written). *)

From Stdlib Require Import String Ascii DecimalString.
From Stdlib Require Import List NArith ZArith Arith Lia Bool.
From Stdlib Require Import Setoid Morphisms.
From Stdlib Require Import DecimalNat Permutation.
Import ListNotations.

Set Implicit Arguments.

(* ------------------------------------------------------------------ *)
(** ** JavaScript strings *)

Module JS.
Local Open Scope N_scope.
Local Open Scope bool_scope.

(** A UTF-16 code unit, and a string as the sequence of its code units. *)
Abbreviation cu := N (only parsing).
Abbreviation jsstring := (list N) (only parsing).

(** An ASCII literal of the source as a JavaScript string. *)
Definition js (s : string) : jsstring := map N_of_ascii (list_ascii_of_string s).

Definition LF : cu := 10.          (* \n *)
Definition CR : cu := 13.          (* \r *)
Definition SP : cu := 32.          (* space *)
Definition DQUOTE : cu := 34.      (* straight double quote *)
Definition HASH : cu := 35.        (* # *)
Definition APOS : cu := 39.        (* straight apostrophe *)
Definition STAR : cu := 42.        (* asterisk *)
Definition USCORE : cu := 95.      (* underscore *)
Definition BTICK : cu := 96.       (* backtick *)
Definition LAQUO : cu := 171.      (* U+00AB, opening guillemet *)
Definition RAQUO : cu := 187.      (* U+00BB, closing guillemet *)

Definition between (lo hi c : cu) : bool := (lo <=? c) && (c <=? hi).

(** LineTerminator of ECMAScript: LF, CR, LS, PS. *)
Definition isLineTerminator (c : cu) : bool :=
  (c =? 10) || (c =? 13) || (c =? 0x2028) || (c =? 0x2029).

(** WhiteSpace and LineTerminator of ECMAScript: the class [\s] and the
    characters removed by [String.prototype.trim]. *)
Definition isSpace (c : cu) : bool :=
  between 9 13 c || (c =? 32) || (c =? 160) || (c =? 0x1680)
  || between 0x2000 0x200a c || (c =? 0x2028) || (c =? 0x2029)
  || (c =? 0x202f) || (c =? 0x205f) || (c =? 0x3000) || (c =? 0xfeff).

Definition isDigit (c : cu) : bool := between 48 57 c.

(** The atom [.] (no [s] flag): anything but a line terminator. *)
Definition isDot (c : cu) : bool := negb (isLineTerminator c).

Fixpoint dropWhile (p : cu -> bool) (l : jsstring) : jsstring :=
  match l with
  | [] => []
  | c :: t => if p c then dropWhile p t else l
  end.

Definition trimStart (s : jsstring) : jsstring := dropWhile isSpace s.
Definition trimEnd (s : jsstring) : jsstring := rev (dropWhile isSpace (rev s)).
Definition trim (s : jsstring) : jsstring := trimEnd (trimStart s).

(** [s.split(sep)] for a one-character separator. *)
Fixpoint split (sep : cu) (s : jsstring) : list jsstring :=
  match s with
  | [] => [[]]
  | c :: t =>
      if c =? sep then [] :: split sep t
      else match split sep t with
           | h :: r => (c :: h) :: r
           | [] => [[c]]
           end
  end.

(** [a.join(sep)]. *)
Fixpoint join (sep : jsstring) (a : list jsstring) : jsstring :=
  match a with
  | [] => []
  | [x] => x
  | x :: r => x ++ sep ++ join sep r
  end.

(** [String(n)] for a non-negative integer. *)
Definition decimal (n : nat) : jsstring := js (NilEmpty.string_of_uint (Nat.to_uint n)).

(** [parseInt(s, 10)] on a non-empty run of decimal digits. *)
Definition parseInt (s : jsstring) : N :=
  fold_left (fun acc d => acc * 10 + (d - 48)) s 0.

End JS.

(* ------------------------------------------------------------------ *)
(** ** Regular expressions *)

Module Regex.
Import JS.

(** The fragment of ECMAScript patterns the source uses.  Repetition is
    only ever applied to a one-character atom. *)
Inductive regex : Type :=
| RChr (c : cu)                              (* a literal character *)
| RSet (p : cu -> bool)                      (* a class: \s, \d, [..], . *)
| RBol                                       (* ^ without the m flag *)
| REol                                       (* $ without the m flag *)
| REps                                       (* the empty pattern *)
| RSeq (r1 r2 : regex)
| RAlt (r1 r2 : regex)
| RStar (greedy : bool) (p : cu -> bool)     (* x* when greedy, x*? when lazy *)
| RGrp (n : nat) (r : regex).                (* capture group number n *)

(** [x+] and [x+?]. *)
Definition RPlus (greedy : bool) (p : cu -> bool) : regex :=
  RSeq (RSet p) (RStar greedy p).

Definition isChr (c x : cu) : bool := N.eqb x c.

(** A literal string. *)
Fixpoint RLit (s : jsstring) : regex :=
  match s with
  | [] => REps
  | [c] => RChr c
  | c :: t => RSeq (RChr c) (RLit t)
  end.

(** Matcher state: the index reached, the input that remains, the captures. *)
Record mstate : Type := MState {
  pos : nat;
  rest : jsstring;
  caps : list (nat * jsstring)
}.

Definition cont := mstate -> option mstate.

(** Repetition of a class, with the continuation tried in the order of the
    backtracking search: longest first when greedy, shortest first when lazy. *)
Fixpoint star (greedy : bool) (p : cu -> bool) (i : nat) (l : jsstring)
    (cs : list (nat * jsstring)) (k : cont) : option mstate :=
  match l with
  | c :: t =>
      if p c then
        if greedy then
          match star greedy p (S i) t cs k with
          | Some e => Some e
          | None => k (MState i l cs)
          end
        else
          match k (MState i l cs) with
          | Some e => Some e
          | None => star greedy p (S i) t cs k
          end
      else k (MState i l cs)
  | [] => k (MState i l cs)
  end.

Fixpoint rmatch (r : regex) (s : mstate) (k : cont) : option mstate :=
  match r with
  | RChr c =>
      match rest s with
      | x :: t => if N.eqb x c then k (MState (S (pos s)) t (caps s)) else None
      | [] => None
      end
  | RSet p =>
      match rest s with
      | x :: t => if p x then k (MState (S (pos s)) t (caps s)) else None
      | [] => None
      end
  | RBol => match pos s with 0 => k s | S _ => None end
  | REol => match rest s with [] => k s | _ :: _ => None end
  | REps => k s
  | RSeq r1 r2 => rmatch r1 s (fun s' => rmatch r2 s' k)
  | RAlt r1 r2 =>
      match rmatch r1 s k with
      | Some e => Some e
      | None => rmatch r2 s k
      end
  | RStar g p => star g p (pos s) (rest s) (caps s) k
  | RGrp n r =>
      rmatch r s (fun s' =>
        k (MState (pos s') (rest s')
                  ((n, firstn (pos s' - pos s) (rest s)) :: caps s')))
  end.

(** What the pattern [r] can match from a state, whatever the order in which
    the matcher tries the possibilities. *)
Inductive matches : regex -> mstate -> mstate -> Prop :=
| M_Chr c i t cs :
    matches (RChr c) (MState i (c :: t) cs) (MState (S i) t cs)
| M_Set p x i t cs :
    p x = true ->
    matches (RSet p) (MState i (x :: t) cs) (MState (S i) t cs)
| M_Bol l cs : matches RBol (MState 0 l cs) (MState 0 l cs)
| M_Eol i cs : matches REol (MState i [] cs) (MState i [] cs)
| M_Eps s : matches REps s s
| M_Seq r1 r2 s s1 s2 :
    matches r1 s s1 -> matches r2 s1 s2 -> matches (RSeq r1 r2) s s2
| M_AltL r1 r2 s s1 : matches r1 s s1 -> matches (RAlt r1 r2) s s1
| M_AltR r1 r2 s s1 : matches r2 s s1 -> matches (RAlt r1 r2) s s1
| M_Star0 g p s : matches (RStar g p) s s
| M_StarS g p x i t cs s1 :
    p x = true ->
    matches (RStar g p) (MState (S i) t cs) s1 ->
    matches (RStar g p) (MState i (x :: t) cs) s1
| M_Grp n r s s1 :
    matches r s s1 ->
    matches (RGrp n r) s
      (MState (pos s1) (rest s1) ((n, firstn (pos s1 - pos s) (rest s)) :: caps s1)).

(** The result of [regex.exec]: the array [m] with [m.index]; [lastIndex]
    is where a global pattern resumes. *)
Record rmatch_result : Type := Match {
  index : nat;
  matched : jsstring;                 (* m[0] *)
  groups : list (nat * jsstring);     (* m[1], m[2], ... *)
  lastIndex : nat
}.

(** One attempt at index [i], where [l] is the input from [i] on. *)
Definition matchAt (r : regex) (i : nat) (l : jsstring) : option rmatch_result :=
  match rmatch r (MState i l []) Some with
  | Some e => Some (Match i (firstn (pos e - i) l) (caps e) (pos e))
  | None => None
  end.

(** The leftmost match at or after index [i]. *)
Fixpoint search (r : regex) (i : nat) (l : jsstring) : option rmatch_result :=
  match matchAt r i l with
  | Some m => Some m
  | None =>
      match l with
      | _ :: t => search r (S i) t
      | [] => None
      end
  end.

(** [regex.exec(s)] with [regex.lastIndex = from]. *)
Definition exec (r : regex) (s : jsstring) (from : nat) : option rmatch_result :=
  if Nat.leb from (length s) then search r from (skipn from s) else None.

(** [regex.test(s)] for a pattern without the g flag. *)
Definition test (r : regex) (s : jsstring) : bool :=
  match search r 0 s with Some _ => true | None => false end.

(** [m[n]], the empty string for a group that did not take part. *)
Fixpoint group (n : nat) (g : list (nat * jsstring)) : jsstring :=
  match g with
  | [] => []
  | (k, v) :: t => if Nat.eqb k n then v else group n t
  end.

(** Replacement patterns: literal text and [$n]. *)
Inductive titem : Type :=
| TLit (s : jsstring)
| TGrp (n : nat).

Fixpoint expand (tpl : list titem) (m : rmatch_result) : jsstring :=
  match tpl with
  | [] => []
  | TLit s :: t => s ++ expand t m
  | TGrp n :: t => group n (groups m) ++ expand t m
  end.

(** [s.replace(r, f)] for a global pattern [r] and a callback [f] that may
    update a value of type [A] it closes over.  [skip] counts the characters
    of the current match that are still to be passed over. *)
Fixpoint replaceLoop (A : Type) (r : regex)
    (f : A -> rmatch_result -> jsstring * A)
    (i : nat) (l : jsstring) (skip : nat) (a : A) : jsstring * A :=
  match skip with
  | S n =>
      match l with
      | _ :: t => replaceLoop r f (S i) t n a
      | [] => ([], a)
      end
  | 0 =>
      match matchAt r i l with
      | Some m =>
          let (out, a1) := f a m in
          match l with
          | [] => (out, a1)
          | c :: t =>
              match lastIndex m - i with
              | 0 => let (o2, a2) := replaceLoop r f (S i) t 0 a1 in (out ++ c :: o2, a2)
              | S n => let (o2, a2) := replaceLoop r f (S i) t n a1 in (out ++ o2, a2)
              end
          end
      | None =>
          match l with
          | [] => ([], a)
          | c :: t => let (o2, a2) := replaceLoop r f (S i) t 0 a in (c :: o2, a2)
          end
      end
  end.

Definition replaceAllWith (A : Type) (r : regex)
    (f : A -> rmatch_result -> jsstring * A) (s : jsstring) (a : A) : jsstring * A :=
  replaceLoop r f 0 s 0 a.

(** [s.replace(r, tpl)] for a global pattern and a replacement string. *)
Definition replaceAll (r : regex) (tpl : list titem) (s : jsstring) : jsstring :=
  fst (replaceAllWith r (fun (_ : unit) m => (expand tpl m, tt)) s tt).

(** [s.replace(r, tpl)] for a pattern without the g flag: first match only. *)
Definition replaceFirst (r : regex) (tpl : list titem) (s : jsstring) : jsstring :=
  match search r 0 s with
  | Some m => firstn (index m) s ++ expand tpl m ++ skipn (lastIndex m) s
  | None => s
  end.

End Regex.

(* ------------------------------------------------------------------ *)
(** ** typography.js *)

Module TypographyEngine.
Import JS Regex.

(** A sequence of sub-patterns. *)
Fixpoint seqs (rs : list regex) : regex :=
  match rs with
  | [] => REps
  | [r] => r
  | r :: t => RSeq r (seqs t)
  end.

(** The class [A-Za-zÀ-ÖØ-öø-ÿ0-9]: U+00C0..U+00D6, U+00D8..U+00F6, U+00F8..U+00FF. *)
Definition alnumClass (c : cu) : bool :=
  (between 65 90 c || between 97 122 c || between 0xC0 0xD6 c
   || between 0xD8 0xF6 c || between 0xF8 0xFF c || between 48 57 c)%N%bool.

(** [/^[A-Za-zÀ-ÖØ-öø-ÿ0-9]$/.test(char)] *)
Definition isAlphanumeric (char : jsstring) : bool :=
  test (seqs [RBol; RSet alnumClass; REol]) char.

(** [/(```*?(?:```|$)|`+`)/g]: two backticks, a lazy run of backticks, then
    three backticks or the end of the text; or a greedy run of backticks and
    one more backtick. *)
Definition extractRegex : regex :=
  RGrp 1 (RAlt (seqs [RChr BTICK; RChr BTICK; RStar false (isChr BTICK);
                      RAlt (RLit (js "```")) REol])
               (seqs [RPlus true (isChr BTICK); RChr BTICK])).

(** The token [`__CODE_BLOCK_${n}__`]. *)
Definition placeholder (n : nat) : jsstring :=
  js "__CODE_BLOCK_" ++ decimal n ++ js "__".

(** [/^__CODE_BLOCK_\d+__$/] *)
Definition onlyTokenRegex : regex :=
  seqs [RBol; RLit (js "__CODE_BLOCK_"); RPlus true isDigit; RLit (js "__"); REol].

(** [/__CODE_BLOCK_(\d+)__/g] *)
Definition tokenRegex : regex :=
  seqs [RLit (js "__CODE_BLOCK_"); RGrp 1 (RPlus true isDigit); RLit (js "__")].

(** [/(M)\s+(.*?)\s+(M)/g], [/(M)\s+(.*?)(M)/g] and [/(M)(.*?)\s+(M)/g] for a
    marker [M] of one, two or three asterisks. *)
Definition emphBoth (m : jsstring) : regex :=
  seqs [RGrp 1 (RLit m); RPlus true isSpace; RGrp 2 (RStar false isDot);
        RPlus true isSpace; RGrp 3 (RLit m)].
Definition emphLead (m : jsstring) : regex :=
  seqs [RGrp 1 (RLit m); RPlus true isSpace; RGrp 2 (RStar false isDot);
        RGrp 3 (RLit m)].
Definition emphTrail (m : jsstring) : regex :=
  seqs [RGrp 1 (RLit m); RGrp 2 (RStar false isDot); RPlus true isSpace;
        RGrp 3 (RLit m)].

(** The replacement string ['$1$2$3']. *)
Definition tpl123 : list titem := [TGrp 1; TGrp 2; TGrp 3].

(** [/^\s*\*\s+/] *)
Definition listRegex : regex :=
  seqs [RBol; RStar true isSpace; RChr STAR; RPlus true isSpace].

(** The pattern of the masking [replace]: as [listRegex], with the leading
    whitespace as group 1 and the whitespace after the asterisk as group 2. *)
Definition listMaskRegex : regex :=
  seqs [RBol; RGrp 1 (RStar true isSpace); RChr STAR; RGrp 2 (RPlus true isSpace)].

Definition fixEmphasisSpaces (line : jsstring) : jsstring :=
  let line := replaceAll (emphBoth (js "***")) tpl123 line in
  let line := replaceAll (emphLead (js "***")) tpl123 line in
  let line := replaceAll (emphTrail (js "***")) tpl123 line in
  let line := replaceAll (emphBoth (js "**")) tpl123 line in
  let line := replaceAll (emphLead (js "**")) tpl123 line in
  let line := replaceAll (emphTrail (js "**")) tpl123 line in
  let isList := test listRegex line in
  let line :=
    if isList
    then replaceFirst listMaskRegex [TGrp 1; TLit (js "__LIST__"); TGrp 2] line
    else line in
  let line := replaceAll (emphBoth (js "*")) tpl123 line in
  let line := replaceAll (emphLead (js "*")) tpl123 line in
  let line := replaceAll (emphTrail (js "*")) tpl123 line in
  if isList then replaceFirst (RLit (js "__LIST__")) [TLit (js "*")] line else line.

Definition reorderMarkers (line : jsstring) : jsstring :=
  let line := replaceAll (RSeq (RGrp 1 (RLit (js "***"))) (RChr LAQUO))
                         [TLit (LAQUO :: js "***")] line in
  let line := replaceAll (RSeq (RGrp 1 (RLit (js "**"))) (RChr LAQUO))
                         [TLit (LAQUO :: js "**")] line in
  let line := replaceAll (RSeq (RGrp 1 (RLit (js "*"))) (RChr LAQUO))
                         [TLit (LAQUO :: js "*")] line in
  let line := replaceAll (RSeq (RChr RAQUO) (RGrp 1 (RLit (js "***"))))
                         [TLit (js "***" ++ [RAQUO])] line in
  let line := replaceAll (RSeq (RChr RAQUO) (RGrp 1 (RLit (js "**"))))
                         [TLit (js "**" ++ [RAQUO])] line in
  let line := replaceAll (RSeq (RChr RAQUO) (RGrp 1 (RLit (js "*"))))
                         [TLit (js "*" ++ [RAQUO])] line in
  line.

(** The body of the inner loop of [process] at index [j]: the state is
    [isDialogueOpen] and the [smartLine] built so far. *)
Definition quoteStep (line : jsstring) (st : bool * jsstring) (j : nat)
    : bool * jsstring :=
  let (isDialogueOpen, smartLine) := st in
  let c := nth j line SP in
  if N.eqb c LAQUO then (true, smartLine ++ [c])
  else if N.eqb c RAQUO then (false, smartLine ++ [c])
  else if (N.eqb c APOS || N.eqb c DQUOTE)%bool then
    let prev := if Nat.ltb 0 j then nth (j - 1) line SP else SP in
    let next := if Nat.ltb j (length line - 1) then nth (j + 1) line SP else SP in
    if (isAlphanumeric [prev] && isAlphanumeric [next])%bool
    then (isDialogueOpen, smartLine ++ [c])
    else if isDialogueOpen
         then (false, smartLine ++ [RAQUO])
         else (true, smartLine ++ [LAQUO])
  else (isDialogueOpen, smartLine ++ [c]).

(** [for (let j = 0; j < line.length; j++) { ... }] *)
Definition quoteLoop (line : jsstring) (isDialogueOpen : bool) : bool * jsstring :=
  fold_left (quoteStep line) (seq 0 (length line)) (isDialogueOpen, []).

(** One iteration of the outer loop of [process]: the new [lines[i]] and the
    new [isDialogueOpen]. *)
Definition processLine (line : jsstring) (isDialogueOpen : bool)
    : jsstring * bool :=
  if test onlyTokenRegex (trim line) then (line, isDialogueOpen)
  else
    let line := fixEmphasisSpaces line in
    let (isDialogueOpen', smartLine) := quoteLoop line isDialogueOpen in
    (reorderMarkers smartLine, isDialogueOpen').

(** [for (let i = 0; i < lines.length; i++) { ... }] *)
Fixpoint processLines (lines : list jsstring) (isDialogueOpen : bool)
    : list jsstring * bool :=
  match lines with
  | [] => ([], isDialogueOpen)
  | line :: more =>
      let (line', st) := processLine line isDialogueOpen in
      let (more', st') := processLines more st in
      (line' :: more', st')
  end.

(** The callback of the extraction: push the match, return its token. *)
Definition extractCallback (codePlaceholders : list jsstring) (m : rmatch_result)
    : jsstring * list jsstring :=
  (placeholder (length codePlaceholders), codePlaceholders ++ [matched m]).

(** The callback of the restoration: [codePlaceholders[parseInt(index, 10)]],
    which [replace] turns into the text [undefined] when there is no such
    element. *)
Definition restoreCallback (codePlaceholders : list jsstring) (_ : unit)
    (m : rmatch_result) : jsstring * unit :=
  (match nth_error codePlaceholders (N.to_nat (parseInt (group 1 (groups m)))) with
   | Some fragment => fragment
   | None => js "undefined"
   end, tt).

Definition process (text : jsstring) : jsstring :=
  match text with
  | [] => text
  | _ :: _ =>
      let (processedText, codePlaceholders) :=
        replaceAllWith extractRegex extractCallback text [] in
      let lines := split LF processedText in
      let (lines', _) := processLines lines false in
      let processedText := join [LF] lines' in
      fst (replaceAllWith tokenRegex (restoreCallback codePlaceholders)
                          processedText tt)
  end.

End TypographyEngine.

(* ------------------------------------------------------------------ *)
(** ** parser.js *)

Module Parser.
Import JS Regex TypographyEngine.

(** What a call evaluates to: a value, or a thrown error. *)
Inductive error : Type :=
| TypeError.

Inductive completion (A : Type) : Type :=
| Normal (a : A)
| Throw (e : error).
Arguments Normal {A} a.
Arguments Throw {A} e.

Definition bind (A B : Type) (c : completion A) (k : A -> completion B)
    : completion B :=
  match c with
  | Normal a => k a
  | Throw e => Throw e
  end.

Notation "x <- c ;; k" := (bind c (fun x => k))
  (at level 61, c at next level, right associativity).

(** The values on which the source calls [.trim()]: strings, which have the
    method, and the array that [regex.exec] returns, which has not. *)
Inductive value : Type :=
| VString (s : jsstring)
| VMatch (m : rmatch_result).

(** [v.trim()]: calling a property that is [undefined] throws a TypeError. *)
Definition callTrim (v : value) : completion jsstring :=
  match v with
  | VString s => Normal (trim s)
  | VMatch _ => Throw TypeError
  end.

Record Chapter : Type := mkChapter {
  title : jsstring;
  content : jsstring
}.

(** [s.substring(a, b)] *)
Definition substring (s : jsstring) (a b : nat) : jsstring :=
  firstn (Nat.max a b - Nat.min a b) (skipn (Nat.min a b) s).

(** [/(?:^|\n)####\s+(.+)/g] *)
Definition headingRegex : regex :=
  seqs [RAlt RBol (RChr LF); RLit (js "####"); RPlus true isSpace;
        RGrp 1 (RPlus true isDot)].

(** [content.replace(/^\n+/, '').replace(/\n+$/, '')] *)
Definition stripNewlines (s : jsstring) : jsstring :=
  replaceFirst (seqs [RPlus true (isChr LF); REol]) []
    (replaceFirst (seqs [RBol; RPlus true (isChr LF)]) [] s).

(** The [while] loop of [getChapters].  Every match is non-empty and starts
    at or after [lastIndex], so [S (length text)] rounds of [fuel] are never
    used up. *)
Fixpoint chapterLoop (fuel : nat) (text : jsstring) (lastIdx : nat)
    (currentTitle : jsstring) (currentStartIndex : nat)
    (chapters : list Chapter) : completion (list Chapter) :=
  match exec headingRegex text lastIdx with
  | Some m =>
      match fuel with
      | 0 => Normal chapters
      | S fuel' =>
          let content := substring text currentStartIndex (index m) in
          let chapters :=
            chapters ++ [mkChapter currentTitle (stripNewlines content)] in
          currentTitle <- callTrim (VMatch m) ;;
          chapterLoop fuel' text (lastIndex m) currentTitle (lastIndex m) chapters
      end
  | None =>
      let lastContent := skipn currentStartIndex text in
      Normal (chapters ++ [mkChapter currentTitle (stripNewlines lastContent)])
  end.

Definition getChapters (fullText : jsstring) : completion (list Chapter) :=
  match fullText with
  | [] => Normal []
  | _ :: _ =>
      let text := replaceAll (RLit [CR; LF]) [TLit [LF]] fullText in
      let chapters := [] in
      match exec headingRegex text 0 with
      | Some firstMatch =>
          let introText := trim (substring text 0 (index firstMatch)) in
          let chapters :=
            if Nat.ltb 0 (length introText)
            then chapters ++ [mkChapter (js "Introduction") introText]
            else chapters in
          currentTitle <- callTrim (VMatch firstMatch) ;;
          chapterLoop (S (length text)) text (lastIndex firstMatch)
                      currentTitle (lastIndex firstMatch) chapters
      | None =>
          if Nat.ltb 0 (length (trim text))
          then Normal (chapters ++ [mkChapter (js "Chapitre 1") (trim text)])
          else Normal chapters
      end
  end.

(** The block of one chapter in [reassemble]. *)
Definition chapterBlock (chapter : Chapter) : jsstring :=
  let title := js "#### " ++ title chapter in
  let content := match content chapter with
                 | [] => []
                 | _ :: _ => trim (content chapter)
                 end in
  match content with
  | [] => title
  | _ :: _ => title ++ [LF; LF] ++ content
  end.

Definition reassemble (chaptersData : list Chapter) : jsstring :=
  match chaptersData with
  | [] => []
  | _ :: _ => join [LF; LF; LF] (map chapterBlock chaptersData)
  end.

End Parser.

(* ------------------------------------------------------------------ *)
(** ** editor.js *)

Module Editor.
Import JS Regex.

(** The loop of [s.split(r)] for a pattern [r] without capture groups, as
    [RegExp.prototype[Symbol.split]] runs it on a text that is not empty:
    [q] is the index tried, [l] the text from [q] on, [piece] the text from
    the start [p] of the current piece up to [q], and [skip] the number of
    characters of the last match still to be passed over.  A match that is
    empty and ends at [p] is passed by; any other match closes the piece. *)
Fixpoint splitLoop (r : regex) (q : nat) (l : jsstring) (skip : nat)
    (piece : jsstring) : list jsstring :=
  match skip with
  | S n =>
      match l with
      | _ :: t => splitLoop r (S q) t n piece
      | [] => [piece]
      end
  | 0 =>
      match l with
      | [] => [piece]
      | c :: t =>
          match matchAt r q l with
          | None => splitLoop r (S q) t 0 (piece ++ [c])
          | Some m =>
              match lastIndex m - q with
              | 0 =>
                  match piece with
                  | [] => splitLoop r (S q) t 0 [c]
                  | _ :: _ => piece :: splitLoop r (S q) t 0 [c]
                  end
              | S n => piece :: splitLoop r (S q) t n []
              end
          end
      end
  end.

(** [s.split(r)] *)
Definition splitRegex (r : regex) (s : jsstring) : list jsstring :=
  match s with
  | [] => match matchAt r 0 [] with Some _ => [] | None => [[]] end
  | _ :: _ => splitLoop r 0 s 0 []
  end.

(** [countWords(str)]: zero for the empty text and for the text that is
    empty once trimmed, else [str.trim().split(/\s+/).length]. *)
Definition countWords (str : jsstring) : nat :=
  match str with
  | [] => 0
  | _ :: _ =>
      match trim str with
      | [] => 0
      | _ :: _ => length (splitRegex (RPlus true isSpace) (trim str))
      end
  end.

(** The font size of the editor, in pixels: the local state
    [currentFontSize] and its two bounds.  The two buttons call
    [changeFontSize] with 1 and -1, so the sizes are integers. *)
Definition initialFontSize : Z := 14.
Definition MIN_FONT_SIZE : Z := 9.
Definition MAX_FONT_SIZE : Z := 22.

(** [changeFontSize(delta)] on the state [currentFontSize]: the state after
    the call, and whether the call wrote the style property and asked for
    the line numbers to be computed again. *)
Definition changeFontSize (currentFontSize delta : Z) : Z * bool :=
  let newSize := (currentFontSize + delta)%Z in
  if ((MIN_FONT_SIZE <=? newSize)%Z && (newSize <=? MAX_FONT_SIZE)%Z)%bool
  then (newSize, true)
  else (currentFontSize, false).

End Editor.



(* ------------------------------------------------------------------ *)
(** ** Notions used in the statements *)

Module Notions.
Import JS Regex TypographyEngine Parser Editor.

(** [s.startsWith(p)] and [s.includes(p)]. *)
Fixpoint isPrefix (p s : jsstring) : bool :=
  match p, s with
  | [], _ => true
  | a :: p', b :: s' => (N.eqb a b && isPrefix p' s')%bool
  | _ :: _, [] => false
  end.

Fixpoint occurs (p s : jsstring) : bool :=
  (isPrefix p s || match s with [] => false | _ :: t => occurs p t end)%bool.

(** The fenced block of three backticks around the line ["hi"] (with its
    straight double quotes), and an inline span around ['x']. *)
Definition fencedHi : jsstring :=
  js "```" ++ [LF; DQUOTE] ++ js "hi" ++ [DQUOTE; LF] ++ js "```".
Definition inlineX : jsstring := js "`'x'`".


(** The manuscript of the segmentation example. *)
Definition twoChapters : jsstring :=
  js "#### A" ++ [LF; LF] ++ js "text1" ++ [LF; LF] ++
  js "#### B" ++ [LF; LF] ++ js "text2".

(** The scan of a line: the value of [isDialogueOpen] when the inner loop
    of [process] reaches index [j], and the neighbours of index [j], where
    the boundary of the line counts as a space. *)
Definition dialogueAt (line : jsstring) (st0 : bool) (j : nat) : bool :=
  fst (fold_left (quoteStep line) (seq 0 j) (st0, [])).

Definition prevChar (line : jsstring) (j : nat) : cu :=
  match j with
  | 0 => SP
  | S i => nth i line SP
  end.

Definition nextChar (line : jsstring) (j : nat) : cu := nth (S j) line SP.

(** Both neighbours of index [j] are alphanumeric. *)
Definition internalQuote (line : jsstring) (j : nat) : bool :=
  (alnumClass (prevChar line j) && alnumClass (nextChar line j))%bool.

(** The sentence of the quote example, [He said "hi" and "bye"], and a
    quotation that opens on one line and closes two lines below. *)
Definition twoPairs : jsstring :=
  js "He said " ++ [DQUOTE] ++ js "hi" ++ [DQUOTE] ++ js " and " ++
  [DQUOTE] ++ js "bye" ++ [DQUOTE].

(** A pattern that can only match where the text begins with a character of
    the class [p]. *)
Definition needsFirst (p : cu -> bool) (r : regex) : Prop :=
  forall i l cs k,
    match l with [] => True | x :: _ => p x = false end ->
    rmatch r (MState i l cs) k = None.

(** A line on which the reorderer has nothing to do: no asterisk directly
    before an opening guillemet, none directly after a closing one. *)
Definition settled (line : jsstring) : bool :=
  (negb (occurs [STAR; LAQUO] line) && negb (occurs [RAQUO; STAR] line))%bool.

(** The sum of the indices at which the character [c] stands in [l], the
    first index of [l] being [i]. *)
Fixpoint posSum (c : cu) (i : nat) (l : jsstring) : nat :=
  match l with
  | [] => 0
  | x :: t => (if N.eqb x c then i else 0) + posSum c (S i) t
  end.

(** The patterns of the six passes of [reorderMarkers], by the width [k] of
    the marker. *)
Definition openPass (k : nat) : regex :=
  RSeq (RGrp 1 (RLit (repeat STAR k))) (RChr LAQUO).
Definition closePass (k : nat) : regex :=
  RSeq (RChr RAQUO) (RGrp 1 (RLit (repeat STAR k))).

(** [**«texte»**], a strong emphasis inside which the guillemets sit. *)
Definition strongQuoted : jsstring :=
  js "**" ++ [LAQUO] ++ js "texte" ++ [RAQUO] ++ js "**".

(** A text without the character [c]. *)
Definition without (c : cu) (s : jsstring) : bool :=
  forallb (fun x => negb (isChr c x)) s.

(** Plain prose: no asterisk, no backtick and no underscore. *)
Definition plainText (s : jsstring) : bool :=
  (without STAR s && without BTICK s && without USCORE s)%bool.

(** The quote scan alone, over the lines of a text. *)
Fixpoint quoteLines (lines : list jsstring) (isDialogueOpen : bool)
    : list jsstring * bool :=
  match lines with
  | [] => ([], isDialogueOpen)
  | line :: more =>
      let (st, smartLine) := quoteLoop line isDialogueOpen in
      let (more', st') := quoteLines more st in
      (smartLine :: more', st')
  end.

(** A pattern without the anchor [^]: where it matches does not depend on
    the index at which the attempt starts. *)
Fixpoint noBol (r : regex) : bool :=
  match r with
  | RBol => false
  | RSeq r1 r2 | RAlt r1 r2 => (noBol r1 && noBol r2)%bool
  | RGrp _ r1 => noBol r1
  | _ => true
  end.

Definition shiftState (d : nat) (s : mstate) : mstate :=
  MState (d + pos s) (rest s) (caps s).

Definition shiftMatch (d : nat) (m : rmatch_result) : rmatch_result :=
  Match (d + index m) (matched m) (groups m) (d + lastIndex m).

(** The restoration pass of [process] with the fragments [codePlaceholders]. *)
Definition restoreTokens (codePlaceholders : list jsstring) (s : jsstring)
    : jsstring :=
  fst (replaceAllWith tokenRegex (restoreCallback codePlaceholders) s tt).

(** A text that neither the emphasis rules, nor the quote scan, nor the
    extraction touch: no asterisk, no backtick, no straight quote, no
    guillemet. *)
Definition inertText (s : jsstring) : bool :=
  (without STAR s && without BTICK s && without APOS s && without DQUOTE s
   && without LAQUO s && without RAQUO s)%bool.

(** The token of index [digits] as it is written in a text. *)
Definition tokenText (digits : jsstring) : jsstring :=
  js "__CODE_BLOCK_" ++ digits ++ js "__".

(** The longest prefix of [l] in the class [p]. *)
Fixpoint takeWhile (p : cu -> bool) (l : jsstring) : jsstring :=
  match l with
  | [] => []
  | c :: t => if p c then c :: takeWhile p t else []
  end.

(** Where the heading pattern of [getChapters] can match: [l] is the text
    from the index [i] on.  At the start of the text, or at a newline, come
    four hashes, one or more characters of the class [\s] and one character
    that is no line terminator. *)
Definition headingAt (i : nat) (l : jsstring) : Prop :=
  exists lead ws c more,
    l = lead ++ js "####" ++ ws ++ c :: more
    /\ (lead = [LF] \/ (lead = [] /\ i = 0))
    /\ ws <> [] /\ forallb isSpace ws = true
    /\ isDot c = true.



(** Some character of the class [p] stands directly before one of the
    class [q]. *)
Fixpoint adjacent (p q : cu -> bool) (l : jsstring) : bool :=
  match l with
  | [] => false
  | x :: t =>
      ((p x && match t with y :: _ => q y | [] => false end)
       || adjacent p q t)%bool
  end.

(** The number of asterisks of a text. *)
Definition stars (l : jsstring) : nat := length (filter (isChr STAR) l).

(** A run of whitespace, and the text between two markers: no asterisk, no
    line terminator, and no whitespace at either end, so that it is not
    empty. *)
Definition spaces (ws : jsstring) : bool := forallb isSpace ws.
Definition isInnerChar (c : cu) : bool :=
  (isDot c && negb (isChr STAR c))%bool.
Definition edge (t : jsstring) : bool :=
  match t with
  | [] => false
  | x :: _ => negb (isSpace x)
  end.
Definition inner (t : jsstring) : bool :=
  (forallb isInnerChar t && edge t && edge (rev t))%bool.

(** The text [getChapters] works on, and the presence of a heading boundary
    in a text. *)
Definition normalised (fullText : jsstring) : jsstring :=
  replaceAll (RLit [CR; LF]) [TLit [LF]] fullText.
Definition hasHeading (text : jsstring) : Prop :=
  exists j, j <= length text /\ headingAt j (skipn j text).

(** A chapter with the whitespace around its content removed. *)
Definition trimContent (c : Chapter) : Chapter :=
  mkChapter (title c) (trim (content c)).

(** The text without its newlines at the start and at the end. *)
Definition stripped (s : jsstring) : jsstring :=
  rev (dropWhile (isChr LF) (rev (dropWhile (isChr LF) s))).

(** What the quote scan may do to a character: keep it, or put a guillemet
    for a straight quote. *)
Definition quoteChange (c c' : cu) : bool :=
  (N.eqb c' c
   || ((N.eqb c APOS || N.eqb c DQUOTE) && (N.eqb c' LAQUO || N.eqb c' RAQUO)))%bool.

(** A run of two backticks or more. *)
Definition backticks (f : jsstring) : bool :=
  (forallb (isChr BTICK) f && Nat.leb 2 (length f))%bool.

(** A text without the characters that the typographic rules act on:
    asterisk, straight quotes, guillemets, and the underscore of the
    tokens. *)
Definition unmarked (s : jsstring) : bool :=
  (without STAR s && without APOS s && without DQUOTE s
   && without LAQUO s && without RAQUO s && without USCORE s)%bool.

(** A text of one line without backtick and without any of the characters
    that the typographic rules act on. *)
Definition quiet (t : jsstring) : bool :=
  (unmarked t && without BTICK t && without LF t)%bool.

(** The number of words of a text: the maximal runs of characters that
    are not whitespace.  [inWord] tells whether the character before is in
    a word. *)
Fixpoint wordsFrom (inWord : bool) (l : jsstring) : nat :=
  match l with
  | [] => 0
  | c :: t =>
      if isSpace c then wordsFrom false t
      else (if inWord then 0 else 1) + wordsFrom true t
  end.
Definition wordCount (s : jsstring) : nat := wordsFrom false s.

(** The number of maximal runs of whitespace of a text.  [inRun] tells
    whether the character before is whitespace. *)
Fixpoint runsFrom (inRun : bool) (l : jsstring) : nat :=
  match l with
  | [] => 0
  | c :: t =>
      if isSpace c then (if inRun then 0 else 1) + runsFrom true t
      else runsFrom false t
  end.

(** The font size after a series of calls of [changeFontSize], from the
    size the editor starts with. *)
Definition fontSizeAfter (deltas : list Z) : Z :=
  fold_left (fun size delta => fst (changeFontSize size delta)) deltas
            initialFontSize.

End Notions.

(* ------------------------------------------------------------------ *)
(** * Properties *)

Import JS Regex TypographyEngine Parser Editor Notions.

Unset Implicit Arguments.

(** ** Evaluations on the examples of the specification *)

Section Examples.

(** C1 (code region inviolability).  The extraction pattern only matches
    runs of backticks, so the text between the delimiters of a fenced block
    or of an inline span is normalised like any other text: the block
    [fencedHi] comes back with its quotes turned into guillemets and does
    not occur in the output any more. *)
Theorem process_rewrites_code_fragment :
  process fencedHi = js "```" ++ [LF; LAQUO] ++ js "hi" ++ [RAQUO; LF] ++ js "```"
  /\ occurs fencedHi (process fencedHi) = false
  /\ process inlineX = BTICK :: LAQUO :: js "x" ++ [RAQUO; BTICK]
  /\ snd (replaceAllWith extractRegex extractCallback fencedHi [])
     = [js "```"; js "```"].
Proof. repeat split; vm_compute; reflexivity. Qed.

(** C3 (segmentation and reassembly round trip).  On the manuscript of the
    example [getChapters] throws a TypeError, as it calls [trim] on the array
    returned by [exec]; [reassemble] does give the text of the example. *)
Theorem getChapters_example_throws :
  getChapters twoChapters = Throw TypeError
  /\ reassemble [mkChapter (js "A") (js "text1"); mkChapter (js "B") (js "text2")]
     = js "#### A" ++ [LF; LF] ++ js "text1" ++ [LF; LF; LF] ++
       js "#### B" ++ [LF; LF] ++ js "text2".
Proof. split; vm_compute; reflexivity. Qed.

(** C9 (totality).  [getChapters] raises a TypeError on a manuscript that
    has a heading, here a single heading line. *)
Theorem getChapters_raises_on_heading :
  getChapters (js "#### A") = Throw TypeError.
Proof. vm_compute; reflexivity. Qed.

End Examples.

(** ** The matcher and the patterns it runs *)

Section Matcher.

Lemma star_sound g p l : forall i cs k e,
  star g p i l cs k = Some e ->
  exists s1, matches (RStar g p) (MState i l cs) s1 /\ k s1 = Some e.
Proof.
  induction l as [|x t IH]; intros i cs k e H; simpl in H.
  - eexists; split; [apply M_Star0 | exact H].
  - destruct (p x) eqn:Hp.
    + destruct g.
      * destruct (star true p (S i) t cs k) eqn:Hs.
        -- injection H as <-. destruct (IH _ _ _ _ Hs) as (s1 & Hm & Hk).
           exists s1; split; [apply M_StarS; assumption | exact Hk].
        -- eexists; split; [apply M_Star0 | exact H].
      * destruct (k (MState i (x :: t) cs)) eqn:Hk0.
        -- injection H as <-. eexists; split; [apply M_Star0 | exact Hk0].
        -- destruct (IH _ _ _ _ H) as (s1 & Hm & Hk).
           exists s1; split; [apply M_StarS; assumption | exact Hk].
    + eexists; split; [apply M_Star0 | exact H].
Qed.

Lemma rmatch_sound r : forall s k e,
  rmatch r s k = Some e ->
  exists s1, matches r s s1 /\ k s1 = Some e.
Proof.
  induction r as [c|p| | | |r1 IH1 r2 IH2|r1 IH1 r2 IH2|g p|n r IH];
    intros [i l cs] k e H; simpl in H.
  - destruct l as [|x t]; [discriminate|].
    destruct (N.eqb x c) eqn:E; [|discriminate].
    apply N.eqb_eq in E; subst x.
    eexists; split; [apply M_Chr | exact H].
  - destruct l as [|x t]; [discriminate|].
    destruct (p x) eqn:E; [|discriminate].
    eexists; split; [apply M_Set; exact E | exact H].
  - destruct i; [|discriminate]. eexists; split; [apply M_Bol | exact H].
  - destruct l; [|discriminate]. eexists; split; [apply M_Eol | exact H].
  - eexists; split; [apply M_Eps | exact H].
  - destruct (IH1 _ _ _ H) as (s1 & Hm1 & Hk1).
    destruct (IH2 _ _ _ Hk1) as (s2 & Hm2 & Hk2).
    exists s2; split; [eapply M_Seq; eassumption | exact Hk2].
  - destruct (rmatch r1 (MState i l cs) k) eqn:E.
    + injection H as <-. destruct (IH1 _ _ _ E) as (s1 & Hm & Hk).
      exists s1; split; [apply M_AltL; exact Hm | exact Hk].
    + destruct (IH2 _ _ _ H) as (s1 & Hm & Hk).
      exists s1; split; [apply M_AltR; exact Hm | exact Hk].
  - apply star_sound; exact H.
  - destruct (IH _ _ _ H) as (s1 & Hm & Hk).
    eexists; split; [apply M_Grp; exact Hm | exact Hk].
Qed.

Lemma star_none g p l : forall i cs k,
  star g p i l cs k = None ->
  forall s1, matches (RStar g p) (MState i l cs) s1 -> k s1 = None.
Proof.
  induction l as [|x t IH]; intros i cs k H s1 Hm; simpl in H.
  - inversion Hm; subst; exact H.
  - inversion Hm; subst.
    + destruct (p x); [|exact H].
      destruct g.
      * destruct (star true p (S i) t cs k); [discriminate | exact H].
      * destruct (k (MState i (x :: t) cs)); [discriminate | reflexivity].
    + match goal with Hp : p x = true |- _ => rewrite Hp in H end.
      destruct g.
      * destruct (star true p (S i) t cs k) eqn:E; [discriminate|].
        eapply IH; eassumption.
      * destruct (k (MState i (x :: t) cs)); [discriminate|].
        eapply IH; eassumption.
Qed.

Lemma rmatch_none r : forall s k,
  rmatch r s k = None ->
  forall s1, matches r s s1 -> k s1 = None.
Proof.
  induction r as [c|p| | | |r1 IH1 r2 IH2|r1 IH1 r2 IH2|g p|n r IH];
    intros [i l cs] k H s1 Hm.
  - inversion Hm; subst; simpl in H. rewrite N.eqb_refl in H; exact H.
  - inversion Hm; subst; simpl in H.
    match goal with Hp : p _ = true |- _ => rewrite Hp in H end; exact H.
  - inversion Hm; subst; exact H.
  - inversion Hm; subst; exact H.
  - inversion Hm; subst; exact H.
  - inversion Hm; subst; simpl in H.
    match goal with
    | H1 : matches r1 _ ?m, H2 : matches r2 ?m _ |- _ =>
        exact (IH2 _ _ (IH1 _ _ H _ H1) _ H2)
    end.
  - simpl in H. destruct (rmatch r1 (MState i l cs) k) eqn:E; [discriminate|].
    inversion Hm; subst; [eapply IH1 | eapply IH2]; eassumption.
  - simpl in H. eapply star_none; eassumption.
  - inversion Hm; subst; simpl in H.
    exact (IH _ _ H _ ltac:(eassumption)).
Qed.

(** The matcher fails exactly when every possible match is refused by the
    continuation. *)
Lemma rmatch_none_iff r s k :
  rmatch r s k = None <-> (forall s1, matches r s s1 -> k s1 = None).
Proof.
  split; [apply rmatch_none|].
  intros H. destruct (rmatch r s k) eqn:E; [|reflexivity].
  destruct (rmatch_sound _ _ _ _ E) as (s1 & Hm & Hk).
  rewrite (H _ Hm) in Hk; discriminate.
Qed.

End Matcher.

(** ** The quote scan *)

Section QuoteScan.

Lemma isAlphanumeric_class c : isAlphanumeric [c] = alnumClass c.
Proof.
  unfold isAlphanumeric, test, search, matchAt; simpl.
  destruct (alnumClass c); reflexivity.
Qed.

Lemma code_prev line j :
  (if Nat.ltb 0 j then nth (j - 1) line SP else SP) = prevChar line j.
Proof.
  destruct j as [|i]; simpl; [reflexivity|].
  rewrite Nat.sub_0_r; reflexivity.
Qed.

Lemma code_next line j :
  (if Nat.ltb j (length line - 1) then nth (j + 1) line SP else SP)
  = nextChar line j.
Proof.
  unfold nextChar. rewrite Nat.add_1_r.
  destruct (Nat.ltb j (length line - 1)) eqn:E; [reflexivity|].
  apply Nat.ltb_ge in E. symmetry; apply nth_overflow; lia.
Qed.

(** One step of the scan, in terms of the character at [j]. *)
Lemma quoteStep_eq line st acc j :
  quoteStep line (st, acc) j =
  let c := nth j line SP in
  if N.eqb c LAQUO then (true, acc ++ [c])
  else if N.eqb c RAQUO then (false, acc ++ [c])
  else if (N.eqb c APOS || N.eqb c DQUOTE)%bool then
    if internalQuote line j then (st, acc ++ [c])
    else if st then (false, acc ++ [RAQUO]) else (true, acc ++ [LAQUO])
  else (st, acc ++ [c]).
Proof.
  unfold quoteStep, internalQuote.
  rewrite code_prev, code_next, !isAlphanumeric_class. reflexivity.
Qed.

Lemma quoteStep_acc line st acc j :
  quoteStep line (st, acc) j =
  (fst (quoteStep line (st, []) j), acc ++ snd (quoteStep line (st, []) j)).
Proof.
  rewrite !quoteStep_eq; cbv zeta.
  repeat match goal with
         | |- context [if ?b then _ else _] => destruct b
         end; reflexivity.
Qed.

Lemma quoteStep_one line st j :
  length (snd (quoteStep line (st, []) j)) = 1.
Proof.
  rewrite quoteStep_eq; cbv zeta.
  repeat match goal with
         | |- context [if ?b then _ else _] => destruct b
         end; reflexivity.
Qed.

(** The scan of the indices [a, a + n) appends [n] characters. *)
Lemma quoteFold_acc line n : forall a st acc,
  fold_left (quoteStep line) (seq a n) (st, acc) =
  (fst (fold_left (quoteStep line) (seq a n) (st, [])),
   acc ++ snd (fold_left (quoteStep line) (seq a n) (st, []))).
Proof.
  induction n as [|n IH]; intros a st acc; cbn [seq fold_left].
  - cbn [fst snd]. rewrite app_nil_r; reflexivity.
  - rewrite (quoteStep_acc line st acc a).
    destruct (quoteStep line (st, []) a) as [st1 o1] eqn:E; cbn [fst snd].
    rewrite (IH (S a) st1 (acc ++ o1)), (IH (S a) st1 o1); cbn [fst snd].
    rewrite app_assoc; reflexivity.
Qed.

Lemma quoteFold_length line n : forall a st,
  length (snd (fold_left (quoteStep line) (seq a n) (st, []))) = n.
Proof.
  induction n as [|n IH]; intros a st; cbn [seq fold_left]; [reflexivity|].
  destruct (quoteStep line (st, []) a) as [st1 o1] eqn:E.
  rewrite quoteFold_acc; cbn [fst snd]. rewrite length_app, IH.
  pose proof (quoteStep_one line st a) as H1; rewrite E in H1; simpl in H1.
  lia.
Qed.

Lemma quoteLoop_length line st : length (snd (quoteLoop line st)) = length line.
Proof. apply quoteFold_length. Qed.

(** The scan up to [j + 1] is the scan up to [j] followed by the step at [j]. *)
Lemma quoteFold_S line st0 j :
  fold_left (quoteStep line) (seq 0 (S j)) (st0, []) =
  quoteStep line (fold_left (quoteStep line) (seq 0 j) (st0, [])) j.
Proof. rewrite seq_S, fold_left_app; reflexivity. Qed.

(** The characters emitted up to [n] are a prefix of the whole output. *)
Lemma quoteFold_prefix line st0 n :
  n <= length line ->
  snd (fold_left (quoteStep line) (seq 0 n) (st0, []))
  = firstn n (snd (quoteLoop line st0)).
Proof.
  intros Hn. unfold quoteLoop.
  replace (length line) with (n + (length line - n)) by lia.
  rewrite seq_app, fold_left_app; simpl.
  destruct (fold_left (quoteStep line) (seq 0 n) (st0, [])) as [st1 o1] eqn:E.
  rewrite quoteFold_acc; simpl.
  assert (Hl : length o1 = n).
  { pose proof (quoteFold_length line n 0 st0) as H; rewrite E in H; exact H. }
  rewrite firstn_app, <- Hl, firstn_all, Nat.sub_diag; simpl.
  rewrite app_nil_r; reflexivity.
Qed.

(** The character emitted at [j] and the state after it. *)
Lemma quoteLoop_at line st0 j c :
  nth_error line j = Some c ->
  nth_error (snd (quoteLoop line st0)) j
  = Some (nth 0 (snd (quoteStep line (dialogueAt line st0 j, []) j)) SP)
  /\ dialogueAt line st0 (S j)
     = fst (quoteStep line (dialogueAt line st0 j, []) j).
Proof.
  intros Hc.
  assert (Hj : j < length line) by (apply nth_error_Some; congruence).
  unfold dialogueAt at 2. rewrite quoteFold_S.
  pose proof (quoteFold_prefix line st0 (S j) Hj) as HP.
  rewrite quoteFold_S in HP.
  pose proof (quoteFold_length line j 0 st0) as HL.
  destruct (fold_left (quoteStep line) (seq 0 j) (st0, [])) as [st1 o1] eqn:E.
  unfold dialogueAt; rewrite E; cbn [fst snd] in *.
  rewrite (quoteStep_acc line st1 o1 j) in HP |- *; cbn [fst snd] in *.
  pose proof (quoteStep_one line st1 j) as H1.
  destruct (snd (quoteStep line (st1, []) j)) as [|x [|y r]] eqn:Eo;
    simpl in H1; try discriminate.
  split; [|reflexivity].
  assert (Hn : nth_error (firstn (S j) (snd (quoteLoop line st0))) j = Some x).
  { rewrite <- HP, nth_error_app2 by lia.
    rewrite HL, Nat.sub_diag; reflexivity. }
  rewrite nth_error_firstn in Hn.
  destruct (Nat.ltb j (S j)) eqn:El; [exact Hn|].
  apply Nat.ltb_ge in El; lia.
Qed.

End QuoteScan.

Section QuoteClassification.

Ltac quote_cases :=
  repeat match goal with
         | |- context [N.eqb ?a ?b] =>
             let E := fresh "E" in
             destruct (N.eqb a b) eqn:E;
             [apply N.eqb_eq in E | apply N.eqb_neq in E]
         end.



End QuoteClassification.

(** ** The dialogue state across lines *)

Section DialogueState.



End DialogueState.

(** ** Global replacement *)

Section Replace.

Variable A : Type.
Variable r : regex.
Variable f : A -> rmatch_result -> jsstring * A.

Lemma replaceLoop_skip n : forall l i a,
  n <= length l ->
  replaceLoop r f i l n a = replaceLoop r f (n + i) (skipn n l) 0 a.
Proof.
  induction n as [|n IH]; intros l i a Hn; [reflexivity|].
  destruct l as [|c t]; [simpl in Hn; lia|].
  cbn [replaceLoop skipn]. rewrite IH by (simpl in Hn; lia).
  rewrite Nat.add_succ_r; reflexivity.
Qed.

Lemma replaceLoop_miss i c t a :
  matchAt r i (c :: t) = None ->
  replaceLoop r f i (c :: t) 0 a =
  (c :: fst (replaceLoop r f (S i) t 0 a), snd (replaceLoop r f (S i) t 0 a)).
Proof.
  intros H. cbn [replaceLoop]. rewrite H.
  destruct (replaceLoop r f (S i) t 0 a); reflexivity.
Qed.

Lemma replaceLoop_hit i l a m n :
  matchAt r i l = Some m ->
  lastIndex m - i = S n ->
  S n <= length l ->
  replaceLoop r f i l 0 a =
  (fst (f a m) ++ fst (replaceLoop r f (S n + i) (skipn (S n) l) 0 (snd (f a m))),
   snd (replaceLoop r f (S n + i) (skipn (S n) l) 0 (snd (f a m)))).
Proof.
  intros H Hlen Hn. destruct l as [|c t]; [simpl in Hn; lia|].
  cbn [replaceLoop]. rewrite H, Hlen.
  destruct (f a m) as [out a1]; cbn [fst snd].
  rewrite replaceLoop_skip by (simpl in Hn; lia).
  rewrite Nat.add_succ_r. cbn [skipn Nat.add].
  destruct (replaceLoop r f (S (n + i)) (skipn n t) 0 a1); reflexivity.
Qed.

(** Where the pattern matches nowhere, nothing is replaced. *)
Lemma replaceLoop_id l : forall i a,
  (forall n j, matchAt r j (skipn n l) = None) ->
  replaceLoop r f i l 0 a = (l, a).
Proof.
  induction l as [|c t IH]; intros i a H.
  - cbn [replaceLoop]. rewrite (H 0 i : matchAt r i [] = None). reflexivity.
  - rewrite replaceLoop_miss by (apply (H 0 i)).
    rewrite IH; [reflexivity|].
    intros n j; apply (H (S n) j).
Qed.

(** The part of the text in which no match begins is copied. *)
Lemma replaceLoop_copy pre : forall l i a,
  (forall n j, n < length pre -> matchAt r j (skipn n (pre ++ l)) = None) ->
  replaceLoop r f i (pre ++ l) 0 a =
  (pre ++ fst (replaceLoop r f (length pre + i) l 0 a),
   snd (replaceLoop r f (length pre + i) l 0 a)).
Proof.
  induction pre as [|c t IH]; intros l i a H.
  - cbn [app length Nat.add].
    destruct (replaceLoop r f i l 0 a); reflexivity.
  - cbn [app]. rewrite replaceLoop_miss by (apply (H 0 i); simpl; lia).
    rewrite IH.
    + cbn [fst snd length]. rewrite Nat.add_succ_r; reflexivity.
    + intros n j Hn; apply (H (S n) j); simpl; lia.
Qed.

End Replace.

Lemma needsFirst_matchAt p r i l :
  needsFirst p r ->
  match l with [] => True | x :: _ => p x = false end ->
  matchAt r i l = None.
Proof.
  intros Hr Hl. unfold matchAt. rewrite (Hr i l [] Some Hl). reflexivity.
Qed.

Lemma skipn_head_false (p : cu -> bool) l :
  forallb (fun c => negb (p c)) l = true ->
  forall n, match skipn n l with [] => True | x :: _ => p x = false end.
Proof.
  induction l as [|c t IH]; intros H n.
  - destruct n; exact I.
  - simpl in H. apply andb_true_iff in H as [Hc Ht].
    destruct n as [|n]; cbn [skipn].
    + apply negb_true_iff; exact Hc.
    + apply IH; exact Ht.
Qed.

Lemma needsFirst_replaceAllWith (A : Type) p r
    (f : A -> rmatch_result -> jsstring * A) l a :
  needsFirst p r ->
  forallb (fun c => negb (p c)) l = true ->
  replaceAllWith r f l a = (l, a).
Proof.
  intros Hr Hl. unfold replaceAllWith. apply replaceLoop_id.
  intros n j. apply (needsFirst_matchAt p r); [exact Hr|].
  apply skipn_head_false; exact Hl.
Qed.

Lemma needsFirst_replaceAll p r tpl l :
  needsFirst p r ->
  forallb (fun c => negb (p c)) l = true ->
  replaceAll r tpl l = l.
Proof.
  intros Hr Hl. unfold replaceAll.
  rewrite (needsFirst_replaceAllWith unit p r _ l tt Hr Hl). reflexivity.
Qed.

Lemma needsFirst_search p r l : forall i,
  needsFirst p r ->
  forallb (fun c => negb (p c)) l = true ->
  search r i l = None.
Proof.
  induction l as [|c t IH]; intros i Hr Hl; cbn [search].
  - rewrite (needsFirst_matchAt p r i [] Hr I). reflexivity.
  - rewrite (needsFirst_matchAt p r i (c :: t) Hr).
    + apply IH; [exact Hr|]. simpl in Hl. apply andb_true_iff in Hl as [_ Ht]; exact Ht.
    + simpl in Hl. apply andb_true_iff in Hl as [Hc _].
      apply negb_true_iff; exact Hc.
Qed.

(** ** The marker reorderer *)

Section Reorder.

Lemma occurs_skipn p l : forall n,
  occurs p l = false -> occurs p (skipn n l) = false.
Proof.
  induction l as [|c t IH]; intros n H.
  - destruct n; exact H.
  - destruct n as [|n]; [exact H|].
    cbn [skipn]. apply IH.
    cbn [occurs] in H. apply orb_false_iff in H as [_ H]; exact H.
Qed.

Ltac by_first_chars H :=
  unfold matchAt; simpl;
  repeat match goal with
         | |- context [N.eqb ?a ?b] =>
             let E := fresh "E" in
             destruct (N.eqb a b) eqn:E; [apply N.eqb_eq in E; subst a|]
         end;
  try reflexivity; exfalso; simpl in H; discriminate.

Lemma open_pass_none (k : nat) l j :
  k = 1 \/ k = 2 \/ k = 3 ->
  occurs [STAR; LAQUO] l = false ->
  matchAt (RSeq (RGrp 1 (RLit (repeat STAR k))) (RChr LAQUO)) j l = None.
Proof.
  intros [-> | [-> | ->]] H.
  - destruct l as [|a [|b t]]; by_first_chars H.
  - destruct l as [|a [|b [|c t]]]; by_first_chars H.
  - destruct l as [|a [|b [|c [|d t]]]]; by_first_chars H.
Qed.

Lemma close_pass_none (k : nat) l j :
  k = 1 \/ k = 2 \/ k = 3 ->
  occurs [RAQUO; STAR] l = false ->
  matchAt (RSeq (RChr RAQUO) (RGrp 1 (RLit (repeat STAR k)))) j l = None.
Proof.
  intros [-> | [-> | ->]] H.
  - destruct l as [|a [|b t]]; by_first_chars H.
  - destruct l as [|a [|b [|c t]]]; by_first_chars H.
  - destruct l as [|a [|b [|c [|d t]]]]; by_first_chars H.
Qed.

Lemma reorderMarkers_settled l :
  settled l = true -> reorderMarkers l = l.
Proof.
  unfold settled. rewrite andb_true_iff, !negb_true_iff. intros [Ho Hc].
  assert (HO : forall k tpl, k = 1 \/ k = 2 \/ k = 3 ->
            replaceAll (RSeq (RGrp 1 (RLit (repeat STAR k))) (RChr LAQUO)) tpl l = l).
  { intros k tpl Hk. unfold replaceAll, replaceAllWith.
    rewrite replaceLoop_id; [reflexivity|].
    intros n j. apply open_pass_none; [exact Hk|].
    apply occurs_skipn; exact Ho. }
  assert (HC : forall k tpl, k = 1 \/ k = 2 \/ k = 3 ->
            replaceAll (RSeq (RChr RAQUO) (RGrp 1 (RLit (repeat STAR k)))) tpl l = l).
  { intros k tpl Hk. unfold replaceAll, replaceAllWith.
    rewrite replaceLoop_id; [reflexivity|].
    intros n j. apply close_pass_none; [exact Hk|].
    apply occurs_skipn; exact Hc. }
  unfold reorderMarkers.
  change (js "***") with (repeat STAR 3).
  change (js "**") with (repeat STAR 2).
  change (js "*") with (repeat STAR 1).
  rewrite (HO 3), (HO 2), (HO 1), (HC 3), (HC 2), (HC 1) by tauto.
  reflexivity.
Qed.

End Reorder.

(** *** Replacement of a literal by a literal of the same length *)

Section LiteralPass.

Variable r : regex.
Variable tpl : list titem.
Variables pat rep : jsstring.

Hypothesis pat_hit : forall j l,
  isPrefix pat l = true ->
  exists m, matchAt r j l = Some m /\ lastIndex m = length pat + j
            /\ expand tpl m = rep.
Hypothesis pat_miss : forall j l,
  isPrefix pat l = false -> matchAt r j l = None.
Hypothesis pat_nonempty : 0 < length pat.
Hypothesis same_length : length rep = length pat.

Let f := fun (_ : unit) (m : rmatch_result) => (expand tpl m, tt).
Let pass j l := fst (replaceLoop r f j l 0 tt).

Lemma isPrefix_length p : forall l, isPrefix p l = true -> length p <= length l.
Proof.
  induction p as [|a p IH]; intros l H; [simpl; lia|].
  destruct l as [|b l]; [discriminate|].
  simpl in H. apply andb_true_iff in H as [_ H]. apply IH in H. simpl; lia.
Qed.

Lemma isPrefix_app p : forall l,
  isPrefix p l = true -> l = p ++ skipn (length p) l.
Proof.
  induction p as [|a p IH]; intros l H; [reflexivity|].
  destruct l as [|b l]; [discriminate|].
  simpl in H. apply andb_true_iff in H as [E H].
  apply N.eqb_eq in E; subst b. cbn [length skipn app].
  f_equal; apply IH; exact H.
Qed.

Lemma pass_unfold j l :
  pass j l =
  if isPrefix pat l
  then rep ++ pass (length pat + j) (skipn (length pat) l)
  else match l with
       | [] => []
       | c :: t => c :: pass (S j) t
       end.
Proof.
  unfold pass. destruct (isPrefix pat l) eqn:E.
  - destruct (pat_hit j l E) as (m & Hm & Hl & He).
    pose proof (isPrefix_length pat l E) as Hlen.
    destruct (length pat) as [|n] eqn:En; [lia|].
    rewrite (replaceLoop_hit unit r f j l tt m n Hm) by (rewrite ?Hl; lia).
    cbn [fst snd f]. unfold f at 1. cbn [fst]. rewrite He. reflexivity.
  - destruct l as [|c t].
    + cbn [replaceLoop]. rewrite (pat_miss j [] E). reflexivity.
    + rewrite replaceLoop_miss by (apply pat_miss; exact E). reflexivity.
Qed.

Lemma pass_replaceAll l : replaceAll r tpl l = pass 0 l.
Proof. reflexivity. Qed.

Lemma pass_length n : forall l j, length l <= n -> length (pass j l) = length l.
Proof.
  induction n as [|n IH]; intros l j Hn; rewrite pass_unfold.
  - destruct l; [|simpl in Hn; lia].
    destruct (isPrefix pat []) eqn:E; [|reflexivity].
    apply isPrefix_length in E; simpl in E; lia.
  - destruct (isPrefix pat l) eqn:E.
    + pose proof (isPrefix_length pat l E) as Hl.
      rewrite length_app, IH, same_length, length_skipn; [lia|].
      rewrite length_skipn; lia.
    + destruct l as [|c t]; [reflexivity|].
      cbn [length]. rewrite IH; [reflexivity | simpl in Hn; lia].
Qed.

Lemma posSum_app c a : forall i b,
  posSum c i (a ++ b) = posSum c i a + posSum c (length a + i) b.
Proof.
  induction a as [|x a IH]; intros i b; [reflexivity|].
  cbn [app posSum length]. rewrite IH, Nat.add_succ_r. cbn [Nat.add]. lia.
Qed.

(** A character whose index sum no occurrence of the pattern raises keeps
    it from rising over the whole pass; one that each occurrence lowers is
    lowered as soon as the pattern occurs. *)
Lemma pass_posSum_le c n :
  (forall i, posSum c i rep <= posSum c i pat) ->
  forall l j i, length l <= n -> posSum c i (pass j l) <= posSum c i l.
Proof.
  intros Hw. induction n as [|n IH]; intros l j i Hn; rewrite pass_unfold.
  - destruct l; [|simpl in Hn; lia].
    destruct (isPrefix pat []) eqn:E; [|reflexivity].
    apply isPrefix_length in E; simpl in E; lia.
  - destruct (isPrefix pat l) eqn:E.
    + pose proof (isPrefix_length pat l E) as Hl.
      rewrite (isPrefix_app pat l E) at 2.
      rewrite !posSum_app, same_length.
      specialize (IH (skipn (length pat) l) (length pat + j) (length pat + i)).
      rewrite length_skipn in IH. specialize (Hw i). lia.
    + destruct l as [|c0 t]; [reflexivity|].
      cbn [posSum]. specialize (IH t (S j) (S i)). simpl in Hn. lia.
Qed.

Lemma pass_posSum_ge c n :
  (forall i, posSum c i pat <= posSum c i rep) ->
  forall l j i, length l <= n -> posSum c i l <= posSum c i (pass j l).
Proof.
  intros Hw. induction n as [|n IH]; intros l j i Hn; rewrite pass_unfold.
  - destruct l; [|simpl in Hn; lia].
    destruct (isPrefix pat []) eqn:E; [|reflexivity].
    apply isPrefix_length in E; simpl in E; lia.
  - destruct (isPrefix pat l) eqn:E.
    + pose proof (isPrefix_length pat l E) as Hl.
      rewrite (isPrefix_app pat l E) at 1.
      rewrite !posSum_app, same_length.
      specialize (IH (skipn (length pat) l) (length pat + j) (length pat + i)).
      rewrite length_skipn in IH. specialize (Hw i). lia.
    + destruct l as [|c0 t]; [reflexivity|].
      cbn [posSum]. specialize (IH t (S j) (S i)). simpl in Hn. lia.
Qed.

Lemma pass_posSum_lt c n :
  (forall i, posSum c i rep < posSum c i pat) ->
  forall l j i, length l <= n -> occurs pat l = true ->
  posSum c i (pass j l) < posSum c i l.
Proof.
  intros Hw.
  assert (Hle : forall i, posSum c i rep <= posSum c i pat)
    by (intros i; specialize (Hw i); lia).
  induction n as [|n IH]; intros l j i Hn Ho; rewrite pass_unfold.
  - destruct l; [|simpl in Hn; lia].
    simpl in Ho. rewrite orb_false_r in Ho.
    apply isPrefix_length in Ho; simpl in Ho; lia.
  - destruct (isPrefix pat l) eqn:E.
    + pose proof (isPrefix_length pat l E) as Hl.
      rewrite (isPrefix_app pat l E) at 2.
      rewrite !posSum_app, same_length.
      pose proof (pass_posSum_le c n Hle (skipn (length pat) l)
                    (length pat + j) (length pat + i)) as H1.
      rewrite length_skipn in H1. specialize (Hw i). lia.
    + destruct l as [|c0 t]; [simpl in Ho; rewrite E in Ho; discriminate|].
      cbn [occurs] in Ho. rewrite E in Ho. cbn [orb] in Ho.
      cbn [posSum]. specialize (IH t (S j) (S i)). simpl in Hn.
      specialize (IH ltac:(lia) Ho). lia.
Qed.

Lemma pass_posSum_gt c n :
  (forall i, posSum c i pat < posSum c i rep) ->
  forall l j i, length l <= n -> occurs pat l = true ->
  posSum c i l < posSum c i (pass j l).
Proof.
  intros Hw.
  assert (Hle : forall i, posSum c i pat <= posSum c i rep)
    by (intros i; specialize (Hw i); lia).
  induction n as [|n IH]; intros l j i Hn Ho; rewrite pass_unfold.
  - destruct l; [|simpl in Hn; lia].
    simpl in Ho. rewrite orb_false_r in Ho.
    apply isPrefix_length in Ho; simpl in Ho; lia.
  - destruct (isPrefix pat l) eqn:E.
    + pose proof (isPrefix_length pat l E) as Hl.
      rewrite (isPrefix_app pat l E) at 1.
      rewrite !posSum_app, same_length.
      pose proof (pass_posSum_ge c n Hle (skipn (length pat) l)
                    (length pat + j) (length pat + i)) as H1.
      rewrite length_skipn in H1. specialize (Hw i). lia.
    + destruct l as [|c0 t]; [simpl in Ho; rewrite E in Ho; discriminate|].
      cbn [occurs] in Ho. rewrite E in Ho. cbn [orb] in Ho.
      cbn [posSum]. specialize (IH t (S j) (S i)). simpl in Hn.
      specialize (IH ltac:(lia) Ho). lia.
Qed.

Lemma pass_perm n :
  Permutation rep pat ->
  forall l j, length l <= n -> Permutation (pass j l) l.
Proof.
  intros Hp. induction n as [|n IH]; intros l j Hn; rewrite pass_unfold.
  - destruct l; [|simpl in Hn; lia].
    destruct (isPrefix pat []) eqn:E; [|constructor].
    apply isPrefix_length in E; simpl in E; lia.
  - destruct (isPrefix pat l) eqn:E.
    + pose proof (isPrefix_length pat l E) as Hl.
      pose proof (isPrefix_app pat l E) as Hs.
      apply (Permutation_trans (l' := pat ++ skipn (length pat) l));
        [|rewrite <- Hs; apply Permutation_refl].
      apply Permutation_app; [exact Hp|].
      apply IH. rewrite length_skipn; lia.
    + destruct l as [|c t]; [constructor|].
      constructor. apply IH. simpl in Hn; lia.
Qed.

End LiteralPass.

(** *** The six passes of [reorderMarkers] *)

Section ReorderPasses.

Ltac chars_cases :=
  unfold matchAt; simpl;
  repeat match goal with
         | |- context [N.eqb ?a ?b] =>
             let E := fresh "E" in
             destruct (N.eqb a b) eqn:E; [apply N.eqb_eq in E; subst a|]
         end.

Ltac hit H :=
  rewrite (isPrefix_app _ _ H); unfold matchAt; simpl;
  eexists; repeat split.

Ltac miss H :=
  chars_cases; try reflexivity; simpl in H; discriminate.

Lemma open_hit k j l :
  k = 1 \/ k = 2 \/ k = 3 ->
  isPrefix (repeat STAR k ++ [LAQUO]) l = true ->
  exists m, matchAt (openPass k) j l = Some m
            /\ lastIndex m = length (repeat STAR k ++ [LAQUO]) + j
            /\ expand [TLit (LAQUO :: repeat STAR k)] m = LAQUO :: repeat STAR k.
Proof. intros [-> | [-> | ->]] H; hit H. Qed.

Lemma open_miss k j l :
  k = 1 \/ k = 2 \/ k = 3 ->
  isPrefix (repeat STAR k ++ [LAQUO]) l = false ->
  matchAt (openPass k) j l = None.
Proof.
  intros [-> | [-> | ->]] H.
  - destruct l as [|a [|b t]]; miss H.
  - destruct l as [|a [|b [|c t]]]; miss H.
  - destruct l as [|a [|b [|c [|d t]]]]; miss H.
Qed.

Lemma close_hit k j l :
  k = 1 \/ k = 2 \/ k = 3 ->
  isPrefix (RAQUO :: repeat STAR k) l = true ->
  exists m, matchAt (closePass k) j l = Some m
            /\ lastIndex m = length (RAQUO :: repeat STAR k) + j
            /\ expand [TLit (repeat STAR k ++ [RAQUO])] m = repeat STAR k ++ [RAQUO].
Proof. intros [-> | [-> | ->]] H; hit H. Qed.

Lemma close_miss k j l :
  k = 1 \/ k = 2 \/ k = 3 ->
  isPrefix (RAQUO :: repeat STAR k) l = false ->
  matchAt (closePass k) j l = None.
Proof.
  intros [-> | [-> | ->]] H.
  - destruct l as [|a [|b t]]; miss H.
  - destruct l as [|a [|b [|c t]]]; miss H.
  - destruct l as [|a [|b [|c [|d t]]]]; miss H.
Qed.

End ReorderPasses.


Section ReorderIdempotence.

Let O (k : nat) (l : jsstring) : jsstring :=
  replaceAll (openPass k) [TLit (LAQUO :: repeat STAR k)] l.
Let C (k : nat) (l : jsstring) : jsstring :=
  replaceAll (closePass k) [TLit (repeat STAR k ++ [RAQUO])] l.

Lemma reorderMarkers_passes l :
  reorderMarkers l = C 1 (C 2 (C 3 (O 1 (O 2 (O 3 l))))).
Proof. reflexivity. Qed.

Lemma occurs_false_prefix p l : forall n,
  occurs p l = false -> isPrefix p (skipn n l) = false.
Proof.
  intros n H. apply (occurs_skipn p l n) in H.
  destruct (skipn n l); cbn [occurs] in H;
    apply orb_false_iff in H as [H _]; exact H.
Qed.

Ltac width k := destruct k as [|[|[|[|k]]]]; try lia.

Lemma O_id k l :
  1 <= k <= 3 -> occurs (repeat STAR k ++ [LAQUO]) l = false -> O k l = l.
Proof.
  intros Hk H. unfold O, replaceAll, replaceAllWith.
  rewrite replaceLoop_id; [reflexivity|].
  intros n j. apply open_miss; [lia|]. apply occurs_false_prefix; exact H.
Qed.

Lemma C_id k l :
  1 <= k <= 3 -> occurs (RAQUO :: repeat STAR k) l = false -> C k l = l.
Proof.
  intros Hk H. unfold C, replaceAll, replaceAllWith.
  rewrite replaceLoop_id; [reflexivity|].
  intros n j. apply close_miss; [lia|]. apply occurs_false_prefix; exact H.
Qed.

Lemma O_unsettled_id k l :
  1 <= k <= 3 -> occurs [STAR; LAQUO] l = false -> O k l = l.
Proof.
  intros Hk H. unfold O, replaceAll, replaceAllWith.
  rewrite replaceLoop_id; [reflexivity|].
  intros n j. apply open_pass_none; [lia|]. apply occurs_skipn; exact H.
Qed.

Lemma O_open_le k l :
  1 <= k <= 3 -> posSum LAQUO 0 (O k l) <= posSum LAQUO 0 l.
Proof.
  intros Hk.
  assert (Hk' : k = 1 \/ k = 2 \/ k = 3) by lia.
  apply (pass_posSum_le (openPass k) _ (repeat STAR k ++ [LAQUO])
           (LAQUO :: repeat STAR k) (fun j l => open_hit k j l Hk')
           (fun j l => open_miss k j l Hk')) with (n := length l); try lia.
  - rewrite length_app; simpl; lia.
  - rewrite length_app; simpl; lia.
  - intros i. width k; simpl; lia.
Qed.

Lemma O_open_lt k l :
  1 <= k <= 3 -> occurs (repeat STAR k ++ [LAQUO]) l = true ->
  posSum LAQUO 0 (O k l) < posSum LAQUO 0 l.
Proof.
  intros Hk Ho.
  assert (Hk' : k = 1 \/ k = 2 \/ k = 3) by lia.
  apply (pass_posSum_lt (openPass k) _ (repeat STAR k ++ [LAQUO])
           (LAQUO :: repeat STAR k) (fun j l => open_hit k j l Hk')
           (fun j l => open_miss k j l Hk')) with (n := length l); try lia; try exact Ho.
  - rewrite length_app; simpl; lia.
  - rewrite length_app; simpl; lia.
  - intros i. width k; simpl; lia.
Qed.

Lemma C_open_eq k l :
  1 <= k <= 3 -> posSum LAQUO 0 (C k l) = posSum LAQUO 0 l.
Proof.
  intros Hk.
  assert (Hk' : k = 1 \/ k = 2 \/ k = 3) by lia.
  apply Nat.le_antisymm.
  - apply (pass_posSum_le (closePass k) _ (RAQUO :: repeat STAR k)
             (repeat STAR k ++ [RAQUO]) (fun j l => close_hit k j l Hk')
             (fun j l => close_miss k j l Hk')) with (n := length l); try lia.
    + simpl; lia.
    + rewrite length_app; simpl; lia.
    + intros i. width k; simpl; lia.
  - apply (pass_posSum_ge (closePass k) _ (RAQUO :: repeat STAR k)
             (repeat STAR k ++ [RAQUO]) (fun j l => close_hit k j l Hk')
             (fun j l => close_miss k j l Hk')) with (n := length l); try lia.
    + simpl; lia.
    + rewrite length_app; simpl; lia.
    + intros i. width k; simpl; lia.
Qed.

Lemma C_close_ge k l :
  1 <= k <= 3 -> posSum RAQUO 0 l <= posSum RAQUO 0 (C k l).
Proof.
  intros Hk.
  assert (Hk' : k = 1 \/ k = 2 \/ k = 3) by lia.
  apply (pass_posSum_ge (closePass k) _ (RAQUO :: repeat STAR k)
           (repeat STAR k ++ [RAQUO]) (fun j l => close_hit k j l Hk')
           (fun j l => close_miss k j l Hk')) with (n := length l); try lia.
  - simpl; lia.
  - rewrite length_app; simpl; lia.
  - intros i. width k; simpl; lia.
Qed.

Lemma C_close_gt k l :
  1 <= k <= 3 -> occurs (RAQUO :: repeat STAR k) l = true ->
  posSum RAQUO 0 l < posSum RAQUO 0 (C k l).
Proof.
  intros Hk Ho.
  assert (Hk' : k = 1 \/ k = 2 \/ k = 3) by lia.
  apply (pass_posSum_gt (closePass k) _ (RAQUO :: repeat STAR k)
           (repeat STAR k ++ [RAQUO]) (fun j l => close_hit k j l Hk')
           (fun j l => close_miss k j l Hk')) with (n := length l); try lia; try exact Ho.
  - simpl; lia.
  - rewrite length_app; simpl; lia.
  - intros i. width k; simpl; lia.
Qed.

(** A line that is not settled is changed by the reorderer: an opening
    guillemet moves to the left, or else a closing one to the right. *)
Lemma reorderMarkers_unsettled l :
  settled l = false -> reorderMarkers l <> l.
Proof.
  unfold settled. intros H.
  rewrite reorderMarkers_passes.
  destruct (occurs [STAR; LAQUO] l) eqn:Ho.
  - clear H. intros Heq.
    assert (Hlt : posSum LAQUO 0 (O 1 (O 2 (O 3 l))) < posSum LAQUO 0 l).
    { destruct (occurs (repeat STAR 3 ++ [LAQUO]) l) eqn:E3.
      - pose proof (O_open_lt 3 l ltac:(lia) E3).
        pose proof (O_open_le 2 (O 3 l) ltac:(lia)).
        pose proof (O_open_le 1 (O 2 (O 3 l)) ltac:(lia)). lia.
      - rewrite (O_id 3 l ltac:(lia) E3).
        destruct (occurs (repeat STAR 2 ++ [LAQUO]) l) eqn:E2.
        + pose proof (O_open_lt 2 l ltac:(lia) E2).
          pose proof (O_open_le 1 (O 2 l) ltac:(lia)). lia.
        + rewrite (O_id 2 l ltac:(lia) E2).
          apply (O_open_lt 1 l ltac:(lia) Ho). }
    rewrite <- Heq in Hlt at 2.
    rewrite !C_open_eq in Hlt by lia. lia.
  - cbn [negb andb] in H. apply negb_false_iff in H.
    rewrite !(O_unsettled_id _ l) by (lia || exact Ho).
    intros Heq.
    assert (Hlt : posSum RAQUO 0 l < posSum RAQUO 0 (C 1 (C 2 (C 3 l)))).
    { destruct (occurs (RAQUO :: repeat STAR 3) l) eqn:E3.
      - pose proof (C_close_gt 3 l ltac:(lia) E3).
        pose proof (C_close_ge 2 (C 3 l) ltac:(lia)).
        pose proof (C_close_ge 1 (C 2 (C 3 l)) ltac:(lia)). lia.
      - rewrite (C_id 3 l ltac:(lia) E3).
        destruct (occurs (RAQUO :: repeat STAR 2) l) eqn:E2.
        + pose proof (C_close_gt 2 l ltac:(lia) E2).
          pose proof (C_close_ge 1 (C 2 l) ltac:(lia)). lia.
        + rewrite (C_id 2 l ltac:(lia) E2).
          apply (C_close_gt 1 l ltac:(lia) H). }
    rewrite Heq in Hlt. lia.
Qed.

Lemma O_close_eq k l :
  1 <= k <= 3 -> posSum RAQUO 0 (O k l) = posSum RAQUO 0 l.
Proof.
  intros Hk.
  assert (Hk' : k = 1 \/ k = 2 \/ k = 3) by lia.
  apply Nat.le_antisymm.
  - apply (pass_posSum_le (openPass k) _ (repeat STAR k ++ [LAQUO])
             (LAQUO :: repeat STAR k) (fun j l => open_hit k j l Hk')
             (fun j l => open_miss k j l Hk')) with (n := length l); try lia.
    + rewrite length_app; simpl; lia.
    + rewrite length_app; simpl; lia.
    + intros i. width k; simpl; lia.
  - apply (pass_posSum_ge (openPass k) _ (repeat STAR k ++ [LAQUO])
             (LAQUO :: repeat STAR k) (fun j l => open_hit k j l Hk')
             (fun j l => open_miss k j l Hk')) with (n := length l); try lia.
    + rewrite length_app; simpl; lia.
    + rewrite length_app; simpl; lia.
    + intros i. width k; simpl; lia.
Qed.

Lemma O_perm k l : 1 <= k <= 3 -> Permutation (O k l) l.
Proof.
  intros Hk.
  assert (Hk' : k = 1 \/ k = 2 \/ k = 3) by lia.
  apply (pass_perm (openPass k) _ (repeat STAR k ++ [LAQUO])
           (LAQUO :: repeat STAR k) (fun j l => open_hit k j l Hk')
           (fun j l => open_miss k j l Hk')) with (n := length l); try lia;
    match goal with
    | |- Permutation _ _ =>
        change (LAQUO :: repeat STAR k) with ([LAQUO] ++ repeat STAR k);
        apply Permutation_app_comm
    | |- _ => rewrite ?length_app; simpl; lia
    end.
Qed.

Lemma C_perm k l : 1 <= k <= 3 -> Permutation (C k l) l.
Proof.
  intros Hk.
  assert (Hk' : k = 1 \/ k = 2 \/ k = 3) by lia.
  apply (pass_perm (closePass k) _ (RAQUO :: repeat STAR k)
           (repeat STAR k ++ [RAQUO]) (fun j l => close_hit k j l Hk')
           (fun j l => close_miss k j l Hk')) with (n := length l); try lia;
    match goal with
    | |- Permutation _ _ =>
        change (RAQUO :: repeat STAR k) with ([RAQUO] ++ repeat STAR k);
        apply Permutation_app_comm
    | |- _ => rewrite ?length_app; simpl; lia
    end.
Qed.

Lemma reorder_perm l : Permutation (reorderMarkers l) l.
Proof.
  rewrite reorderMarkers_passes.
  repeat (etransitivity; [first [apply C_perm | apply O_perm]; lia|]).
  reflexivity.
Qed.

Lemma reorder_open_le l :
  posSum LAQUO 0 (reorderMarkers l) <= posSum LAQUO 0 l.
Proof.
  rewrite reorderMarkers_passes, !C_open_eq by lia.
  pose proof (O_open_le 3 l ltac:(lia)).
  pose proof (O_open_le 2 (O 3 l) ltac:(lia)).
  pose proof (O_open_le 1 (O 2 (O 3 l)) ltac:(lia)). lia.
Qed.

Lemma reorder_close_ge l :
  posSum RAQUO 0 l <= posSum RAQUO 0 (reorderMarkers l).
Proof.
  rewrite reorderMarkers_passes.
  pose proof (C_close_ge 3 (O 1 (O 2 (O 3 l))) ltac:(lia)).
  pose proof (C_close_ge 2 (C 3 (O 1 (O 2 (O 3 l)))) ltac:(lia)).
  pose proof (C_close_ge 1 (C 2 (C 3 (O 1 (O 2 (O 3 l))))) ltac:(lia)).
  rewrite !O_close_eq in * by lia. lia.
Qed.

(** On a line that is not settled an opening guillemet moves to the left,
    or else a closing one to the right. *)
Lemma reorder_progress l :
  settled l = false ->
  posSum LAQUO 0 (reorderMarkers l) < posSum LAQUO 0 l
  \/ posSum RAQUO 0 l < posSum RAQUO 0 (reorderMarkers l).
Proof.
  unfold settled. intros H. rewrite reorderMarkers_passes.
  destruct (occurs [STAR; LAQUO] l) eqn:Ho.
  - left. rewrite !C_open_eq by lia.
    destruct (occurs (repeat STAR 3 ++ [LAQUO]) l) eqn:E3.
    + pose proof (O_open_lt 3 l ltac:(lia) E3).
      pose proof (O_open_le 2 (O 3 l) ltac:(lia)).
      pose proof (O_open_le 1 (O 2 (O 3 l)) ltac:(lia)). lia.
    + rewrite (O_id 3 l ltac:(lia) E3).
      destruct (occurs (repeat STAR 2 ++ [LAQUO]) l) eqn:E2.
      * pose proof (O_open_lt 2 l ltac:(lia) E2).
        pose proof (O_open_le 1 (O 2 l) ltac:(lia)). lia.
      * rewrite (O_id 2 l ltac:(lia) E2).
        apply (O_open_lt 1 l ltac:(lia) Ho).
  - right. cbn [negb andb] in H. apply negb_false_iff in H.
    rewrite !(O_unsettled_id _ l) by (lia || exact Ho).
    destruct (occurs (RAQUO :: repeat STAR 3) l) eqn:E3.
    + pose proof (C_close_gt 3 l ltac:(lia) E3).
      pose proof (C_close_ge 2 (C 3 l) ltac:(lia)).
      pose proof (C_close_ge 1 (C 2 (C 3 l)) ltac:(lia)). lia.
    + rewrite (C_id 3 l ltac:(lia) E3).
      destruct (occurs (RAQUO :: repeat STAR 2) l) eqn:E2.
      * pose proof (C_close_gt 2 l ltac:(lia) E2).
        pose proof (C_close_ge 1 (C 2 l) ltac:(lia)). lia.
      * rewrite (C_id 2 l ltac:(lia) E2).
        apply (C_close_gt 1 l ltac:(lia) H).
Qed.

End ReorderIdempotence.

Section ReorderClaim.

(** C8, as stated, fails: on the line made of two closing guillemets and an
    asterisk the first application moves the asterisk over one guillemet
    only, and the second application moves it again. *)
Lemma reorderMarkers_not_idempotent :
  reorderMarkers [RAQUO; RAQUO; STAR] = [RAQUO; STAR; RAQUO]
  /\ reorderMarkers (reorderMarkers [RAQUO; RAQUO; STAR]) = [STAR; RAQUO; RAQUO]
  /\ reorderMarkers (reorderMarkers [RAQUO; RAQUO; STAR])
     <> reorderMarkers [RAQUO; RAQUO; STAR].
Proof.
  split; [vm_compute; reflexivity|].
  split; [vm_compute; reflexivity|].
  vm_compute; discriminate.
Qed.

(** C8 (idempotence of the marker reorderer), amended.  [reorderMarkers]
    leaves a line unchanged exactly when the line is settled, that is, has no
    asterisk directly before an opening guillemet and none directly after a
    closing guillemet.  So a second application is a no-op exactly when the
    first application has produced a settled line, as it does on
    [**«texte»**]. *)
Theorem reorderMarkers_idempotent_iff_settled :
  (forall l : jsstring, reorderMarkers l = l <-> settled l = true)
  /\ (forall l : jsstring,
        reorderMarkers (reorderMarkers l) = reorderMarkers l
        <-> settled (reorderMarkers l) = true)
  /\ reorderMarkers strongQuoted
     = [LAQUO] ++ js "**texte**" ++ [RAQUO]
  /\ settled (reorderMarkers strongQuoted) = true.
Proof.
  assert (H : forall l : jsstring, reorderMarkers l = l <-> settled l = true).
  { intros l; split.
    - intros Heq. destruct (settled l) eqn:E; [reflexivity|].
      exfalso; exact (reorderMarkers_unsettled l E Heq).
    - apply reorderMarkers_settled. }
  split; [exact H|].
  split; [intros l; apply H|].
  split; vm_compute; reflexivity.
Qed.

Lemma reorderMarkers_idempotent_witness :
  settled (reorderMarkers strongQuoted) = true
  /\ reorderMarkers (reorderMarkers strongQuoted) = reorderMarkers strongQuoted.
Proof.
  split; [reflexivity|].
  apply (proj2 (proj1 (proj2 reorderMarkers_idempotent_iff_settled) strongQuoted)).
  reflexivity.
Defined.

End ReorderClaim.

(** ** Texts on which a pattern cannot match *)

Section NoMatch.

Lemma star_fail g p l : forall i cs k,
  (forall n i', k (MState i' (skipn n l) cs) = None) ->
  star g p i l cs k = None.
Proof.
  induction l as [|c t IH]; intros i cs k H; cbn [star].
  - apply (H 0 i).
  - assert (Ht : star g p (S i) t cs k = None)
      by (apply IH; intros n i'; apply (H (S n) i')).
    rewrite Ht, (H 0 i : k (MState i (c :: t) cs) = None).
    destruct (p c), g; reflexivity.
Qed.

Ltac first_char :=
  intros i l cs k Hl; destruct l as [|x t]; simpl;
  [reflexivity
  | repeat match goal with
           | |- context [if ?b then _ else _] =>
               progress (replace b with false by (symmetry; exact Hl))
           end; reflexivity].

Lemma needsFirst_extract : needsFirst (isChr BTICK) extractRegex.
Proof. first_char. Qed.

Lemma needsFirst_token : needsFirst (isChr USCORE) tokenRegex.
Proof. first_char. Qed.

Lemma needsFirst_onlyToken : needsFirst (isChr USCORE) onlyTokenRegex.
Proof.
  intros i l cs k Hl. destruct i; [|reflexivity].
  destruct l as [|x t]; simpl;
    [reflexivity
    | repeat match goal with
             | |- context [if ?b then _ else _] =>
                 progress (replace b with false by (symmetry; exact Hl))
             end; reflexivity].
Qed.

Lemma needsFirst_emphBoth k :
  1 <= k <= 3 -> needsFirst (isChr STAR) (emphBoth (repeat STAR k)).
Proof. intros Hk; destruct k as [|[|[|[|k]]]]; try lia; first_char. Qed.

Lemma needsFirst_emphLead k :
  1 <= k <= 3 -> needsFirst (isChr STAR) (emphLead (repeat STAR k)).
Proof. intros Hk; destruct k as [|[|[|[|k]]]]; try lia; first_char. Qed.

Lemma needsFirst_emphTrail k :
  1 <= k <= 3 -> needsFirst (isChr STAR) (emphTrail (repeat STAR k)).
Proof. intros Hk; destruct k as [|[|[|[|k]]]]; try lia; first_char. Qed.

Lemma without_skipn c l n : without c l = true -> without c (skipn n l) = true.
Proof.
  unfold without. revert n; induction l as [|x t IH]; intros n H.
  - destruct n; reflexivity.
  - destruct n as [|n]; [exact H|].
    cbn [skipn]. apply IH. simpl in H. apply andb_true_iff in H as [_ H]; exact H.
Qed.

Lemma without_head c l :
  without c l = true ->
  match l with [] => True | x :: _ => isChr c x = false end.
Proof.
  destruct l as [|x t]; [trivial|].
  unfold without; simpl. intros H. apply andb_true_iff in H as [H _].
  apply negb_true_iff; exact H.
Qed.

Lemma listRegex_without_star l :
  without STAR l = true -> test listRegex l = false.
Proof.
  intros H. unfold test.
  assert (Hm : forall n i, matchAt listRegex i (skipn n l) = None).
  { intros n i. unfold matchAt, listRegex. cbn [seqs rmatch pos rest caps].
    destruct i; [|reflexivity].
    rewrite star_fail; [reflexivity|].
    intros m i'. rewrite skipn_skipn.
    pose proof (without_head STAR _ (without_skipn STAR l (m + n) H)) as Hh.
    destruct (skipn (m + n) l) as [|x t]; cbn [rmatch RPlus rest];
      [reflexivity|].
    unfold isChr in Hh. rewrite Hh. reflexivity. }
  assert (Hs : forall l' i, (forall n j, matchAt listRegex j (skipn n l') = None) ->
                            search listRegex i l' = None).
  { induction l' as [|c t IH]; intros i Hn; cbn [search].
    - rewrite (Hn 0 i : matchAt listRegex i [] = None). reflexivity.
    - rewrite (Hn 0 i : matchAt listRegex i (c :: t) = None).
      apply IH. intros n j. apply (Hn (S n) j). }
  rewrite (Hs l 0 Hm). reflexivity.
Qed.

Lemma fixEmphasisSpaces_without_star l :
  without STAR l = true -> fixEmphasisSpaces l = l.
Proof.
  intros H. unfold fixEmphasisSpaces.
  change (js "***") with (repeat STAR 3).
  change (js "**") with (repeat STAR 2).
  change (js "*") with (repeat STAR 1).
  rewrite (needsFirst_replaceAll (isChr STAR) (emphBoth (repeat STAR 3)) tpl123 l)
    by (first [exact H | apply needsFirst_emphBoth; lia]).
  rewrite (needsFirst_replaceAll (isChr STAR) (emphLead (repeat STAR 3)) tpl123 l)
    by (first [exact H | apply needsFirst_emphLead; lia]).
  rewrite (needsFirst_replaceAll (isChr STAR) (emphTrail (repeat STAR 3)) tpl123 l)
    by (first [exact H | apply needsFirst_emphTrail; lia]).
  rewrite (needsFirst_replaceAll (isChr STAR) (emphBoth (repeat STAR 2)) tpl123 l)
    by (first [exact H | apply needsFirst_emphBoth; lia]).
  rewrite (needsFirst_replaceAll (isChr STAR) (emphLead (repeat STAR 2)) tpl123 l)
    by (first [exact H | apply needsFirst_emphLead; lia]).
  rewrite (needsFirst_replaceAll (isChr STAR) (emphTrail (repeat STAR 2)) tpl123 l)
    by (first [exact H | apply needsFirst_emphTrail; lia]).
  rewrite (listRegex_without_star l H).
  rewrite (needsFirst_replaceAll (isChr STAR) (emphBoth (repeat STAR 1)) tpl123 l)
    by (first [exact H | apply needsFirst_emphBoth; lia]).
  rewrite (needsFirst_replaceAll (isChr STAR) (emphLead (repeat STAR 1)) tpl123 l)
    by (first [exact H | apply needsFirst_emphLead; lia]).
  rewrite (needsFirst_replaceAll (isChr STAR) (emphTrail (repeat STAR 1)) tpl123 l)
    by (first [exact H | apply needsFirst_emphTrail; lia]).
  reflexivity.
Qed.

Lemma without_occurs c p1 p2 l :
  (isChr c p1 = true \/ isChr c p2 = true) ->
  without c l = true -> occurs [p1; p2] l = false.
Proof.
  intros Hp. unfold without. induction l as [|x t IH]; intros H; [reflexivity|].
  simpl in H. apply andb_true_iff in H as [Hx Ht].
  cbn [occurs]. rewrite (IH Ht), orb_false_r.
  apply negb_true_iff in Hx. unfold isChr in *.
  destruct t as [|y t']; cbn [isPrefix]; [apply andb_false_r|].
  simpl in Ht. apply andb_true_iff in Ht as [Hy _]. apply negb_true_iff in Hy.
  unfold isChr in Hy.
  destruct Hp as [Hp | Hp]; apply N.eqb_eq in Hp; subst.
  - rewrite (N.eqb_sym c x), Hx. reflexivity.
  - rewrite (N.eqb_sym c y), Hy. rewrite !andb_false_r. reflexivity.
Qed.

Lemma reorderMarkers_without_star l :
  without STAR l = true -> reorderMarkers l = l.
Proof.
  intros H. apply reorderMarkers_settled. unfold settled.
  rewrite (without_occurs STAR STAR LAQUO l), (without_occurs STAR RAQUO STAR l);
    try exact H; try reflexivity.
  - right; reflexivity.
  - left; reflexivity.
Qed.

End NoMatch.

(** ** Lines of a text *)

Section Lines.

Lemma without_app c a b :
  without c (a ++ b) = (without c a && without c b)%bool.
Proof. unfold without. apply forallb_app. Qed.

Lemma without_rev c a : without c (rev a) = without c a.
Proof.
  induction a as [|x a IH]; [reflexivity|].
  cbn [rev]. rewrite without_app, IH. unfold without; simpl.
  rewrite andb_true_r, andb_comm. reflexivity.
Qed.

Lemma without_dropWhile c p a :
  without c a = true -> without c (dropWhile p a) = true.
Proof.
  induction a as [|x a IH]; intros H; [reflexivity|].
  cbn [dropWhile]. destruct (p x); [|exact H].
  apply IH. unfold without in *; simpl in H.
  apply andb_true_iff in H as [_ H]; exact H.
Qed.

Lemma without_trim c a : without c a = true -> without c (trim a) = true.
Proof.
  intros H. unfold trim, trimEnd, trimStart.
  rewrite without_rev. apply without_dropWhile.
  rewrite without_rev. apply without_dropWhile. exact H.
Qed.

Lemma split_nonempty sep s : split sep s <> [].
Proof.
  induction s as [|c t IH]; cbn [split]; [discriminate|].
  destruct (N.eqb c sep); [discriminate|].
  destruct (split sep t); discriminate.
Qed.

Lemma split_without sep c s :
  without c s = true ->
  Forall (fun l => without c l = true) (split sep s).
Proof.
  induction s as [|x t IH]; intros H; cbn [split].
  - constructor; [reflexivity | constructor].
  - unfold without in H; simpl in H. apply andb_true_iff in H as [Hx Ht].
    specialize (IH Ht).
    destruct (N.eqb x sep).
    + constructor; [reflexivity | exact IH].
    + destruct (split sep t) as [|h r].
      * constructor; [|constructor]. unfold without; simpl. rewrite Hx; reflexivity.
      * inversion IH; subst. constructor; [|assumption].
        unfold without in *; simpl. rewrite Hx; assumption.
Qed.


Lemma split_line sep l :
  without sep l = true -> split sep l = [l].
Proof.
  induction l as [|x t IH]; intros H; [reflexivity|].
  unfold without, isChr in H; simpl in H. apply andb_true_iff in H as [Hx Ht].
  apply negb_true_iff in Hx. cbn [split]. rewrite Hx, (IH Ht). reflexivity.
Qed.



Lemma join_without c sep ls :
  isChr c sep = false ->
  Forall (fun l => without c l = true) ls ->
  without c (join [sep] ls) = true.
Proof.
  intros Hs. induction ls as [|l [|l2 r] IH]; intros H; [reflexivity| |].
  - inversion H; subst. assumption.
  - inversion H; subst.
    change (join [sep] (l :: l2 :: r)) with (l ++ [sep] ++ join [sep] (l2 :: r)).
    rewrite !without_app. rewrite IH by assumption.
    unfold without at 2; simpl. rewrite Hs. simpl.
    rewrite andb_true_r. assumption.
Qed.

End Lines.

(** ** The quote scan on its own output *)

Section QuoteIdempotence.

Lemma without_In c l x : without c l = true -> In x l -> isChr c x = false.
Proof.
  unfold without. intros H Hx. rewrite forallb_forall in H.
  apply negb_true_iff. apply H; exact Hx.
Qed.

Lemma without_snoc c l x :
  without c l = true -> isChr c x = false -> without c (l ++ [x]) = true.
Proof.
  intros Hl Hx. rewrite without_app, Hl. unfold without; simpl.
  rewrite Hx; reflexivity.
Qed.

Lemma quoteStep_without c line st acc j :
  j < length line ->
  isChr c LAQUO = false -> isChr c RAQUO = false ->
  without c line = true -> without c acc = true ->
  without c (snd (quoteStep line (st, acc) j)) = true.
Proof.
  intros Hj HL HR Hline Hacc.
  assert (Hc : isChr c (nth j line SP) = false)
    by (apply (without_In c line); [exact Hline | apply nth_In; exact Hj]).
  rewrite quoteStep_eq; cbv zeta.
  repeat match goal with
         | |- context [if ?b then _ else _] => destruct b
         end; cbn [snd]; apply without_snoc; assumption.
Qed.

Lemma quoteFold_without c line n : forall a st acc,
  a + n <= length line ->
  isChr c LAQUO = false -> isChr c RAQUO = false ->
  without c line = true -> without c acc = true ->
  without c (snd (fold_left (quoteStep line) (seq a n) (st, acc))) = true.
Proof.
  induction n as [|n IH]; intros a st acc Hn HL HR Hline Hacc;
    cbn [seq fold_left]; [exact Hacc|].
  pose proof (quoteStep_without c line st acc a ltac:(lia) HL HR Hline Hacc) as H1.
  destruct (quoteStep line (st, acc) a) as [st1 acc1]; cbn [snd] in H1.
  apply IH; try assumption; lia.
Qed.

Lemma quoteLoop_without c line st :
  isChr c LAQUO = false -> isChr c RAQUO = false ->
  without c line = true ->
  without c (snd (quoteLoop line st)) = true.
Proof.
  intros HL HR H. unfold quoteLoop.
  apply quoteFold_without; try assumption; [simpl; lia | reflexivity].
Qed.

(** What the scan emits at [j], by the character it reads there. *)
Lemma quoteLoop_nth line st j :
  j < length line ->
  nth j (snd (quoteLoop line st)) SP =
  let c := nth j line SP in
  if N.eqb c LAQUO then c
  else if N.eqb c RAQUO then c
  else if (N.eqb c APOS || N.eqb c DQUOTE)%bool then
    if internalQuote line j then c
    else if dialogueAt line st j then RAQUO else LAQUO
  else c.
Proof.
  intros Hj.
  destruct (nth_error line j) as [c|] eqn:Hc;
    [|apply nth_error_None in Hc; lia].
  destruct (quoteLoop_at line st j c Hc) as [Ho _].
  rewrite (nth_error_nth _ _ SP Ho).
  rewrite quoteStep_eq; cbv zeta.
  repeat match goal with
         | |- context [if ?b then _ else _] => destruct b
         end; reflexivity.
Qed.

Lemma quoteLoop_alnum line st i :
  alnumClass (nth i (snd (quoteLoop line st)) SP) = alnumClass (nth i line SP).
Proof.
  destruct (Nat.lt_ge_cases i (length line)) as [Hi | Hi].
  - rewrite (quoteLoop_nth line st i Hi); cbv zeta.
    destruct (N.eqb (nth i line SP) LAQUO); [reflexivity|].
    destruct (N.eqb (nth i line SP) RAQUO); [reflexivity|].
    destruct (N.eqb (nth i line SP) APOS) eqn:EA;
      [apply N.eqb_eq in EA; rewrite EA; cbn [orb];
       destruct (internalQuote line i), (dialogueAt line st i); reflexivity|].
    destruct (N.eqb (nth i line SP) DQUOTE) eqn:ED;
      [apply N.eqb_eq in ED; rewrite ED; cbn [orb];
       destruct (internalQuote line i), (dialogueAt line st i); reflexivity|].
    reflexivity.
  - rewrite !nth_overflow; [reflexivity | exact Hi |].
    rewrite quoteLoop_length; exact Hi.
Qed.

Lemma quoteLoop_internal line st j :
  internalQuote (snd (quoteLoop line st)) j = internalQuote line j.
Proof.
  unfold internalQuote, prevChar, nextChar.
  rewrite quoteLoop_alnum. destruct j; [reflexivity|].
  rewrite quoteLoop_alnum. reflexivity.
Qed.

Lemma quoteFold_idem line st j :
  j <= length line ->
  fold_left (quoteStep (snd (quoteLoop line st))) (seq 0 j) (st, [])
  = fold_left (quoteStep line) (seq 0 j) (st, []).
Proof.
  induction j as [|j IH]; intros Hj; [reflexivity|].
  rewrite !quoteFold_S, IH by lia.
  pose proof (quoteLoop_nth line st j ltac:(lia)) as Hn.
  unfold dialogueAt in Hn.
  destruct (fold_left (quoteStep line) (seq 0 j) (st, [])) as [sj acc].
  cbn [fst] in Hn; cbv zeta in Hn.
  rewrite !quoteStep_eq; cbv zeta.
  rewrite quoteLoop_internal, Hn. clear Hn.
  destruct (N.eqb (nth j line SP) LAQUO) eqn:EL; [rewrite EL; reflexivity|].
  destruct (N.eqb (nth j line SP) RAQUO) eqn:ER; [rewrite EL, ER; reflexivity|].
  destruct (N.eqb (nth j line SP) APOS || N.eqb (nth j line SP) DQUOTE)%bool eqn:EQ.
  - destruct (internalQuote line j).
    + rewrite EL, ER, EQ; reflexivity.
    + destruct sj; reflexivity.
  - rewrite EL, ER, EQ; reflexivity.
Qed.

Lemma quoteLoop_idem line st :
  quoteLoop (snd (quoteLoop line st)) st = quoteLoop line st.
Proof.
  unfold quoteLoop at 1. rewrite quoteLoop_length.
  apply quoteFold_idem; lia.
Qed.


End QuoteIdempotence.

(** ** The pipeline on plain prose *)

Section PlainProse.

Lemma processLine_plain line st :
  without STAR line = true -> without USCORE line = true ->
  processLine line st = (snd (quoteLoop line st), fst (quoteLoop line st)).
Proof.
  intros Hs Hu. unfold processLine, test.
  rewrite (needsFirst_search (isChr USCORE) onlyTokenRegex (trim line) 0
             needsFirst_onlyToken (without_trim USCORE line Hu)).
  rewrite (fixEmphasisSpaces_without_star line Hs).
  pose proof (quoteLoop_without STAR line st eq_refl eq_refl Hs) as Ho.
  destruct (quoteLoop line st) as [st1 o]; cbn [fst snd] in *.
  rewrite (reorderMarkers_without_star o Ho). reflexivity.
Qed.

Lemma processLines_plain ls : forall st,
  Forall (fun l => without STAR l = true) ls ->
  Forall (fun l => without USCORE l = true) ls ->
  processLines ls st = quoteLines ls st.
Proof.
  induction ls as [|l ls IH]; intros st Hs Hu; [reflexivity|].
  inversion Hs; subst. inversion Hu; subst.
  cbn [processLines quoteLines].
  rewrite processLine_plain by assumption.
  destruct (quoteLoop l st) as [st1 o]; cbn [fst snd].
  rewrite IH by assumption. reflexivity.
Qed.

Lemma quoteLines_without c ls : forall st,
  isChr c LAQUO = false -> isChr c RAQUO = false ->
  Forall (fun l => without c l = true) ls ->
  Forall (fun l => without c l = true) (fst (quoteLines ls st)).
Proof.
  induction ls as [|l ls IH]; intros st HL HR H; [constructor|].
  inversion H; subst. cbn [quoteLines].
  pose proof (quoteLoop_without c l st HL HR ltac:(assumption)) as Ho.
  destruct (quoteLoop l st) as [st1 o]; cbn [snd] in Ho.
  specialize (IH st1 HL HR ltac:(assumption)).
  destruct (quoteLines ls st1) as [os st2]; cbn [fst] in *.
  constructor; assumption.
Qed.


Lemma plainText_parts x :
  plainText x = true ->
  without STAR x = true /\ without BTICK x = true /\ without USCORE x = true.
Proof.
  unfold plainText. rewrite !andb_true_iff. tauto.
Qed.

(** On plain prose the pipeline is the quote scan of the lines. *)
Lemma process_plain x :
  plainText x = true ->
  process x =
  match x with
  | [] => []
  | _ :: _ => join [LF] (fst (quoteLines (split LF x) false))
  end.
Proof.
  intros H. destruct (plainText_parts x H) as (Hs & Hb & Hu).
  destruct x as [|c t]; [reflexivity|].
  unfold process.
  rewrite (needsFirst_replaceAllWith (list (list N)) (isChr BTICK) extractRegex
             extractCallback (c :: t) [] needsFirst_extract Hb).
  rewrite (processLines_plain (split LF (c :: t)) false
             (split_without LF STAR _ Hs) (split_without LF USCORE _ Hu)).
  pose proof (quoteLines_without USCORE (split LF (c :: t)) false eq_refl eq_refl
                (split_without LF USCORE _ Hu)) as Ho.
  destruct (quoteLines (split LF (c :: t)) false) as [os st]; cbn [fst] in *.
  rewrite (needsFirst_replaceAllWith unit (isChr USCORE) tokenRegex
             (restoreCallback []) (join [LF] os) tt needsFirst_token
             (join_without USCORE LF os eq_refl Ho)).
  reflexivity.
Qed.


End PlainProse.

Section Idempotence.




End Idempotence.

(** ** Patterns without anchor *)

Section Shift.

Lemma star_ext g p l : forall i cs k1 k2,
  (forall s, k1 s = k2 s) -> star g p i l cs k1 = star g p i l cs k2.
Proof.
  induction l as [|c t IH]; intros i cs k1 k2 H; cbn [star].
  - apply H.
  - rewrite (IH (S i) cs k1 k2 H), (H (MState i (c :: t) cs)). reflexivity.
Qed.

Lemma rmatch_ext r : forall s k1 k2,
  (forall s', k1 s' = k2 s') -> rmatch r s k1 = rmatch r s k2.
Proof.
  induction r as [c|p| | | |r1 IH1 r2 IH2|r1 IH1 r2 IH2|g p|n r IH];
    intros s k1 k2 H; cbn [rmatch].
  - destruct (rest s) as [|x t]; [reflexivity|]. rewrite H; reflexivity.
  - destruct (rest s) as [|x t]; [reflexivity|]. rewrite H; reflexivity.
  - destruct (pos s); [apply H | reflexivity].
  - destruct (rest s); [apply H | reflexivity].
  - apply H.
  - apply IH1. intros s'. apply IH2. exact H.
  - rewrite (IH1 s k1 k2 H), (IH2 s k1 k2 H). reflexivity.
  - apply star_ext; exact H.
  - apply IH. intros s'. apply H.
Qed.

Lemma star_shift g p d l : forall i cs k,
  star g p (d + i) l cs k = star g p i l cs (fun s => k (shiftState d s)).
Proof.
  induction l as [|c t IH]; intros i cs k; cbn [star]; [reflexivity|].
  rewrite <- Nat.add_succ_r, IH. reflexivity.
Qed.

Lemma rmatch_shift d r : noBol r = true -> forall s k,
  rmatch r (shiftState d s) k = rmatch r s (fun s' => k (shiftState d s')).
Proof.
  induction r as [c|p| | | |r1 IH1 r2 IH2|r1 IH1 r2 IH2|g p|n r IH];
    intros Hb [i l cs] k; cbn [noBol] in Hb; try discriminate;
    unfold shiftState; cbn [rmatch pos rest caps].
  - destruct l as [|x t]; [reflexivity|].
    rewrite <- Nat.add_succ_r. reflexivity.
  - destruct l as [|x t]; [reflexivity|].
    rewrite <- Nat.add_succ_r. reflexivity.
  - reflexivity.
  - reflexivity.
  - apply andb_true_iff in Hb as [H1 H2].
    pose proof (IH1 H1 (MState i l cs) (fun s' => rmatch r2 s' k)) as E1.
    unfold shiftState in E1 at 1; cbn [pos rest caps] in E1. rewrite E1.
    apply rmatch_ext. intros s'. apply (IH2 H2 s').
  - apply andb_true_iff in Hb as [H1 H2].
    pose proof (IH1 H1 (MState i l cs) k) as E1.
    pose proof (IH2 H2 (MState i l cs) k) as E2.
    unfold shiftState in E1, E2; cbn [pos rest caps] in E1, E2.
    rewrite E1, E2. reflexivity.
  - apply star_shift.
  - pose proof (IH Hb (MState i l cs)) as E.
    unfold shiftState in E; cbn [pos rest caps] in E.
    rewrite E. apply rmatch_ext. intros s'.
    cbn [pos rest caps]. f_equal. f_equal. f_equal. f_equal. f_equal. lia.
Qed.

Lemma star_map (f : mstate -> mstate) g p l : forall i cs k1 k2,
  (forall s, k1 s = option_map f (k2 s)) ->
  star g p i l cs k1 = option_map f (star g p i l cs k2).
Proof.
  induction l as [|c t IH]; intros i cs k1 k2 H; cbn [star].
  - apply H.
  - rewrite (IH (S i) cs k1 k2 H), (H (MState i (c :: t) cs)).
    destruct (p c); [|reflexivity].
    destruct g.
    + destruct (star true p (S i) t cs k2); reflexivity.
    + destruct (k2 (MState i (c :: t) cs)); reflexivity.
Qed.

Lemma rmatch_map (f : mstate -> mstate) r : forall s k1 k2,
  (forall s', k1 s' = option_map f (k2 s')) ->
  rmatch r s k1 = option_map f (rmatch r s k2).
Proof.
  induction r as [c|p| | | |r1 IH1 r2 IH2|r1 IH1 r2 IH2|g p|n r IH];
    intros s k1 k2 H; cbn [rmatch].
  - destruct (rest s) as [|x t]; [reflexivity|].
    destruct (N.eqb x c); [apply H | reflexivity].
  - destruct (rest s) as [|x t]; [reflexivity|].
    destruct (p x); [apply H | reflexivity].
  - destruct (pos s); [apply H | reflexivity].
  - destruct (rest s); [apply H | reflexivity].
  - apply H.
  - apply IH1. intros s'. apply IH2. exact H.
  - rewrite (IH1 s k1 k2 H), (IH2 s k1 k2 H).
    destruct (rmatch r1 s k2); reflexivity.
  - apply star_map; exact H.
  - apply IH. intros s'. apply H.
Qed.

Lemma matchAt_shift d r i l :
  noBol r = true ->
  matchAt r (d + i) l = option_map (shiftMatch d) (matchAt r i l).
Proof.
  intros Hb. unfold matchAt.
  pose proof (rmatch_shift d r Hb (MState i l []) Some) as E.
  unfold shiftState in E at 1; cbn [pos rest caps] in E. rewrite E.
  rewrite (rmatch_map (shiftState d) r (MState i l [])
             (fun s' => Some (shiftState d s')) Some (fun s' => eq_refl)).
  destruct (rmatch r (MState i l []) Some) as [e|] eqn:Em; [|reflexivity].
  cbn [option_map]. unfold shiftMatch, shiftState; cbn [pos rest caps index matched groups lastIndex].
  f_equal. f_equal. f_equal. lia.
Qed.

End Shift.

Section ShiftReplace.

Variable A : Type.
Variable r : regex.
Variable f : A -> rmatch_result -> jsstring * A.
Variable d : nat.
Hypothesis r_noBol : noBol r = true.
Hypothesis f_shift : forall a m, f a (shiftMatch d m) = f a m.

Lemma replaceLoop_shift l : forall skip i a,
  replaceLoop r f (d + i) l skip a = replaceLoop r f i l skip a.
Proof.
  induction l as [|c t IH]; intros skip i a.
  - destruct skip as [|n]; cbn [replaceLoop]; [|reflexivity].
    rewrite (matchAt_shift d r i [] r_noBol).
    destruct (matchAt r i []) as [m|]; cbn [option_map]; [|reflexivity].
    rewrite f_shift. reflexivity.
  - destruct skip as [|n]; cbn [replaceLoop].
    + rewrite (matchAt_shift d r i (c :: t) r_noBol).
      destruct (matchAt r i (c :: t)) as [m|]; cbn [option_map].
      * rewrite f_shift. destruct (f a m) as [out a1].
        unfold shiftMatch; cbn [lastIndex].
        replace (d + lastIndex m - (d + i)) with (lastIndex m - i) by lia.
        rewrite <- !Nat.add_succ_r.
        destruct (lastIndex m - i); rewrite IH; reflexivity.
      * rewrite <- Nat.add_succ_r, IH. reflexivity.
    + rewrite <- Nat.add_succ_r, IH. reflexivity.
Qed.

End ShiftReplace.

(** ** Literals and greedy runs *)

Section Runs.

Lemma rmatch_RLit s : forall l i cs k,
  rmatch (RLit s) (MState i (s ++ l) cs) k = k (MState (length s + i) l cs).
Proof.
  induction s as [|c [|c2 t] IH]; intros l i cs k.
  - reflexivity.
  - cbn [RLit rmatch rest app pos caps length Nat.add]. rewrite N.eqb_refl. reflexivity.
  - change (RLit (c :: c2 :: t)) with (RSeq (RChr c) (RLit (c2 :: t))).
    cbn [rmatch rest app pos caps]. rewrite N.eqb_refl.
    change (c2 :: t ++ l) with ((c2 :: t) ++ l). rewrite IH.
    cbn [length]. rewrite Nat.add_succ_r. reflexivity.
Qed.

Lemma rmatch_RLit_miss s : forall l i cs k,
  isPrefix s l = false -> rmatch (RLit s) (MState i l cs) k = None.
Proof.
  induction s as [|c [|c2 t] IH]; intros l i cs k H.
  - discriminate.
  - cbn [RLit rmatch rest]. destruct l as [|x l']; [reflexivity|].
    cbn [isPrefix] in H. rewrite andb_true_r in H.
    rewrite N.eqb_sym, H. reflexivity.
  - change (RLit (c :: c2 :: t)) with (RSeq (RChr c) (RLit (c2 :: t))).
    cbn [rmatch rest pos caps]. destruct l as [|x l']; [reflexivity|].
    change (isPrefix (c :: c2 :: t) (x :: l'))
      with (N.eqb c x && isPrefix (c2 :: t) l')%bool in H.
    rewrite (N.eqb_sym x c). destruct (N.eqb c x); [|reflexivity].
    apply IH. exact H.
Qed.

(** A greedy repetition runs to the end of the run when the continuation
    accepts there. *)
Lemma star_greedy_all p ds : forall i l cs k e,
  forallb p ds = true ->
  match l with [] => True | x :: _ => p x = false end ->
  k (MState (length ds + i) l cs) = Some e ->
  star true p i (ds ++ l) cs k = Some e.
Proof.
  induction ds as [|c ds IH]; intros i l cs k e Hp Hl Hk.
  - cbn [app length Nat.add] in *.
    destruct l as [|x t]; cbn [star]; [exact Hk|].
    rewrite Hl. exact Hk.
  - cbn [forallb] in Hp. apply andb_true_iff in Hp as [Hc Hds].
    cbn [app star]. rewrite Hc.
    rewrite (IH (S i) l cs k e Hds Hl); [reflexivity|].
    rewrite Nat.add_succ_r. exact Hk.
Qed.

End Runs.

(** ** The restoration pass *)

Section Restoration.

Lemma token_match i d post :
  d <> [] -> forallb isDigit d = true ->
  exists m, matchAt tokenRegex i (tokenText d ++ post) = Some m
            /\ lastIndex m = length (tokenText d) + i
            /\ group 1 (groups m) = d.
Proof.
  intros Hne Hd. destruct d as [|d0 ds]; [congruence|].
  cbn [forallb] in Hd. apply andb_true_iff in Hd as [Hd0 Hds].
  unfold matchAt, tokenRegex, tokenText. cbn [seqs].
  rewrite <- !app_assoc.
  cbn [rmatch]. rewrite rmatch_RLit.
  cbn [RPlus rmatch rest pos caps app]. rewrite Hd0.
  erewrite (star_greedy_all isDigit ds); [| exact Hds | reflexivity |].
  2:{ cbn [pos rest caps]. rewrite rmatch_RLit. reflexivity. }
  eexists; split; [reflexivity|]. cbn [lastIndex groups pos group Nat.eqb].
  split.
  - rewrite ?length_app; cbn [length]; rewrite ?length_app; simpl; lia.
  - replace (length ds + S (length (js "__CODE_BLOCK_") + i)
             - (length (js "__CODE_BLOCK_") + i)) with (S (length ds)) by lia.
    cbn [firstn]. rewrite firstn_app, firstn_all, Nat.sub_diag.
    cbn [firstn]. rewrite app_nil_r. reflexivity.
Qed.

Lemma restoreCallback_shift phs d a m :
  restoreCallback phs a (shiftMatch d m) = restoreCallback phs a m.
Proof. reflexivity. Qed.

(** The leftmost token of a text is replaced by the fragment of its index,
    or by the text [undefined] when there is no such fragment, and the rest
    of the text is restored in the same way. *)
Lemma restoreTokens_token phs pre d post :
  without USCORE pre = true ->
  d <> [] -> forallb isDigit d = true ->
  restoreTokens phs (pre ++ tokenText d ++ post) =
  pre ++ match nth_error phs (N.to_nat (parseInt d)) with
         | Some fragment => fragment
         | None => js "undefined"
         end ++ restoreTokens phs post.
Proof.
  intros Hpre Hne Hd. unfold restoreTokens, replaceAllWith.
  rewrite replaceLoop_copy.
  2:{ intros n j Hn. apply (needsFirst_matchAt (isChr USCORE));
        [exact needsFirst_token|].
      rewrite skipn_app.
      replace (n - length pre) with 0 by lia. cbn [skipn].
      pose proof (without_head USCORE _ (without_skipn USCORE pre n Hpre)) as Hh.
      destruct (skipn n pre) as [|x t] eqn:E; [|exact Hh].
      apply (f_equal (@length _)) in E. rewrite length_skipn in E.
      simpl in E. lia. }
  cbn [fst]. f_equal.
  destruct (token_match (length pre + 0) d post Hne Hd) as (m & Hm & Hl & Hg).
  assert (Hlen : length (tokenText d) = S (length d + 14))
    by (unfold tokenText; rewrite !length_app; simpl; lia).
  rewrite (replaceLoop_hit unit tokenRegex (restoreCallback phs)
             (length pre + 0) (tokenText d ++ post) tt m (length d + 14) Hm)
    by (rewrite ?Hl, ?length_app; lia).
  cbn [fst]. unfold restoreCallback at 1. cbn [fst]. rewrite Hg.
  f_equal.
  rewrite <- Hlen, skipn_app, skipn_all, Nat.sub_diag. cbn [skipn app].
  pose proof (replaceLoop_shift unit tokenRegex (restoreCallback phs)
                (length (tokenText d) + (length pre + 0)) eq_refl
                (fun a m0 => eq_refl) post 0 0 tt) as E.
  rewrite Nat.add_0_r in E.
  exact (f_equal fst E).
Qed.

End Restoration.

(** ** Inert text *)

Section Inert.

Lemma skipn_nth (l : jsstring) : forall a,
  a < length l -> skipn a l = nth a l SP :: skipn (S a) l.
Proof.
  induction l as [|x t IH]; intros a Ha; [simpl in Ha; lia|].
  destruct a as [|a]; [reflexivity|].
  cbn [skipn nth]. rewrite IH by (simpl in Ha; lia). reflexivity.
Qed.

Lemma quoteFold_inert line st n : forall a acc,
  without APOS line = true -> without DQUOTE line = true ->
  without LAQUO line = true -> without RAQUO line = true ->
  a + n <= length line ->
  fold_left (quoteStep line) (seq a n) (st, acc)
  = (st, acc ++ firstn n (skipn a line)).
Proof.
  intros a acc HA HD HL HR. revert a acc.
  induction n as [|n IH]; intros a acc Hn; cbn [seq fold_left firstn].
  - rewrite app_nil_r; reflexivity.
  - assert (Hin : In (nth a line SP) line) by (apply nth_In; lia).
    rewrite quoteStep_eq; cbv zeta.
    pose proof (without_In LAQUO line _ HL Hin) as E1.
    pose proof (without_In RAQUO line _ HR Hin) as E2.
    pose proof (without_In APOS line _ HA Hin) as E3.
    pose proof (without_In DQUOTE line _ HD Hin) as E4.
    unfold isChr in E1, E2, E3, E4. rewrite E1, E2, E3, E4. cbn [orb].
    rewrite IH by lia.
    rewrite (skipn_nth line a) by lia. cbn [firstn].
    rewrite <- app_assoc. reflexivity.
Qed.

Lemma quoteLoop_inert line st :
  without APOS line = true -> without DQUOTE line = true ->
  without LAQUO line = true -> without RAQUO line = true ->
  quoteLoop line st = (st, line).
Proof.
  intros HA HD HL HR. unfold quoteLoop.
  rewrite quoteFold_inert by (assumption || simpl; lia).
  cbn [skipn app]. rewrite firstn_all. reflexivity.
Qed.

Lemma inertText_parts s :
  inertText s = true ->
  without STAR s = true /\ without BTICK s = true /\ without APOS s = true
  /\ without DQUOTE s = true /\ without LAQUO s = true /\ without RAQUO s = true.
Proof. unfold inertText. rewrite !andb_true_iff. tauto. Qed.

Lemma processLine_inert line st :
  without STAR line = true ->
  without APOS line = true -> without DQUOTE line = true ->
  without LAQUO line = true -> without RAQUO line = true ->
  processLine line st = (line, st).
Proof.
  intros HS HA HD HL HR. unfold processLine.
  destruct (test onlyTokenRegex (trim line)); [reflexivity|].
  rewrite (fixEmphasisSpaces_without_star line HS).
  rewrite (quoteLoop_inert line st HA HD HL HR).
  rewrite (reorderMarkers_without_star line HS). reflexivity.
Qed.

Lemma processLines_inert ls : forall st,
  Forall (fun l => without STAR l = true) ls ->
  Forall (fun l => without APOS l = true) ls ->
  Forall (fun l => without DQUOTE l = true) ls ->
  Forall (fun l => without LAQUO l = true) ls ->
  Forall (fun l => without RAQUO l = true) ls ->
  processLines ls st = (ls, st).
Proof.
  induction ls as [|l ls IH]; intros st HS HA HD HL HR; [reflexivity|].
  inversion HS; inversion HA; inversion HD; inversion HL; inversion HR; subst.
  cbn [processLines]. rewrite processLine_inert by assumption.
  rewrite IH by assumption. reflexivity.
Qed.

Lemma join_split sep s : join [sep] (split sep s) = s.
Proof.
  induction s as [|c t IH]; [reflexivity|].
  cbn [split]. pose proof (split_nonempty sep t) as Hne.
  destruct (N.eqb c sep) eqn:E.
  - apply N.eqb_eq in E; subst c.
    destruct (split sep t) as [|h r]; [congruence|].
    change (join [sep] ([] :: h :: r)) with ([] ++ [sep] ++ join [sep] (h :: r)).
    rewrite IH. reflexivity.
  - destruct (split sep t) as [|h r]; [congruence|].
    destruct r as [|h2 r].
    + cbn [join] in *. rewrite IH. reflexivity.
    + change (join [sep] ((c :: h) :: h2 :: r))
        with (c :: (h ++ [sep] ++ join [sep] (h2 :: r))).
      change (join [sep] (h :: h2 :: r))
        with (h ++ [sep] ++ join [sep] (h2 :: r)) in IH.
      rewrite IH. reflexivity.
Qed.


Lemma digits_without c d :
  (c <? 48)%N = true \/ (57 <? c)%N = true ->
  forallb isDigit d = true -> without c d = true.
Proof.
  intros Hc. unfold without. induction d as [|x d IH]; intros H; [reflexivity|].
  cbn [forallb] in *. apply andb_true_iff in H as [Hx Hd].
  rewrite (IH Hd), andb_true_r. apply negb_true_iff. unfold isChr.
  unfold isDigit, between in Hx. apply andb_true_iff in Hx as [H1 H2].
  apply N.leb_le in H1, H2. apply N.eqb_neq.
  destruct Hc as [Hc | Hc]; apply N.ltb_lt in Hc; lia.
Qed.

Lemma tokenText_inert d :
  forallb isDigit d = true -> inertText (tokenText d) = true.
Proof.
  intros H. unfold inertText, tokenText.
  rewrite !without_app.
  rewrite !(digits_without _ d) by (exact H || (left; reflexivity) || (right; reflexivity)).
  reflexivity.
Qed.


End Inert.

Section PlaceholderCollision.



End PlaceholderCollision.

(** ** Leftmost search and greedy repetition *)

Section Search.

Lemma search_spec r l : forall i m,
  search r i l = Some m ->
  exists n, n <= length l
    /\ matchAt r (n + i) (skipn n l) = Some m
    /\ forall n', n' < n -> matchAt r (n' + i) (skipn n' l) = None.
Proof.
  induction l as [|c t IH]; intros i m H; cbn [search] in H.
  - destruct (matchAt r i []) eqn:E; [|discriminate].
    injection H as <-. exists 0; repeat split; [simpl; lia | exact E | lia].
  - destruct (matchAt r i (c :: t)) eqn:E.
    + injection H as <-. exists 0; repeat split; [simpl; lia | exact E | lia].
    + destruct (IH (S i) m H) as (n & Hn & Hm & Hlt).
      exists (S n). repeat split.
      * simpl; lia.
      * cbn [skipn]. replace (S n + i) with (n + S i) by lia. exact Hm.
      * intros [|n'] Hn'; [exact E|].
        cbn [skipn]. replace (S n' + i) with (n' + S i) by lia. apply Hlt; lia.
Qed.

Lemma search_none r l : forall i,
  search r i l = None ->
  forall n, n <= length l -> matchAt r (n + i) (skipn n l) = None.
Proof.
  induction l as [|c t IH]; intros i H n Hn; cbn [search] in H.
  - destruct (matchAt r i []) eqn:E; [discriminate|].
    simpl in Hn. replace n with 0 by lia. exact E.
  - destruct (matchAt r i (c :: t)) eqn:E; [discriminate|].
    destruct n as [|n]; [exact E|].
    cbn [skipn]. replace (S n + i) with (n + S i) by lia.
    apply IH; [exact H | simpl in Hn; lia].
Qed.

Lemma takeWhile_dropWhile p l : takeWhile p l ++ dropWhile p l = l.
Proof.
  induction l as [|c t IH]; [reflexivity|].
  cbn [takeWhile dropWhile]. destruct (p c); [|reflexivity].
  cbn [app]. rewrite IH. reflexivity.
Qed.

Lemma takeWhile_all p l : forallb p (takeWhile p l) = true.
Proof.
  induction l as [|c t IH]; [reflexivity|].
  cbn [takeWhile]. destruct (p c) eqn:E; [|reflexivity].
  cbn [forallb]. rewrite E, IH. reflexivity.
Qed.

Lemma dropWhile_head p l :
  match dropWhile p l with [] => True | x :: _ => p x = false end.
Proof.
  induction l as [|c t IH]; [exact I|].
  cbn [dropWhile]. destruct (p c) eqn:E; [exact IH | exact E].
Qed.

(** A greedy repetition whose continuation never refuses takes the whole
    run. *)
Lemma star_greedy_total p k l : forall i cs,
  (forall s, k s <> None) ->
  star true p i l cs k
  = k (MState (length (takeWhile p l) + i) (dropWhile p l) cs).
Proof.
  intros i cs Hk. revert i.
  induction l as [|c t IH]; intros i; cbn [star takeWhile dropWhile].
  - reflexivity.
  - destruct (p c); [|reflexivity].
    rewrite IH. cbn [length]. rewrite Nat.add_succ_r. cbn [Nat.add].
    destruct (k (MState (S (length (takeWhile p t) + i)) (dropWhile p t) cs)) eqn:E;
      [reflexivity | exfalso; exact (Hk _ E)].
Qed.

End Search.

(** ** The heading pattern *)

Section Heading.

Lemma matches_star_inv g p s s1 :
  matches (RStar g p) s s1 ->
  exists ws, rest s = ws ++ rest s1 /\ forallb p ws = true
             /\ pos s1 = length ws + pos s /\ caps s1 = caps s.
Proof.
  intros H. remember (RStar g p) as r eqn:Er.
  induction H; try discriminate.
  - exists []. repeat split.
  - injection Er as -> ->.
    destruct (IHmatches eq_refl) as (ws & Hr & Hp & Hpos & Hc).
    exists (x :: ws). cbn [rest pos caps forallb length app] in *.
    rewrite Hr, Hp, Hpos, Hc, H. repeat split. lia.
Qed.

Lemma matches_star_intro g p ws : forall i l cs,
  forallb p ws = true ->
  matches (RStar g p) (MState i (ws ++ l) cs) (MState (length ws + i) l cs).
Proof.
  induction ws as [|x ws IH]; intros i l cs H.
  - apply M_Star0.
  - cbn [forallb] in H. apply andb_true_iff in H as [Hx Hws].
    cbn [app length]. apply M_StarS; [exact Hx|].
    replace (S (length ws) + i) with (length ws + S i) by lia.
    apply IH; exact Hws.
Qed.

Ltac inv_matches :=
  repeat match goal with
         | H : matches (RSeq _ _) _ _ |- _ => inversion H; subst; clear H
         | H : matches (RAlt _ _) _ _ |- _ => inversion H; subst; clear H
         | H : matches (RChr _) _ _ |- _ => inversion H; subst; clear H
         | H : matches (RSet _) _ _ |- _ => inversion H; subst; clear H
         | H : matches (RGrp _ _) _ _ |- _ => inversion H; subst; clear H
         | H : matches RBol _ _ |- _ => inversion H; subst; clear H
         end.

(** The part of the pattern before the title: the anchor, the hashes and
    the whitespace. *)
Let headPart : regex :=
  RSeq (RAlt RBol (RChr LF)) (RSeq (RLit (js "####")) (RPlus true isSpace)).
Let titlePart : regex := RGrp 1 (RPlus true isDot).

Lemma heading_split s k :
  rmatch headingRegex s k = rmatch headPart s (fun s3 => rmatch titlePart s3 k).
Proof. reflexivity. Qed.

Lemma headPart_inv i l s3 :
  matches headPart (MState i l []) s3 ->
  exists lead ws,
    l = lead ++ js "####" ++ ws ++ rest s3
    /\ (lead = [LF] \/ (lead = [] /\ i = 0))
    /\ ws <> [] /\ forallb isSpace ws = true
    /\ pos s3 = length (lead ++ js "####" ++ ws) + i /\ caps s3 = [].
Proof.
  unfold headPart, RPlus. change (js "####") with [HASH; HASH; HASH; HASH].
  cbn [RLit]. intros H. inv_matches;
    match goal with
    | Hs : matches (RStar _ _) _ _ |- _ =>
        destruct (matches_star_inv _ _ _ _ Hs) as (ws & Hr & Hp & Hpos & Hc);
        cbn [rest pos caps] in Hr, Hpos, Hc
    end.
  - exists [], (x :: ws). subst. cbn [app forallb].
    match goal with Hx : isSpace x = true |- _ => rewrite Hx end.
    repeat split; try (right; split; reflexivity); try discriminate;
      try assumption.
    rewrite Hpos. rewrite ?length_app. simpl. lia.
  - exists [LF], (x :: ws). subst. cbn [app forallb].
    match goal with Hx : isSpace x = true |- _ => rewrite Hx end.
    repeat split; try (left; reflexivity); try discriminate; try assumption.
    rewrite Hpos. rewrite ?length_app. simpl. lia.
Qed.

Lemma headPart_intro i lead ws l :
  (lead = [LF] \/ (lead = [] /\ i = 0)) ->
  ws <> [] -> forallb isSpace ws = true ->
  matches headPart (MState i (lead ++ js "####" ++ ws ++ l) [])
    (MState (length (lead ++ js "####" ++ ws) + i) l []).
Proof.
  intros Hlead Hne Hws. destruct ws as [|w ws]; [congruence|].
  cbn [forallb] in Hws. apply andb_true_iff in Hws as [Hw Hws].
  unfold headPart.
  assert (Hrest : forall j,
    matches (RSeq (RLit (js "####")) (RPlus true isSpace))
      (MState j (js "####" ++ (w :: ws) ++ l) [])
      (MState (length ws + S (4 + j)) l [])).
  { intros j. change (js "####") with [HASH; HASH; HASH; HASH]. eapply M_Seq.
    - cbn [RLit app].
      eapply M_Seq; [apply M_Chr|].
      eapply M_Seq; [apply M_Chr|].
      eapply M_Seq; [apply M_Chr|]. apply M_Chr.
    - unfold RPlus. eapply M_Seq; [apply M_Set; exact Hw|].
      apply matches_star_intro; exact Hws. }
  destruct Hlead as [-> | [-> ->]].
  - eapply M_Seq; [apply M_AltR, M_Chr|].
    replace (length ([LF] ++ js "####" ++ w :: ws) + i)
      with (length ws + S (4 + S i)) by (rewrite ?length_app; simpl; lia).
    apply Hrest.
  - eapply M_Seq; [apply M_AltL, M_Bol|].
    replace (length ([] ++ js "####" ++ w :: ws) + 0)
      with (length ws + S (4 + 0)) by (rewrite ?length_app; simpl; lia).
    apply Hrest.
Qed.

Lemma firstn_takeWhile p l : firstn (length (takeWhile p l)) l = takeWhile p l.
Proof.
  induction l as [|c t IH]; [reflexivity|].
  cbn [takeWhile]. destruct (p c); [|reflexivity].
  cbn [length firstn]. rewrite IH. reflexivity.
Qed.

(** The title is the rest of the line: it starts at the first character
    after the whitespace and runs to the next line terminator. *)
Lemma titlePart_eq s3 :
  rmatch titlePart s3 Some =
  match rest s3 with
  | [] => None
  | x :: t =>
      if isDot x
      then Some (MState (length (x :: takeWhile isDot t) + pos s3)
                        (dropWhile isDot t)
                        ((1, x :: takeWhile isDot t) :: caps s3))
      else None
  end.
Proof.
  destruct s3 as [i l cs]. unfold titlePart, RPlus. cbn [rmatch rest pos caps].
  destruct l as [|x t]; [reflexivity|].
  destruct (isDot x); [|reflexivity].
  rewrite star_greedy_total by discriminate.
  cbn [pos rest caps length].
  replace (length (takeWhile isDot t) + S i - i)
    with (S (length (takeWhile isDot t))) by lia.
  cbn [firstn]. rewrite firstn_takeWhile.
  rewrite Nat.add_succ_r. reflexivity.
Qed.

Lemma heading_match_iff i l :
  matchAt headingRegex i l <> None <-> headingAt i l.
Proof.
  unfold matchAt. rewrite heading_split. split.
  - intros H.
    destruct (rmatch headPart (MState i l [])
                (fun s3 => rmatch titlePart s3 Some)) as [e|] eqn:E;
      [clear H | congruence].
    destruct (rmatch_sound _ _ _ _ E) as (s3 & Hm & Ht).
    destruct (headPart_inv i l s3 Hm) as (lead & ws & Hl & Hlead & Hne & Hws & _).
    rewrite titlePart_eq in Ht.
    destruct (rest s3) as [|x t] eqn:Er; [discriminate|].
    destruct (isDot x) eqn:Ex; [|discriminate].
    exists lead, ws, x, t. repeat split; assumption.
  - intros (lead & ws & c & more & -> & Hlead & Hne & Hws & Hc) H.
    destruct (rmatch headPart _ _) eqn:E; [discriminate|]. clear H.
    pose proof (rmatch_none _ _ _ E _
                  (headPart_intro i lead ws (c :: more) Hlead Hne Hws)) as Hn.
    cbv beta in Hn. rewrite titlePart_eq in Hn. cbn [rest] in Hn.
    rewrite Hc in Hn. discriminate.
Qed.


End Heading.

Section HeadingClaim.


Lemma exec_search r text from :
  from <= length text ->
  exec r text from = search r from (skipn from text).
Proof.
  intros H. unfold exec.
  destruct (Nat.leb from (length text)) eqn:E; [reflexivity|].
  apply Nat.leb_gt in E. lia.
Qed.



End HeadingClaim.

(** ** What a match of an emphasis pattern needs *)

Section EmphasisNeeds.

Lemma matches_RLit_inv m : forall s s1,
  matches (RLit m) s s1 ->
  rest s = m ++ rest s1 /\ pos s1 = length m + pos s /\ caps s1 = caps s.
Proof.
  induction m as [|c [|c2 t] IH]; intros s s1 H.
  - inversion H; subst. repeat split.
  - cbn [RLit] in H. inversion H; subst. repeat split.
  - change (RLit (c :: c2 :: t)) with (RSeq (RChr c) (RLit (c2 :: t))) in H.
    set (r2 := RLit (c2 :: t)) in *.
    inversion H; subst.
    match goal with
    | H1 : matches (RChr c) _ _, H2 : matches r2 _ _ |- _ =>
        inversion H1; subst; destruct (IH _ _ H2) as (Hr & Hp & Hc)
    end.
    cbn [rest pos caps] in *. rewrite Hr, Hp, Hc. repeat split.
    cbn [length]. lia.
Qed.

Ltac inv_matches :=
  repeat match goal with
         | H : matches (RSeq _ _) _ _ |- _ => inversion H; subst; clear H
         | H : matches (RAlt _ _) _ _ |- _ => inversion H; subst; clear H
         | H : matches (RChr _) _ _ |- _ => inversion H; subst; clear H
         | H : matches (RSet _) _ _ |- _ => inversion H; subst; clear H
         | H : matches (RGrp _ _) _ _ |- _ => inversion H; subst; clear H
         | H : matches RBol _ _ |- _ => inversion H; subst; clear H
         end.

Ltac inv_runs :=
  repeat match goal with
         | H : matches (RStar _ _) _ _ |- _ =>
             let ws := fresh "ws" in
             let Hr := fresh "Hr" in
             let Hp := fresh "Hp" in
             apply matches_star_inv in H;
             destruct H as (ws & Hr & Hp & _ & _); cbn [rest] in Hr
         | H : matches (RLit _) _ _ |- _ =>
             let Hr := fresh "Hr" in
             apply matches_RLit_inv in H;
             destruct H as (Hr & _ & _); cbn [rest] in Hr
         end.

Ltac chain_rest :=
  repeat (subst;
          match goal with
          | H : rest ?s = _ |- _ => try rewrite H in *; clear H
          end);
  subst.

(** The text matched by each of the three patterns. *)
Lemma emphBoth_inv m s s1 :
  matches (emphBoth m) s s1 ->
  exists w1 ws1 g w2 ws2,
    rest s = m ++ (w1 :: ws1) ++ g ++ (w2 :: ws2) ++ m ++ rest s1
    /\ isSpace w1 = true /\ spaces ws1 = true
    /\ isSpace w2 = true /\ spaces ws2 = true.
Proof.
  unfold emphBoth, RPlus; cbn [seqs]. intros H.
  destruct s as [i l cs]. inv_matches. inv_runs. cbn [rest] in *.
  chain_rest. eexists _, _, _, _, _. split; [reflexivity|].
  repeat split; eassumption.
Qed.

Lemma emphLead_inv m s s1 :
  matches (emphLead m) s s1 ->
  exists w1 ws1 g,
    rest s = m ++ (w1 :: ws1) ++ g ++ m ++ rest s1
    /\ isSpace w1 = true /\ spaces ws1 = true.
Proof.
  unfold emphLead, RPlus; cbn [seqs]. intros H.
  destruct s as [i l cs]. inv_matches. inv_runs. cbn [rest] in *.
  chain_rest. eexists _, _, _. split; [reflexivity|].
  repeat split; eassumption.
Qed.

Lemma emphTrail_inv m s s1 :
  matches (emphTrail m) s s1 ->
  exists g w2 ws2,
    rest s = m ++ g ++ (w2 :: ws2) ++ m ++ rest s1
    /\ isSpace w2 = true /\ spaces ws2 = true.
Proof.
  unfold emphTrail, RPlus; cbn [seqs]. intros H.
  destruct s as [i l cs]. inv_matches. inv_runs. cbn [rest] in *.
  chain_rest. eexists _, _, _. split; [reflexivity|].
  repeat split; eassumption.
Qed.

End EmphasisNeeds.

Section EmphasisCriteria.

Lemma adjacent_intro p q l1 x y l2 :
  p x = true -> q y = true -> adjacent p q (l1 ++ x :: y :: l2) = true.
Proof.
  intros Hx Hy. induction l1 as [|c l1 IH]; cbn [app adjacent].
  - rewrite Hx, Hy. reflexivity.
  - cbn [app] in IH. rewrite IH. apply orb_true_r.
Qed.

Lemma adjacent_app_r p q a b :
  adjacent p q b = true -> adjacent p q (a ++ b) = true.
Proof.
  intros H. induction a as [|c a IH]; [exact H|].
  cbn [app adjacent]. rewrite IH. apply orb_true_r.
Qed.

Lemma adjacent_snoc_cons p q b x y c :
  p x = true -> q y = true -> adjacent p q ((b ++ [x]) ++ y :: c) = true.
Proof.
  intros Hx Hy. rewrite <- app_assoc. cbn [app].
  apply adjacent_intro; assumption.
Qed.

Lemma adjacent_skipn p q l : forall n,
  adjacent p q (skipn n l) = true -> adjacent p q l = true.
Proof.
  induction l as [|c t IH]; intros n H.
  - destruct n; exact H.
  - destruct n as [|n]; [exact H|].
    cbn [skipn] in H. cbn [adjacent]. rewrite (IH n H). apply orb_true_r.
Qed.

Lemma stars_app a b : stars (a ++ b) = stars a + stars b.
Proof. unfold stars. rewrite filter_app, length_app. reflexivity. Qed.

Lemma stars_repeat k : stars (repeat STAR k) = k.
Proof.
  induction k as [|k IH]; [reflexivity|].
  unfold stars in *. cbn [repeat filter]. change (isChr STAR STAR) with true.
  cbn [length]. rewrite IH. reflexivity.
Qed.

Lemma stars_skipn l : forall n, stars (skipn n l) <= stars l.
Proof.
  induction l as [|c t IH]; intros n.
  - destruct n; apply Nat.le_refl.
  - destruct n as [|n]; [apply Nat.le_refl|].
    cbn [skipn]. specialize (IH n). unfold stars in *. cbn [filter].
    destruct (isChr STAR c); cbn [length]; lia.
Qed.

Lemma spaces_last w ws :
  isSpace w = true -> spaces ws = true ->
  exists ws' wl, w :: ws = ws' ++ [wl] /\ isSpace wl = true.
Proof.
  intros Hw Hws.
  destruct (exists_last (l := w :: ws) ltac:(discriminate)) as (ws' & wl & E).
  exists ws', wl. split; [exact E|].
  assert (Hall : forallb isSpace (w :: ws) = true)
    by (cbn [forallb]; rewrite Hw; exact Hws).
  rewrite E, forallb_app in Hall. apply andb_true_iff in Hall as [_ Hl].
  cbn [forallb] in Hl. rewrite andb_true_r in Hl. exact Hl.
Qed.

(** A match of the pattern with whitespace after the opening marker has an
    asterisk directly before a whitespace character; one with whitespace
    before the closing marker has a whitespace character directly before an
    asterisk; and each match holds the marker twice. *)
Lemma emphLead_needs k s s1 :
  matches (emphLead (repeat STAR (S k))) s s1 ->
  adjacent (isChr STAR) isSpace (rest s) = true
  /\ 2 * S k <= stars (rest s).
Proof.
  intros H. destruct (emphLead_inv _ _ _ H) as (w1 & ws1 & g & Hr & Hw & _).
  rewrite Hr. split.
  - change (repeat STAR (S k)) with (STAR :: repeat STAR k).
    rewrite repeat_cons, <- app_assoc. cbn [app].
    apply adjacent_intro; [reflexivity | exact Hw].
  - rewrite !stars_app, stars_repeat. lia.
Qed.

Lemma emphTrail_needs k s s1 :
  matches (emphTrail (repeat STAR (S k))) s s1 ->
  adjacent isSpace (isChr STAR) (rest s) = true
  /\ 2 * S k <= stars (rest s).
Proof.
  intros H. destruct (emphTrail_inv _ _ _ H) as (g & w2 & ws2 & Hr & Hw & Hws).
  rewrite Hr. split.
  - destruct (spaces_last w2 ws2 Hw Hws) as (ws' & wl & E & Hl).
    rewrite E. do 2 apply adjacent_app_r.
    apply adjacent_snoc_cons; [exact Hl | reflexivity].
  - rewrite !stars_app, stars_repeat. lia.
Qed.

Lemma emphBoth_needs k s s1 :
  matches (emphBoth (repeat STAR (S k))) s s1 ->
  adjacent (isChr STAR) isSpace (rest s) = true
  /\ adjacent isSpace (isChr STAR) (rest s) = true
  /\ 2 * S k <= stars (rest s).
Proof.
  intros H.
  destruct (emphBoth_inv _ _ _ H) as (w1 & ws1 & g & w2 & ws2 & Hr & Hw1 & _ & Hw2 & Hws2).
  rewrite Hr. repeat split.
  - change (repeat STAR (S k)) with (STAR :: repeat STAR k).
    rewrite repeat_cons, <- app_assoc. cbn [app].
    apply adjacent_intro; [reflexivity | exact Hw1].
  - destruct (spaces_last w2 ws2 Hw2 Hws2) as (ws' & wl & E & Hl).
    rewrite E. do 3 apply adjacent_app_r.
    apply adjacent_snoc_cons; [exact Hl | reflexivity].
  - rewrite !stars_app, stars_repeat. lia.
Qed.

(** Hence the texts on which the patterns match nowhere. *)
Lemma matchAt_none_by r i l :
  (forall s1, ~ matches r (MState i l []) s1) -> matchAt r i l = None.
Proof.
  intros H. unfold matchAt.
  destruct (rmatch r (MState i l []) Some) eqn:E; [|reflexivity].
  destruct (rmatch_sound _ _ _ _ E) as (s1 & Hm & _).
  exfalso; exact (H s1 Hm).
Qed.

Lemma replaceAll_none r tpl l :
  (forall n j s1, ~ matches r (MState j (skipn n l) []) s1) ->
  replaceAll r tpl l = l.
Proof.
  intros H. unfold replaceAll, replaceAllWith.
  rewrite replaceLoop_id; [reflexivity|].
  intros n j. apply matchAt_none_by. apply H.
Qed.

Lemma emphLead_id k l :
  adjacent (isChr STAR) isSpace l = false \/ stars l < 2 * S k ->
  replaceAll (emphLead (repeat STAR (S k))) tpl123 l = l.
Proof.
  intros H. apply replaceAll_none. intros n j s1 Hm.
  destruct (emphLead_needs k _ _ Hm) as [Ha Hs]. cbn [rest] in Ha, Hs.
  destruct H as [H | H].
  - rewrite (adjacent_skipn _ _ l n Ha) in H. discriminate.
  - pose proof (stars_skipn l n). lia.
Qed.

Lemma emphTrail_id k l :
  adjacent isSpace (isChr STAR) l = false \/ stars l < 2 * S k ->
  replaceAll (emphTrail (repeat STAR (S k))) tpl123 l = l.
Proof.
  intros H. apply replaceAll_none. intros n j s1 Hm.
  destruct (emphTrail_needs k _ _ Hm) as [Ha Hs]. cbn [rest] in Ha, Hs.
  destruct H as [H | H].
  - rewrite (adjacent_skipn _ _ l n Ha) in H. discriminate.
  - pose proof (stars_skipn l n). lia.
Qed.

Lemma emphBoth_id k l :
  adjacent (isChr STAR) isSpace l = false
  \/ adjacent isSpace (isChr STAR) l = false
  \/ stars l < 2 * S k ->
  replaceAll (emphBoth (repeat STAR (S k))) tpl123 l = l.
Proof.
  intros H. apply replaceAll_none. intros n j s1 Hm.
  destruct (emphBoth_needs k _ _ Hm) as (Ha & Hb & Hs). cbn [rest] in Ha, Hb, Hs.
  destruct H as [H | [H | H]].
  - rewrite (adjacent_skipn _ _ l n Ha) in H. discriminate.
  - rewrite (adjacent_skipn _ _ l n Hb) in H. discriminate.
  - pose proof (stars_skipn l n). lia.
Qed.

End EmphasisCriteria.

(** ** Where the emphasis patterns do match *)

Section EmphasisHits.

Lemma rmatch_grp_lit n m l i cs k :
  rmatch (RGrp n (RLit m)) (MState i (m ++ l) cs) k
  = k (MState (length m + i) l ((n, m) :: cs)).
Proof.
  cbn [rmatch]. rewrite rmatch_RLit. cbn [pos rest caps].
  replace (length m + i - i) with (length m) by lia.
  rewrite firstn_app, firstn_all, Nat.sub_diag. cbn [firstn].
  rewrite app_nil_r. reflexivity.
Qed.

Lemma star_lazy_first p i l cs k e :
  k (MState i l cs) = Some e -> star false p i l cs k = Some e.
Proof.
  intros H. destruct l as [|c t]; cbn [star]; [exact H|].
  rewrite H. destruct (p c); reflexivity.
Qed.

(** A lazy repetition passes over the characters at which the continuation
    refuses. *)
Lemma star_lazy_skip p ds : forall i l cs k,
  forallb p ds = true ->
  (forall n, n < length ds -> k (MState (n + i) (skipn n (ds ++ l)) cs) = None) ->
  star false p i (ds ++ l) cs k = star false p (length ds + i) l cs k.
Proof.
  induction ds as [|c ds IH]; intros i l cs k Hp Hk; [reflexivity|].
  cbn [forallb] in Hp. apply andb_true_iff in Hp as [Hc Hds].
  cbn [app star]. rewrite Hc.
  rewrite (Hk 0 ltac:(simpl; lia) : k (MState i (c :: ds ++ l) cs) = None).
  rewrite IH; [cbn [length]; rewrite Nat.add_succ_r; reflexivity | exact Hds |].
  intros n Hn. specialize (Hk (S n) ltac:(simpl; lia)).
  cbn [skipn app] in Hk. rewrite Nat.add_succ_r. exact Hk.
Qed.

Lemma lineTerminator_space c : isLineTerminator c = true -> isSpace c = true.
Proof.
  unfold isLineTerminator. intros H.
  repeat match goal with
         | H : (_ || _)%bool = true |- _ =>
             apply orb_true_iff in H; destruct H as [H | H]
         end;
    apply N.eqb_eq in H; subst c; reflexivity.
Qed.

Lemma innerChar_facts c :
  isInnerChar c = true -> isChr STAR c = false /\ isDot c = true.
Proof.
  unfold isInnerChar. rewrite andb_true_iff, negb_true_iff. intros [Hd Hc].
  split; assumption.
Qed.

Lemma edge_head t :
  edge t = true -> exists x t', t = x :: t' /\ isSpace x = false.
Proof.
  destruct t as [|x t']; [discriminate|]. cbn [edge]. intros H.
  apply negb_true_iff in H. exists x, t'. split; [reflexivity | exact H].
Qed.

(** What [inner] says of a text. *)
Lemma inner_facts t :
  inner t = true ->
  forallb isDot t = true
  /\ forallb (fun c => negb (isChr STAR c)) t = true
  /\ (exists x t', t = x :: t' /\ isSpace x = false)
  /\ (exists t' x, t = t' ++ [x] /\ isSpace x = false).
Proof.
  unfold inner. rewrite !andb_true_iff. intros [[Hc Hh] Hl].
  repeat split.
  - apply forallb_forall. intros x Hx. rewrite forallb_forall in Hc.
    apply (innerChar_facts x (Hc x Hx)).
  - apply forallb_forall. intros x Hx. rewrite forallb_forall in Hc.
    destruct (innerChar_facts x (Hc x Hx)) as [E _]. rewrite E. reflexivity.
  - apply edge_head. exact Hh.
  - destruct (edge_head _ Hl) as (x & r & Hr & Hx).
    exists (rev r), x. split; [|exact Hx].
    rewrite <- (rev_involutive t), Hr. reflexivity.
Qed.

Lemma inner_head t l :
  inner t = true ->
  match t ++ l with
  | [] => True
  | y :: _ => isSpace y = false
  end.
Proof.
  intros H. destruct (inner_facts t H) as (_ & _ & (x & t' & -> & Hx) & _).
  exact Hx.
Qed.

Lemma inner_head_star t l :
  inner t = true ->
  match t ++ l with
  | [] => True
  | y :: _ => isChr STAR y = false
  end.
Proof.
  intros H. destruct (inner_facts t H) as (_ & Hs & (x & t' & -> & _) & _).
  cbn [forallb] in Hs. apply andb_true_iff in Hs as [Hs _].
  apply negb_true_iff in Hs. exact Hs.
Qed.

(** After whitespace, the first character of a text that ends with a
    character other than whitespace is not an asterisk when the text has
    none. *)
Lemma no_star_after_spaces sp : forall u x X Z,
  spaces sp = true ->
  forallb (fun c => negb (isChr STAR c)) u = true ->
  isChr STAR x = false -> isSpace x = false ->
  u ++ x :: X <> sp ++ STAR :: Z.
Proof.
  induction sp as [|s sp IH]; intros u x X Z Hsp Hu Hx Hxs E.
  - cbn [app] in E. destruct u as [|c u]; cbn [app] in E.
    + injection E as E _. subst x. discriminate.
    + injection E as E _. subst c. discriminate.
  - unfold spaces in Hsp. cbn [forallb] in Hsp.
    apply andb_true_iff in Hsp as [Hs Hsp].
    destruct u as [|c u]; cbn [app] in E.
    + injection E as E _. subst x. congruence.
    + injection E as _ E. cbn [forallb] in Hu.
      apply andb_true_iff in Hu as [_ Hu].
      apply (IH u x X Z Hsp Hu Hx Hxs E).
Qed.

Lemma inner_skipn t n :
  inner t = true -> n < length t ->
  exists u x, skipn n t = u ++ [x]
              /\ forallb (fun c => negb (isChr STAR c)) u = true
              /\ isChr STAR x = false /\ isSpace x = false.
Proof.
  intros H Hn. destruct (inner_facts t H) as (_ & Hs & _ & (t' & x & -> & Hx)).
  rewrite forallb_app in Hs. apply andb_true_iff in Hs as [Hs' Hsx].
  cbn [forallb] in Hsx. rewrite andb_true_r in Hsx. apply negb_true_iff in Hsx.
  rewrite length_app in Hn. cbn [length] in Hn.
  exists (skipn n t'), x. repeat split; try assumption.
  - rewrite skipn_app. replace (n - length t') with 0 by lia. reflexivity.
  - apply forallb_forall. intros y Hy. rewrite forallb_forall in Hs'.
    apply Hs'. revert Hy. clear. revert n.
    induction t' as [|c t' IH]; intros [|n] Hy; simpl in Hy;
      try contradiction; try exact Hy.
    right. apply (IH n). exact Hy.
Qed.

Lemma rmatch_seq a b s k :
  rmatch (RSeq a b) s k = rmatch a s (fun s' => rmatch b s' k).
Proof. reflexivity. Qed.

Lemma rmatch_plus_hit g p x t i cs k :
  p x = true ->
  rmatch (RPlus g p) (MState i (x :: t) cs) k = star g p (S i) t cs k.
Proof. intros H. unfold RPlus. cbn [rmatch rest pos caps]. rewrite H. reflexivity. Qed.

Lemma rmatch_plus_miss g p l i cs k :
  match l with [] => True | x :: _ => p x = false end ->
  rmatch (RPlus g p) (MState i l cs) k = None.
Proof.
  intros H. unfold RPlus. cbn [rmatch rest pos caps].
  destruct l as [|x t]; [reflexivity|]. rewrite H. reflexivity.
Qed.

Lemma rmatch_grp_star n g p i l cs k :
  rmatch (RGrp n (RStar g p)) (MState i l cs) k
  = star g p i l cs
      (fun s' => k (MState (pos s') (rest s') ((n, firstn (pos s' - i) l) :: caps s'))).
Proof. reflexivity. Qed.

Variable m' : jsstring.
Let m : jsstring := STAR :: m'.

(** Whitespace, then the closing marker. *)
Lemma closing_spaces i w2 ws2 l cs :
  isSpace w2 = true -> spaces ws2 = true ->
  rmatch (RSeq (RPlus true isSpace) (RGrp 3 (RLit m)))
         (MState i ((w2 :: ws2) ++ m ++ l) cs) Some
  = Some (MState (length m + (length ws2 + S i)) l ((3, m) :: cs)).
Proof.
  intros Hw Hws. rewrite rmatch_seq. cbn [app].
  rewrite (rmatch_plus_hit true isSpace w2 _ i cs _ Hw).
  apply star_greedy_all; [exact Hws | reflexivity |].
  apply rmatch_grp_lit.
Qed.

Lemma closing_inv s s1 :
  matches (RSeq (RPlus true isSpace) (RGrp 3 (RLit m))) s s1 ->
  exists w ws Z, rest s = (w :: ws) ++ STAR :: Z /\ spaces (w :: ws) = true.
Proof.
  unfold RPlus. intros H. destruct s as [i l cs].
  set (lit := RLit m) in H.
  repeat match goal with
         | H : matches (RSeq _ _) _ _ |- _ => inversion H; subst; clear H
         | H : matches (RSet _) _ _ |- _ => inversion H; subst; clear H
         | H : matches (RGrp _ _) _ _ |- _ => inversion H; subst; clear H
         end.
  subst lit.
  repeat match goal with
         | H : matches (RStar _ _) _ _ |- _ =>
             let ws := fresh "ws" in
             let Hr := fresh "Hr" in
             let Hp := fresh "Hp" in
             apply matches_star_inv in H;
             destruct H as (ws & Hr & Hp & _ & _); cbn [rest] in Hr
         | H : matches (RLit _) _ _ |- _ =>
             let Hr := fresh "Hr" in
             apply matches_RLit_inv in H;
             destruct H as (Hr & _ & _); cbn [rest] in Hr
         end.
  subst. cbn [rest]. rewrite Hr0. unfold m. cbn [app].
  eexists _, _, _. split; [reflexivity|].
  unfold spaces. cbn [forallb]. apply andb_true_iff. split; assumption.
Qed.

(** The inner text, found by the lazy repetition, then whitespace and the
    closing marker. *)
Lemma inner_then_spaces i t w2 ws2 l cs :
  inner t = true -> isSpace w2 = true -> spaces ws2 = true ->
  rmatch (RSeq (RGrp 2 (RStar false isDot))
               (RSeq (RPlus true isSpace) (RGrp 3 (RLit m))))
         (MState i (t ++ (w2 :: ws2) ++ m ++ l) cs) Some
  = Some (MState (length m + (length ws2 + S (length t + i))) l
                 ((3, m) :: (2, t) :: cs)).
Proof.
  intros Ht Hw Hws. rewrite rmatch_seq, rmatch_grp_star.
  rewrite star_lazy_skip; [| apply (inner_facts t Ht) |].
  - apply star_lazy_first. cbn [pos rest caps].
    replace (length t + i - i) with (length t) by lia.
    rewrite firstn_app, firstn_all, Nat.sub_diag. cbn [firstn]. rewrite app_nil_r.
    apply closing_spaces; assumption.
  - intros n Hn. cbn [pos rest caps].
    apply rmatch_none_iff. intros s1 Hm. exfalso.
    apply closing_inv in Hm. destruct Hm as (w & ws & Z & Hr & Hsp).
    cbn [rest] in Hr. rewrite skipn_app in Hr.
    replace (n - length t) with 0 in Hr by lia. cbn [skipn] in Hr.
    destruct (inner_skipn t n Ht Hn) as (u & x & Hu & Hus & Hx & Hxs).
    rewrite Hu, <- app_assoc in Hr. cbn [app] in Hr.
    exact (no_star_after_spaces (w :: ws) u x _ Z Hsp Hus Hx Hxs Hr).
Qed.

(** The inner text, then the closing marker at once. *)
Lemma inner_then_marker i t l cs :
  inner t = true ->
  rmatch (RSeq (RGrp 2 (RStar false isDot)) (RGrp 3 (RLit m)))
         (MState i (t ++ m ++ l) cs) Some
  = Some (MState (length m + (length t + i)) l ((3, m) :: (2, t) :: cs)).
Proof.
  intros Ht. rewrite rmatch_seq, rmatch_grp_star.
  rewrite star_lazy_skip; [| apply (inner_facts t Ht) |].
  - apply star_lazy_first. cbn [pos rest caps].
    replace (length t + i - i) with (length t) by lia.
    rewrite firstn_app, firstn_all, Nat.sub_diag. cbn [firstn]. rewrite app_nil_r.
    apply rmatch_grp_lit.
  - intros n Hn. cbn [pos rest caps].
    rewrite skipn_app. replace (n - length t) with 0 by lia. cbn [skipn].
    destruct (inner_skipn t n Ht Hn) as (u & x & Hu & Hus & Hx & _).
    rewrite Hu, <- app_assoc. cbn [app].
    cbn [rmatch]. rewrite rmatch_RLit_miss; [reflexivity|].
    unfold m. destruct u as [|c u]; cbn [app isPrefix].
    + unfold isChr in Hx. rewrite N.eqb_sym, Hx. reflexivity.
    + cbn [forallb] in Hus. apply andb_true_iff in Hus as [Hc _].
      apply negb_true_iff in Hc. unfold isChr in Hc.
      rewrite N.eqb_sym, Hc. reflexivity.
Qed.

Lemma firstn_whole (a l : jsstring) n :
  n = length a -> firstn n (a ++ l) = a.
Proof.
  intros ->. rewrite firstn_app, firstn_all, Nat.sub_diag. cbn [firstn].
  apply app_nil_r.
Qed.

Lemma emphBoth_hit i w1 ws1 t w2 ws2 l :
  isSpace w1 = true -> spaces ws1 = true -> inner t = true ->
  isSpace w2 = true -> spaces ws2 = true ->
  matchAt (emphBoth m) i (m ++ (w1 :: ws1) ++ t ++ (w2 :: ws2) ++ m ++ l)
  = Some (Match i (m ++ (w1 :: ws1) ++ t ++ (w2 :: ws2) ++ m)
                [(3, m); (2, t); (1, m)]
                (length (m ++ (w1 :: ws1) ++ t ++ (w2 :: ws2) ++ m) + i)).
Proof.
  intros Hw1 Hws1 Ht Hw2 Hws2. unfold matchAt.
  pose proof (inner_head t ((w2 :: ws2) ++ m ++ l) Ht) as Hhead.
  assert (E : rmatch (emphBoth m)
                (MState i (m ++ (w1 :: ws1) ++ t ++ (w2 :: ws2) ++ m ++ l) []) Some
              = Some (MState (length m + (length ws2
                               + S (length t + (length ws1 + S (length m + i))))) l
                             [(3, m); (2, t); (1, m)])).
  { unfold emphBoth. cbn [seqs]. rewrite rmatch_seq, rmatch_grp_lit.
    rewrite rmatch_seq. cbn [app].
    rewrite (rmatch_plus_hit true isSpace w1 _ _ _ _ Hw1).
    apply star_greedy_all; [exact Hws1 | exact Hhead |].
    apply inner_then_spaces; assumption. }
  rewrite E. cbn [pos caps].
  assert (Hlen : length m + (length ws2 + S (length t + (length ws1 + S (length m + i))))
                 = length (m ++ (w1 :: ws1) ++ t ++ (w2 :: ws2) ++ m) + i).
  { repeat (progress (rewrite ?length_app; cbn [length])). lia. }
  rewrite Hlen.
  replace (m ++ (w1 :: ws1) ++ t ++ (w2 :: ws2) ++ m ++ l)
    with ((m ++ (w1 :: ws1) ++ t ++ (w2 :: ws2) ++ m) ++ l)
    by (rewrite <- !app_assoc; reflexivity).
  rewrite firstn_whole by lia. reflexivity.
Qed.

Lemma emphLead_hit i w1 ws1 t l :
  isSpace w1 = true -> spaces ws1 = true -> inner t = true ->
  matchAt (emphLead m) i (m ++ (w1 :: ws1) ++ t ++ m ++ l)
  = Some (Match i (m ++ (w1 :: ws1) ++ t ++ m)
                [(3, m); (2, t); (1, m)]
                (length (m ++ (w1 :: ws1) ++ t ++ m) + i)).
Proof.
  intros Hw1 Hws1 Ht. unfold matchAt.
  pose proof (inner_head t (m ++ l) Ht) as Hhead.
  assert (E : rmatch (emphLead m)
                (MState i (m ++ (w1 :: ws1) ++ t ++ m ++ l) []) Some
              = Some (MState (length m + (length t + (length ws1 + S (length m + i)))) l
                             [(3, m); (2, t); (1, m)])).
  { unfold emphLead. cbn [seqs]. rewrite rmatch_seq, rmatch_grp_lit.
    rewrite rmatch_seq. cbn [app].
    rewrite (rmatch_plus_hit true isSpace w1 _ _ _ _ Hw1).
    apply star_greedy_all; [exact Hws1 | exact Hhead |].
    apply inner_then_marker; assumption. }
  rewrite E. cbn [pos caps].
  assert (Hlen : length m + (length t + (length ws1 + S (length m + i)))
                 = length (m ++ (w1 :: ws1) ++ t ++ m) + i).
  { repeat (progress (rewrite ?length_app; cbn [length])). lia. }
  rewrite Hlen.
  replace (m ++ (w1 :: ws1) ++ t ++ m ++ l)
    with ((m ++ (w1 :: ws1) ++ t ++ m) ++ l)
    by (rewrite <- !app_assoc; reflexivity).
  rewrite firstn_whole by lia. reflexivity.
Qed.

Lemma emphTrail_hit i t w2 ws2 l :
  inner t = true -> isSpace w2 = true -> spaces ws2 = true ->
  matchAt (emphTrail m) i (m ++ t ++ (w2 :: ws2) ++ m ++ l)
  = Some (Match i (m ++ t ++ (w2 :: ws2) ++ m)
                [(3, m); (2, t); (1, m)]
                (length (m ++ t ++ (w2 :: ws2) ++ m) + i)).
Proof.
  intros Ht Hw2 Hws2. unfold matchAt.
  assert (E : rmatch (emphTrail m)
                (MState i (m ++ t ++ (w2 :: ws2) ++ m ++ l) []) Some
              = Some (MState (length m + (length ws2 + S (length t + (length m + i)))) l
                             [(3, m); (2, t); (1, m)])).
  { unfold emphTrail. cbn [seqs]. rewrite rmatch_seq, rmatch_grp_lit.
    apply inner_then_spaces; assumption. }
  rewrite E. cbn [pos caps].
  assert (Hlen : length m + (length ws2 + S (length t + (length m + i)))
                 = length (m ++ t ++ (w2 :: ws2) ++ m) + i).
  { repeat (progress (rewrite ?length_app; cbn [length])). lia. }
  rewrite Hlen.
  replace (m ++ t ++ (w2 :: ws2) ++ m ++ l)
    with ((m ++ t ++ (w2 :: ws2) ++ m) ++ l)
    by (rewrite <- !app_assoc; reflexivity).
  rewrite firstn_whole by lia. reflexivity.
Qed.

End EmphasisHits.

Section WholeLine.

(** A match that covers the whole line. *)
Lemma replaceAll_whole r tpl l m0 :
  matchAt r 0 l = Some m0 ->
  lastIndex m0 = length l ->
  l <> [] ->
  (forall j, matchAt r j [] = None) ->
  replaceAll r tpl l = expand tpl m0.
Proof.
  intros Hm Hl Hne Hnil. unfold replaceAll, replaceAllWith.
  destruct l as [|c t]; [congruence|].
  rewrite (replaceLoop_hit unit r _ 0 (c :: t) tt m0 (length t) Hm)
    by (rewrite ?Hl; simpl; lia).
  cbn [fst snd]. rewrite skipn_all2 by (simpl; lia).
  cbn [replaceLoop]. rewrite Hnil. cbn [fst]. apply app_nil_r.
Qed.

Lemma emph_nil_none k j :
  matchAt (emphBoth (repeat STAR (S k))) j [] = None
  /\ matchAt (emphLead (repeat STAR (S k))) j [] = None
  /\ matchAt (emphTrail (repeat STAR (S k))) j [] = None.
Proof.
  repeat split; apply matchAt_none_by; intros s1 Hm.
  - destruct (emphBoth_needs k _ _ Hm) as (_ & _ & H). unfold stars in H; simpl in H; lia.
  - destruct (emphLead_needs k _ _ Hm) as (_ & H). unfold stars in H; simpl in H; lia.
  - destruct (emphTrail_needs k _ _ Hm) as (_ & H). unfold stars in H; simpl in H; lia.
Qed.

End WholeLine.

(** ** The emphasis rules on a marker pair *)

Section MarkerPair.

Lemma adj_skip_p p q a b :
  forallb (fun c => negb (p c)) a = true ->
  adjacent p q (a ++ b) = adjacent p q b.
Proof.
  induction a as [|x a IH]; intros H; [reflexivity|].
  cbn [forallb] in H. apply andb_true_iff in H as [Hx Ha].
  apply negb_true_iff in Hx.
  cbn [app adjacent]. rewrite Hx, (IH Ha). reflexivity.
Qed.

Lemma adj_skip_q p q a b :
  forallb (fun c => negb (q c)) a = true ->
  match b with [] => True | y :: _ => q y = false end ->
  adjacent p q (a ++ b) = adjacent p q b.
Proof.
  induction a as [|x a IH]; intros H Hb; [reflexivity|].
  cbn [forallb] in H. apply andb_true_iff in H as [Hx Ha].
  cbn [app adjacent]. rewrite (IH Ha Hb).
  replace (match a ++ b with [] => false | y :: _ => q y end) with false;
    [rewrite andb_false_r; reflexivity|].
  destruct a as [|y a'].
  - cbn [app]. destruct b; [reflexivity | symmetry; exact Hb].
  - cbn [app]. cbn [forallb] in Ha. apply andb_true_iff in Ha as [Hy _].
    apply negb_true_iff in Hy. symmetry; exact Hy.
Qed.

Lemma adj_none_p p q a :
  forallb (fun c => negb (p c)) a = true -> adjacent p q a = false.
Proof.
  intros H. rewrite <- (app_nil_r a), (adj_skip_p p q a [] H). reflexivity.
Qed.

Lemma adj_none_q p q a :
  forallb (fun c => negb (q c)) a = true -> adjacent p q a = false.
Proof.
  intros H. rewrite <- (app_nil_r a), (adj_skip_q p q a [] H I). reflexivity.
Qed.

Lemma marker_not_space k :
  forallb (fun c => negb (isSpace c)) (repeat STAR k) = true.
Proof. induction k as [|k IH]; [reflexivity|]. cbn [repeat forallb]. exact IH. Qed.

Lemma space_not_star c : isSpace c = true -> isChr STAR c = false.
Proof.
  intros H. unfold isChr. destruct (N.eqb c STAR) eqn:E; [|reflexivity].
  apply N.eqb_eq in E; subst c. discriminate.
Qed.

Lemma spaces_not_star ws :
  spaces ws = true -> forallb (fun c => negb (isChr STAR c)) ws = true.
Proof.
  unfold spaces. intros H. apply forallb_forall. intros x Hx.
  rewrite forallb_forall in H. rewrite (space_not_star x (H x Hx)). reflexivity.
Qed.

Lemma stars_none l :
  forallb (fun c => negb (isChr STAR c)) l = true -> stars l = 0.
Proof.
  unfold stars. induction l as [|c l IH]; intros H; [reflexivity|].
  cbn [forallb] in H. apply andb_true_iff in H as [Hc Hl].
  apply negb_true_iff in Hc. cbn [filter]. rewrite Hc. exact (IH Hl).
Qed.

Lemma adj_last p q a x b :
  forallb (fun c => negb (q c)) (a ++ [x]) = true -> p x = false ->
  adjacent p q ((a ++ [x]) ++ b) = adjacent p q b.
Proof.
  intros H Hx. rewrite forallb_app in H. apply andb_true_iff in H as [Ha Hq].
  cbn [forallb] in Hq. rewrite andb_true_r in Hq. apply negb_true_iff in Hq.
  rewrite <- app_assoc. cbn [app].
  rewrite (adj_skip_q p q a (x :: b) Ha Hq).
  cbn [adjacent]. rewrite Hx. reflexivity.
Qed.

Lemma pair_stars k ws1 t ws2 :
  spaces ws1 = true -> spaces ws2 = true -> inner t = true ->
  stars (repeat STAR k ++ ws1 ++ t ++ ws2 ++ repeat STAR k) = 2 * k.
Proof.
  intros H1 H2 Ht. rewrite !stars_app, stars_repeat.
  rewrite (stars_none ws1 (spaces_not_star ws1 H1)).
  rewrite (stars_none ws2 (spaces_not_star ws2 H2)).
  destruct (inner_facts t Ht) as (_ & Hs & _).
  rewrite (stars_none t Hs). lia.
Qed.

(** Between the inner text and the closing marker no whitespace touches an
    asterisk. *)
Lemma closing_no_contact k t :
  inner t = true ->
  adjacent (isChr STAR) isSpace (t ++ repeat STAR k) = false
  /\ adjacent isSpace (isChr STAR) (t ++ repeat STAR k) = false.
Proof.
  intros Ht.
  destruct (inner_facts t Ht) as (_ & Hs & _ & (t' & x & E & Hx)).
  split.
  - rewrite adj_skip_p by exact Hs. apply adj_none_q. apply marker_not_space.
  - rewrite E in Hs |- *. rewrite (adj_last isSpace (isChr STAR) t' x _ Hs Hx).
    apply adj_none_p. apply marker_not_space.
Qed.

(** In the collapsed pair no asterisk touches whitespace. *)
Lemma collapsed_no_contact k t :
  inner t = true ->
  adjacent (isChr STAR) isSpace (repeat STAR k ++ t ++ repeat STAR k) = false
  /\ adjacent isSpace (isChr STAR) (repeat STAR k ++ t ++ repeat STAR k) = false.
Proof.
  intros Ht. destruct (closing_no_contact k t Ht) as [H1 H2]. split.
  - rewrite adj_skip_q; [exact H1 | apply marker_not_space |].
    apply (inner_head t (repeat STAR k) Ht).
  - rewrite adj_skip_p by apply marker_not_space. exact H2.
Qed.

Lemma no_contact_fixed k' l :
  adjacent (isChr STAR) isSpace l = false ->
  adjacent isSpace (isChr STAR) l = false ->
  replaceAll (emphBoth (repeat STAR (S k'))) tpl123 l = l
  /\ replaceAll (emphLead (repeat STAR (S k'))) tpl123 l = l
  /\ replaceAll (emphTrail (repeat STAR (S k'))) tpl123 l = l.
Proof.
  intros H1 H2. repeat split.
  - apply emphBoth_id. left; exact H1.
  - apply emphLead_id. left; exact H1.
  - apply emphTrail_id. left; exact H2.
Qed.

Lemma few_stars_fixed k' l :
  stars l < 2 * S k' ->
  replaceAll (emphBoth (repeat STAR (S k'))) tpl123 l = l
  /\ replaceAll (emphLead (repeat STAR (S k'))) tpl123 l = l
  /\ replaceAll (emphTrail (repeat STAR (S k'))) tpl123 l = l.
Proof.
  intros H. repeat split.
  - apply emphBoth_id. right; right; exact H.
  - apply emphLead_id. right; exact H.
  - apply emphTrail_id. right; exact H.
Qed.

(** With whitespace on one side only, the pattern for both sides does not
    match, nor the pattern of the other side. *)
Lemma lead_only_no_space_star k ws1 t :
  spaces ws1 = true -> inner t = true ->
  adjacent isSpace (isChr STAR) (repeat STAR k ++ ws1 ++ t ++ repeat STAR k) = false.
Proof.
  intros H1 Ht. rewrite adj_skip_p by apply marker_not_space.
  rewrite adj_skip_q.
  - apply (closing_no_contact k t Ht).
  - apply spaces_not_star; exact H1.
  - apply (inner_head_star t (repeat STAR k) Ht).
Qed.

Lemma trail_only_no_star_space k t ws2 :
  spaces ws2 = true -> inner t = true ->
  adjacent (isChr STAR) isSpace (repeat STAR k ++ t ++ ws2 ++ repeat STAR k) = false.
Proof.
  intros H2 Ht. rewrite adj_skip_q.
  - rewrite adj_skip_p by apply (inner_facts t Ht).
    rewrite adj_skip_p by (apply spaces_not_star; exact H2).
    apply adj_none_q. apply marker_not_space.
  - apply marker_not_space.
  - apply (inner_head t (ws2 ++ repeat STAR k) Ht).
Qed.

(** The three passes of the width of the marker collapse the pair. *)
Lemma pair_collapsed k ws1 t ws2 :
  spaces ws1 = true -> spaces ws2 = true -> inner t = true ->
  let m := repeat STAR (S k) in
  replaceAll (emphTrail m) tpl123
    (replaceAll (emphLead m) tpl123
       (replaceAll (emphBoth m) tpl123 (m ++ ws1 ++ t ++ ws2 ++ m)))
  = m ++ t ++ m.
Proof.
  intros Hs1 Hs2 Ht m. subst m.
  destruct (collapsed_no_contact (S k) t Ht) as (C1 & C2).
  destruct (no_contact_fixed k (repeat STAR (S k) ++ t ++ repeat STAR (S k)) C1 C2)
    as (FB & FL & FT).
  assert (Hmne : forall x, repeat STAR (S k) ++ x <> []) by (intros x; discriminate).
  assert (Hexp : forall i a b,
            expand tpl123 (Match i a [(3, repeat STAR (S k)); (2, t); (1, repeat STAR (S k))] b)
            = repeat STAR (S k) ++ t ++ repeat STAR (S k)).
  { intros i a b. cbn [expand tpl123 group groups Nat.eqb].
    rewrite app_nil_r. reflexivity. }
  destruct ws1 as [|w1 ws1']; destruct ws2 as [|w2 ws2']; cbn [app].
  - rewrite FB, FL, FT. reflexivity.
  - pose proof (trail_only_no_star_space (S k) t (w2 :: ws2') Hs2 Ht) as Hadj.
    rewrite emphBoth_id by (left; exact Hadj).
    rewrite emphLead_id by (left; exact Hadj).
    unfold spaces in Hs2. cbn [forallb] in Hs2.
    apply andb_true_iff in Hs2 as [Hw Hws].
    pose proof (emphTrail_hit (repeat STAR k) 0 t w2 ws2' [] Ht Hw Hws) as Hhit.
    change (STAR :: repeat STAR k) with (repeat STAR (S k)) in Hhit.
    rewrite !app_nil_r in Hhit. cbn [app] in Hhit.
    rewrite (replaceAll_whole _ tpl123 _ _ Hhit);
      [ apply Hexp
      | cbn [lastIndex]; lia
      | apply Hmne
      | intros j; apply (emph_nil_none k j) ].
  - pose proof (lead_only_no_space_star (S k) (w1 :: ws1') t Hs1 Ht) as Hadj.
    cbn [app] in Hadj.
    rewrite emphBoth_id by (right; left; exact Hadj).
    unfold spaces in Hs1. cbn [forallb] in Hs1.
    apply andb_true_iff in Hs1 as [Hw Hws].
    pose proof (emphLead_hit (repeat STAR k) 0 w1 ws1' t [] Hw Hws Ht) as Hhit.
    change (STAR :: repeat STAR k) with (repeat STAR (S k)) in Hhit.
    rewrite !app_nil_r in Hhit. cbn [app] in Hhit.
    rewrite (replaceAll_whole _ tpl123 _ _ Hhit);
      [ rewrite Hexp
      | cbn [lastIndex]; lia
      | discriminate || apply Hmne
      | intros j; apply (emph_nil_none k j) ].
    apply FT.
  - unfold spaces in Hs1, Hs2. cbn [forallb] in Hs1, Hs2.
    apply andb_true_iff in Hs1 as [Hw1 Hws1].
    apply andb_true_iff in Hs2 as [Hw2 Hws2].
    pose proof (emphBoth_hit (repeat STAR k) 0 w1 ws1' t w2 ws2' []
                  Hw1 Hws1 Ht Hw2 Hws2) as Hhit.
    change (STAR :: repeat STAR k) with (repeat STAR (S k)) in Hhit.
    rewrite !app_nil_r in Hhit. cbn [app] in Hhit.
    rewrite (replaceAll_whole _ tpl123 _ _ Hhit);
      [ rewrite Hexp
      | cbn [lastIndex]; lia
      | discriminate || apply Hmne
      | intros j; apply (emph_nil_none k j) ].
    rewrite FL. apply FT.
Qed.

End MarkerPair.

(** ** The list marker of [fixEmphasisSpaces] *)

Section ListLine.

Ltac inv_pattern :=
  repeat match goal with
         | H : matches (RSeq _ _) _ _ |- _ => inversion H; subst; clear H
         | H : matches (RChr _) _ _ |- _ => inversion H; subst; clear H
         | H : matches (RSet _) _ _ |- _ => inversion H; subst; clear H
         | H : matches (RGrp _ _) _ _ |- _ => inversion H; subst; clear H
         | H : matches RBol _ _ |- _ => inversion H; subst; clear H
         end.

(** A pattern that begins with the anchor is only tried with success at the
    start of the text. *)
Lemma anchored_matchAt r i l : matchAt (RSeq RBol r) (S i) l = None.
Proof. reflexivity. Qed.

Lemma anchored_search_later r l : forall i, search (RSeq RBol r) (S i) l = None.
Proof.
  induction l as [|c t IH]; intros i; cbn [search]; rewrite anchored_matchAt;
    [reflexivity | apply IH].
Qed.

Lemma anchored_search r l :
  search (RSeq RBol r) 0 l = matchAt (RSeq RBol r) 0 l.
Proof.
  destruct l as [|c t]; cbn [search];
    destruct (matchAt (RSeq RBol r) 0 _); try reflexivity.
  apply anchored_search_later.
Qed.

(** The leftmost match lies after a prefix in which no attempt succeeds. *)
Lemma search_copy r pre : forall l i,
  (forall n, n < length pre -> matchAt r (n + i) (skipn n (pre ++ l)) = None) ->
  search r i (pre ++ l) = search r (length pre + i) l.
Proof.
  induction pre as [|c pre IH]; intros l i H; [reflexivity|].
  cbn [app search].
  rewrite (H 0 ltac:(cbn [length]; lia) : matchAt r i (c :: pre ++ l) = None).
  rewrite IH.
  - cbn [length]. f_equal. lia.
  - intros n Hn. replace (n + S i) with (S n + i) by lia.
    apply (H (S n)). cbn [length]. lia.
Qed.

(** What the list pattern matches: whitespace, an asterisk, whitespace. *)
Lemma listRegex_inv l s1 :
  matches listRegex (MState 0 l []) s1 ->
  exists ws0 w r,
    l = ws0 ++ STAR :: w :: r /\ spaces ws0 = true /\ isSpace w = true.
Proof.
  unfold listRegex, RPlus; cbn [seqs]. intros H.
  inv_pattern.
  repeat match goal with
         | H : matches (RStar _ _) _ _ |- _ =>
             apply matches_star_inv in H;
             let ws := fresh "ws" in
             let Hr := fresh "Hr" in
             let Hp := fresh "Hp" in
             destruct H as (ws & Hr & Hp & _ & _); cbn [rest] in Hr
         end.
  subst. eexists _, _, _. split; [reflexivity|]. split; assumption.
Qed.

Lemma listRegex_shape l :
  test listRegex l = true ->
  exists ws0 w r,
    l = ws0 ++ STAR :: w :: r /\ spaces ws0 = true /\ isSpace w = true.
Proof.
  unfold test. change listRegex with
    (RSeq RBol (seqs [RStar true isSpace; RChr STAR; RPlus true isSpace])).
  rewrite anchored_search. unfold matchAt.
  destruct (rmatch _ (MState 0 l []) Some) as [e|] eqn:E; [|discriminate].
  intros _. apply rmatch_sound in E. destruct E as (s1 & Hm & _).
  apply (listRegex_inv l s1). exact Hm.
Qed.

Lemma listRegex_needs l :
  adjacent (isChr STAR) isSpace l = false -> test listRegex l = false.
Proof.
  intros H. destruct (test listRegex l) eqn:E; [|reflexivity].
  destruct (listRegex_shape l E) as (ws0 & w & r & -> & _ & Hw).
  rewrite adjacent_intro in H; [discriminate | reflexivity | exact Hw].
Qed.

Lemma rmatch_bol l cs k : rmatch RBol (MState 0 l cs) k = k (MState 0 l cs).
Proof. reflexivity. Qed.

Lemma rmatch_chr_hit c t i cs k :
  rmatch (RChr c) (MState i (c :: t) cs) k = k (MState (S i) t cs).
Proof. cbn [rmatch rest pos caps]. rewrite N.eqb_refl. reflexivity. Qed.

Lemma rmatch_grp n r s k :
  rmatch (RGrp n r) s k
  = rmatch r s (fun s' =>
      k (MState (pos s') (rest s')
                ((n, firstn (pos s' - pos s) (rest s)) :: caps s'))).
Proof. reflexivity. Qed.

Lemma firstn_prefix (a b l : jsstring) n :
  l = a ++ b -> n = length a -> firstn n l = a.
Proof. intros -> ->. apply firstn_whole. reflexivity. Qed.

Lemma skipn_prefix (a b l : jsstring) n :
  l = a ++ b -> n = length a -> skipn n l = b.
Proof.
  intros -> ->. rewrite skipn_app, skipn_all, Nat.sub_diag. reflexivity.
Qed.

Lemma run_split ws0 w r :
  ws0 ++ STAR :: w :: r
  = (ws0 ++ STAR :: w :: takeWhile isSpace r) ++ dropWhile isSpace r.
Proof.
  rewrite <- app_assoc. cbn [app]. rewrite takeWhile_dropWhile. reflexivity.
Qed.

(** The list pattern on a line of that shape, and the masking of its
    asterisk. *)
Lemma listMask_match ws0 w r :
  spaces ws0 = true -> isSpace w = true ->
  matchAt listMaskRegex 0 (ws0 ++ STAR :: w :: r)
  = Some (Match 0 (ws0 ++ STAR :: w :: takeWhile isSpace r)
                [(2, w :: takeWhile isSpace r); (1, ws0)]
                (length (ws0 ++ STAR :: w :: takeWhile isSpace r))).
Proof.
  intros H0 Hw. unfold matchAt, listMaskRegex; cbn [seqs].
  rewrite rmatch_seq, rmatch_bol, rmatch_seq, rmatch_grp_star.
  erewrite star_greedy_all; cycle 1.
  { exact H0. }
  { reflexivity. }
  { cbn [pos rest caps]. rewrite rmatch_seq, rmatch_chr_hit, rmatch_grp.
    unfold RPlus. rewrite rmatch_seq.
    cbn [rmatch rest pos caps]. rewrite Hw.
    rewrite star_greedy_total by (intros s; discriminate).
    cbn [pos rest caps]. reflexivity. }
  cbn [pos rest caps]. f_equal.
  assert (L : length (ws0 ++ STAR :: w :: takeWhile isSpace r)
              = length (takeWhile isSpace r) + S (S (length ws0 + 0))).
  { rewrite length_app. cbn [length]. lia. }
  rewrite <- L. f_equal.
  - rewrite Nat.sub_0_r.
    apply (firstn_prefix _ (dropWhile isSpace r)); [apply run_split | reflexivity].
  - f_equal; [|f_equal].
    + f_equal. rewrite L.
      replace (length (takeWhile isSpace r) + S (S (length ws0 + 0))
               - S (length ws0 + 0))
        with (S (length (takeWhile isSpace r))) by lia.
      cbn [firstn]. f_equal. apply firstn_takeWhile.
    + f_equal. rewrite Nat.add_0_r, Nat.sub_0_r.
      apply firstn_whole. reflexivity.
Qed.

Lemma listRegex_hit ws0 w r :
  spaces ws0 = true -> isSpace w = true ->
  test listRegex (ws0 ++ STAR :: w :: r) = true.
Proof.
  intros H0 Hw. unfold test. change listRegex with
    (RSeq RBol (seqs [RStar true isSpace; RChr STAR; RPlus true isSpace])).
  rewrite anchored_search. unfold matchAt; cbn [seqs].
  rewrite rmatch_seq, rmatch_bol, rmatch_seq.
  change (rmatch (RStar true isSpace) (MState 0 (ws0 ++ STAR :: w :: r) []))
    with (star true isSpace 0 (ws0 ++ STAR :: w :: r) []).
  erewrite star_greedy_all; cycle 1.
  { exact H0. }
  { reflexivity. }
  { rewrite rmatch_seq, rmatch_chr_hit. unfold RPlus. rewrite rmatch_seq.
    cbn [rmatch rest pos caps]. rewrite Hw.
    rewrite star_greedy_total by (intros s; discriminate). reflexivity. }
  reflexivity.
Qed.

Lemma mask_line ws0 w r :
  spaces ws0 = true -> isSpace w = true ->
  replaceFirst listMaskRegex [TGrp 1; TLit (js "__LIST__"); TGrp 2]
    (ws0 ++ STAR :: w :: r)
  = ws0 ++ js "__LIST__" ++ w :: r.
Proof.
  intros H0 Hw. unfold replaceFirst.
  change listMaskRegex with
    (RSeq RBol (seqs [RGrp 1 (RStar true isSpace); RChr STAR;
                      RGrp 2 (RPlus true isSpace)])).
  rewrite anchored_search.
  change (RSeq RBol (seqs [RGrp 1 (RStar true isSpace); RChr STAR;
                           RGrp 2 (RPlus true isSpace)]))
    with listMaskRegex.
  rewrite (listMask_match ws0 w r H0 Hw).
  cbn [index lastIndex expand group groups Nat.eqb firstn].
  rewrite app_nil_r.
  rewrite (skipn_prefix _ (dropWhile isSpace r) _ _ (run_split ws0 w r) eq_refl).
  cbn [app]. rewrite <- !app_assoc. cbn [app].
  rewrite takeWhile_dropWhile. reflexivity.
Qed.

Lemma spaces_not_uscore ws :
  spaces ws = true -> without USCORE ws = true.
Proof.
  unfold spaces, without. intros H. apply forallb_forall. intros x Hx.
  rewrite forallb_forall in H. specialize (H x Hx).
  unfold isChr. destruct (N.eqb x USCORE) eqn:E; [|reflexivity].
  apply N.eqb_eq in E; subst x. discriminate.
Qed.

Lemma unmask_line ws0 tail :
  spaces ws0 = true ->
  replaceFirst (RLit (js "__LIST__")) [TLit (js "*")]
    (ws0 ++ js "__LIST__" ++ tail)
  = ws0 ++ STAR :: tail.
Proof.
  intros H0. unfold replaceFirst.
  rewrite search_copy.
  - assert (Hm : matchAt (RLit (js "__LIST__")) (length ws0 + 0)
                   (js "__LIST__" ++ tail)
                 = Some (Match (length ws0 + 0) (js "__LIST__") []
                               (8 + (length ws0 + 0)))).
    { unfold matchAt. rewrite rmatch_RLit. cbn [pos caps].
      f_equal. f_equal. apply firstn_whole.
      change (length (js "__LIST__")) with 8. lia. }
    destruct (js "__LIST__" ++ tail) as [|c t] eqn:E; [discriminate|].
    cbn [search]. rewrite Hm. cbn [index lastIndex expand].
    rewrite Nat.add_0_r. rewrite <- E.
    rewrite firstn_app, firstn_all, Nat.sub_diag. cbn [firstn].
    rewrite app_nil_r.
    replace (8 + length ws0) with (length ws0 + 8) by lia.
    rewrite skipn_app, Nat.add_comm, Nat.add_sub.
    rewrite (skipn_all2 ws0) by lia. reflexivity.
  - intros n Hn. apply (needsFirst_matchAt (isChr USCORE)).
    + intros i l cs k Hl. destruct l as [|x t]; [reflexivity|].
      cbn [RLit js map list_ascii_of_string rmatch rest].
      unfold isChr in Hl. change (N_of_ascii "_") with USCORE.
      rewrite Hl. reflexivity.
    + rewrite skipn_app.
      replace (n - length ws0) with 0 by lia. cbn [skipn].
      pose proof (without_head USCORE _
                    (without_skipn USCORE ws0 n (spaces_not_uscore ws0 H0))) as Hh.
      destruct (skipn n ws0) as [|x t] eqn:E.
      * apply (f_equal (@length _)) in E. rewrite length_skipn in E.
        cbn [length] in E. lia.
      * exact Hh.
Qed.

(** A list line with at most one asterisk besides its marker. *)
Lemma list_line_fixed l :
  test listRegex l = true -> stars l <= 2 -> fixEmphasisSpaces l = l.
Proof.
  intros Ht Hs. unfold fixEmphasisSpaces.
  change (js "***") with (repeat STAR 3).
  change (js "**") with (repeat STAR 2).
  change (js "*") with (repeat STAR 1).
  change (TLit (repeat STAR 1)) with (TLit (js "*")).
  destruct (few_stars_fixed 2 l ltac:(lia)) as (B3 & L3 & T3).
  destruct (few_stars_fixed 1 l ltac:(lia)) as (B2 & L2 & T2).
  rewrite B3, L3, T3, B2, L2, T2, Ht.
  destruct (listRegex_shape l Ht) as (ws0 & w & r & -> & H0 & Hw).
  rewrite (mask_line ws0 w r H0 Hw).
  assert (Hm : stars (ws0 ++ js "__LIST__" ++ w :: r) < 2 * 1).
  { rewrite !stars_app in *. change (stars (js "__LIST__")) with 0.
    change (STAR :: w :: r) with ([STAR] ++ w :: r) in Hs.
    rewrite stars_app in Hs. change (stars [STAR]) with 1 in Hs. lia. }
  destruct (few_stars_fixed 0 _ Hm) as (B1 & L1 & T1).
  rewrite B1, L1, T1. apply unmask_line. exact H0.
Qed.

Lemma plain_line_fixed l :
  test listRegex l = false -> stars l < 2 -> fixEmphasisSpaces l = l.
Proof.
  intros Ht Hs. unfold fixEmphasisSpaces.
  change (js "***") with (repeat STAR 3).
  change (js "**") with (repeat STAR 2).
  change (js "*") with (repeat STAR 1).
  change (TLit (repeat STAR 1)) with (TLit (js "*")).
  destruct (few_stars_fixed 2 l ltac:(lia)) as (B3 & L3 & T3).
  destruct (few_stars_fixed 1 l ltac:(lia)) as (B2 & L2 & T2).
  destruct (few_stars_fixed 0 l ltac:(lia)) as (B1 & L1 & T1).
  rewrite B3, L3, T3, B2, L2, T2, Ht, B1, L1, T1. reflexivity.
Qed.

End ListLine.

(** ** [fixEmphasisSpaces] on whole lines *)

Section EmphasisLine.

Lemma no_contact_line l :
  adjacent (isChr STAR) isSpace l = false ->
  adjacent isSpace (isChr STAR) l = false ->
  fixEmphasisSpaces l = l.
Proof.
  intros H1 H2. unfold fixEmphasisSpaces.
  change (js "***") with (repeat STAR 3).
  change (js "**") with (repeat STAR 2).
  change (js "*") with (repeat STAR 1).
  destruct (no_contact_fixed 2 l H1 H2) as (B3 & L3 & T3).
  destruct (no_contact_fixed 1 l H1 H2) as (B2 & L2 & T2).
  destruct (no_contact_fixed 0 l H1 H2) as (B1 & L1 & T1).
  rewrite B3, L3, T3, B2, L2, T2, (listRegex_needs l H1), B1, L1, T1.
  reflexivity.
Qed.

(** A line in which no asterisk stands directly before or directly after
    whitespace comes back as it is: each of the nine patterns, and the list
    pattern, needs such a contact. *)
Theorem fixEmphasisSpaces_no_contact (l : jsstring) :
  adjacent (isChr STAR) isSpace l = false ->
  adjacent isSpace (isChr STAR) l = false ->
  fixEmphasisSpaces l = l.
Proof. intros H1 H2. apply no_contact_line; assumption. Qed.

Lemma fixEmphasisSpaces_no_contact_witness :
  fixEmphasisSpaces (js "2*3 et x**y**z") = js "2*3 et x**y**z".
Proof.
  apply (fixEmphasisSpaces_no_contact (js "2*3 et x**y**z")); reflexivity.
Defined.

(** A line that is one pair of markers of width one, two or three around a
    text, with any whitespace inside the markers, comes back without that
    whitespace.  The text has no asterisk and no line terminator and
    neither begins nor ends with whitespace; for the width one the marker
    is not followed by whitespace, as the line would be a list item. *)
Theorem fixEmphasisSpaces_pair (k : nat) (ws1 t ws2 : jsstring) :
  1 <= k <= 3 ->
  spaces ws1 = true -> spaces ws2 = true -> inner t = true ->
  (k = 1 -> ws1 = []) ->
  fixEmphasisSpaces (repeat STAR k ++ ws1 ++ t ++ ws2 ++ repeat STAR k)
  = repeat STAR k ++ t ++ repeat STAR k.
Proof.
  intros Hk Hs1 Hs2 Ht H1. unfold fixEmphasisSpaces.
  change (js "***") with (repeat STAR 3).
  change (js "**") with (repeat STAR 2).
  change (js "*") with (repeat STAR 1).
  pose proof (pair_stars k ws1 t ws2 Hs1 Hs2 Ht) as Hst.
  destruct k as [|[|[|[|k]]]]; try lia.
  - (* width one *)
    rewrite (H1 eq_refl) in *. cbn [app] in Hst |- *.
    destruct (few_stars_fixed 2 _ ltac:(rewrite Hst; lia)) as (B3 & L3 & T3).
    destruct (few_stars_fixed 1 _ ltac:(rewrite Hst; lia)) as (B2 & L2 & T2).
    rewrite B3, L3, T3, B2, L2, T2.
    pose proof (trail_only_no_star_space 1 t ws2 Hs2 Ht) as Hadj.
    rewrite (listRegex_needs _ Hadj).
    exact (pair_collapsed 0 [] t ws2 eq_refl Hs2 Ht).
  - (* width two *)
    destruct (few_stars_fixed 2 _ ltac:(rewrite Hst; lia)) as (B3 & L3 & T3).
    rewrite B3, L3, T3.
    rewrite (pair_collapsed 1 ws1 t ws2 Hs1 Hs2 Ht).
    destruct (collapsed_no_contact 2 t Ht) as (C1 & C2).
    destruct (no_contact_fixed 0 _ C1 C2) as (B1 & L1 & T1).
    rewrite (listRegex_needs _ C1), B1, L1, T1. reflexivity.
  - (* width three *)
    rewrite (pair_collapsed 2 ws1 t ws2 Hs1 Hs2 Ht).
    destruct (collapsed_no_contact 3 t Ht) as (C1 & C2).
    destruct (no_contact_fixed 1 _ C1 C2) as (B2 & L2 & T2).
    destruct (no_contact_fixed 0 _ C1 C2) as (B1 & L1 & T1).
    rewrite B2, L2, T2, (listRegex_needs _ C1), B1, L1, T1. reflexivity.
Qed.

Lemma fixEmphasisSpaces_pair_witness :
  fixEmphasisSpaces (js "**  un mot gras **") = js "**un mot gras**".
Proof.
  apply (fixEmphasisSpaces_pair 2 (js "  ") (js "un mot gras") (js " "));
    [lia | reflexivity | reflexivity | reflexivity | discriminate].
Defined.

(** A list item with at most one asterisk besides its marker comes back as
    it is: the marker is masked while the patterns of width one run, and put
    back afterwards. *)
Theorem fixEmphasisSpaces_list_item (l : jsstring) :
  test listRegex l = true -> stars l <= 2 -> fixEmphasisSpaces l = l.
Proof. exact (list_line_fixed l). Qed.

Lemma fixEmphasisSpaces_list_item_witness :
  fixEmphasisSpaces (js "  * item *") = js "  * item *".
Proof.
  apply (fixEmphasisSpaces_list_item (js "  * item *")); [reflexivity|].
  vm_compute. lia.
Defined.

(** A line with at most one asterisk comes back as it is, list item or
    not. *)
Theorem fixEmphasisSpaces_one_star (l : jsstring) :
  stars l < 2 -> fixEmphasisSpaces l = l.
Proof.
  intros H. destruct (test listRegex l) eqn:E.
  - apply list_line_fixed; [exact E | lia].
  - apply plain_line_fixed; assumption.
Qed.

Lemma fixEmphasisSpaces_one_star_witness :
  fixEmphasisSpaces (js "prix * 2 ") = js "prix * 2 ".
Proof.
  apply (fixEmphasisSpaces_one_star (js "prix * 2 ")). vm_compute. lia.
Defined.

End EmphasisLine.

(** ** [reorderMarkers] as a rearrangement *)

Section Rearrangement.

(** [reorderMarkers] only moves characters: its result is a permutation of
    the line, and so has its length. *)
Theorem reorderMarkers_permutes (line : jsstring) :
  Permutation (reorderMarkers line) line
  /\ length (reorderMarkers line) = length line.
Proof.
  split; [apply reorder_perm|]. apply Permutation_length. apply reorder_perm.
Qed.

Lemma posSum_bound c l : forall i, posSum c i l <= length l * (i + length l).
Proof.
  induction l as [|x t IH]; intros i; [simpl; lia|].
  cbn [posSum length]. specialize (IH (S i)).
  destruct (N.eqb x c); nia.
Qed.

Lemma settles m : forall l,
  posSum LAQUO 0 l + (length l * length l - posSum RAQUO 0 l) <= m ->
  exists n, n <= m /\ settled (Nat.iter n reorderMarkers l) = true.
Proof.
  induction m as [|m IH]; intros l Hm;
    (destruct (settled l) eqn:Hs; [exists 0; split; [lia | exact Hs]|]).
  - pose proof (posSum_bound RAQUO (reorderMarkers l) 0) as Hb.
    pose proof (Permutation_length (reorder_perm l)) as Hl.
    rewrite Hl in Hb. cbn [Nat.add] in Hb.
    pose proof (reorder_open_le l). pose proof (reorder_close_ge l).
    destruct (reorder_progress l Hs); lia.
  - pose proof (posSum_bound RAQUO (reorderMarkers l) 0) as Hb.
    pose proof (Permutation_length (reorder_perm l)) as Hl.
    rewrite Hl in Hb. cbn [Nat.add] in Hb.
    pose proof (reorder_open_le l). pose proof (reorder_close_ge l).
    destruct (IH (reorderMarkers l)) as (n & Hn & Hset).
    + rewrite Hl. destruct (reorder_progress l Hs); lia.
    + exists (S n). split; [lia|]. rewrite Nat.iter_succ_r. exact Hset.
Qed.

(** Applied again and again, [reorderMarkers] reaches a line that it leaves
    unchanged, after at most twice the square of the length of the line
    applications: every guillemet ends outside the asterisks next to it. *)
Theorem reorderMarkers_stabilises (line : jsstring) :
  exists n,
    n <= 2 * (length line * length line)
    /\ settled (Nat.iter n reorderMarkers line) = true
    /\ reorderMarkers (Nat.iter n reorderMarkers line)
       = Nat.iter n reorderMarkers line.
Proof.
  pose proof (posSum_bound LAQUO line 0) as Hb. cbn [Nat.add] in Hb.
  destruct (settles (2 * (length line * length line)) line ltac:(lia))
    as (n & Hn & Hs).
  exists n. repeat split; try assumption.
  apply reorderMarkers_settled. exact Hs.
Qed.

End Rearrangement.

(** ** Two emphasised texts on one line *)

Section Neighbours.

(** A marker of two asterisks or more needs two asterisks in a row. *)
Lemma wide_marker_needs k s s1 :
  matches (emphBoth (repeat STAR (S (S k)))) s s1
  \/ matches (emphLead (repeat STAR (S (S k)))) s s1
  \/ matches (emphTrail (repeat STAR (S (S k)))) s s1 ->
  adjacent (isChr STAR) (isChr STAR) (rest s) = true.
Proof.
  intros [H | [H | H]].
  - destruct (emphBoth_inv _ _ _ H) as (w1 & ws1 & g & w2 & ws2 & Hr & _).
    rewrite Hr. apply (adjacent_intro _ _ []); reflexivity.
  - destruct (emphLead_inv _ _ _ H) as (w1 & ws1 & g & Hr & _).
    rewrite Hr. apply (adjacent_intro _ _ []); reflexivity.
  - destruct (emphTrail_inv _ _ _ H) as (g & w2 & ws2 & Hr & _).
    rewrite Hr. apply (adjacent_intro _ _ []); reflexivity.
Qed.

Lemma no_pair_fixed k l :
  adjacent (isChr STAR) (isChr STAR) l = false ->
  replaceAll (emphBoth (repeat STAR (S (S k)))) tpl123 l = l
  /\ replaceAll (emphLead (repeat STAR (S (S k)))) tpl123 l = l
  /\ replaceAll (emphTrail (repeat STAR (S (S k)))) tpl123 l = l.
Proof.
  intros H. repeat split; apply replaceAll_none; intros n j s1 Hm;
    [ pose proof (wide_marker_needs k _ _ (or_introl Hm)) as Ha
    | pose proof (wide_marker_needs k _ _ (or_intror (or_introl Hm))) as Ha
    | pose proof (wide_marker_needs k _ _ (or_intror (or_intror Hm))) as Ha ];
    cbn [rest] in Ha; rewrite (adjacent_skipn _ _ l n Ha) in H; discriminate.
Qed.

Lemma adj_drop p q x t :
  match t with [] => True | y :: _ => q y = false end ->
  adjacent p q (x :: t) = adjacent p q t.
Proof.
  intros H. cbn [adjacent]. destruct t as [|y t'];
    [rewrite andb_false_r; reflexivity|].
  rewrite H, andb_false_r. reflexivity.
Qed.

Lemma adj_inner_star q t l :
  inner t = true ->
  adjacent (isChr STAR) q (t ++ l) = adjacent (isChr STAR) q l.
Proof. intros H. apply adj_skip_p. apply (inner_facts t H). Qed.

Lemma adj_inner_space t l :
  inner t = true ->
  adjacent isSpace (isChr STAR) (t ++ l) = adjacent isSpace (isChr STAR) l.
Proof.
  intros H. destruct (inner_facts t H) as (_ & Hs & _ & (t' & x & E & Hx)).
  rewrite E in Hs |- *. apply adj_last; assumption.
Qed.

Lemma spaces_head_not_star ws l :
  spaces ws = true -> ws <> [] ->
  match ws ++ l with [] => True | y :: _ => isChr STAR y = false end.
Proof.
  intros H Hne. destruct ws as [|w ws]; [congruence|]. cbn [app].
  unfold spaces in H. cbn [forallb] in H. apply andb_true_iff in H as [H _].
  apply space_not_star. exact H.
Qed.

(** The line of two emphasised texts [a] and [c] with the text [b] between
    them, and what becomes of it. *)
Let before (a ws1 b ws2 c : jsstring) : jsstring :=
  STAR :: a ++ STAR :: ws1 ++ b ++ ws2 ++ STAR :: c ++ [STAR].
Let after (a b c : jsstring) : jsstring :=
  STAR :: a ++ STAR :: b ++ STAR :: c ++ [STAR].

Lemma before_no_pair a ws1 b ws2 c :
  inner a = true -> inner b = true -> inner c = true ->
  spaces ws1 = true -> spaces ws2 = true -> ws1 <> [] ->
  adjacent (isChr STAR) (isChr STAR) (before a ws1 b ws2 c) = false.
Proof.
  intros Ha Hb Hc H1 H2 Hne. unfold before.
  rewrite adj_drop by apply (inner_head_star a _ Ha).
  rewrite (adj_inner_star _ a _ Ha).
  rewrite adj_drop by (apply spaces_head_not_star; assumption).
  rewrite adj_skip_p by (apply spaces_not_star; exact H1).
  rewrite (adj_inner_star _ b _ Hb).
  rewrite adj_skip_p by (apply spaces_not_star; exact H2).
  rewrite adj_drop by apply (inner_head_star c _ Hc).
  rewrite (adj_inner_star _ c _ Hc). reflexivity.
Qed.

Lemma after_no_contact a b c :
  inner a = true -> inner b = true -> inner c = true ->
  adjacent (isChr STAR) isSpace (after a b c) = false
  /\ adjacent isSpace (isChr STAR) (after a b c) = false.
Proof.
  intros Ha Hb Hc. unfold after. split.
  - rewrite adj_drop by apply (inner_head a _ Ha).
    rewrite (adj_inner_star _ a _ Ha).
    rewrite adj_drop by apply (inner_head b _ Hb).
    rewrite (adj_inner_star _ b _ Hb).
    rewrite adj_drop by apply (inner_head c _ Hc).
    rewrite (adj_inner_star _ c _ Hc). reflexivity.
  - rewrite adj_drop by apply (inner_head_star a _ Ha).
    rewrite (adj_inner_space a _ Ha).
    rewrite adj_drop by apply (inner_head_star b _ Hb).
    rewrite (adj_inner_space b _ Hb).
    rewrite adj_drop by apply (inner_head_star c _ Hc).
    rewrite (adj_inner_space c _ Hc). reflexivity.
Qed.

Lemma before_not_list a ws1 b ws2 c :
  inner a = true -> test listRegex (before a ws1 b ws2 c) = false.
Proof.
  intros Ha. destruct (test listRegex _) eqn:E; [|reflexivity].
  destruct (listRegex_shape _ E) as (ws0 & w & r & Hl & H0 & Hw).
  destruct (inner_facts a Ha) as (_ & _ & (x & a' & -> & Hx) & _).
  unfold before in Hl. cbn [app] in Hl.
  destruct ws0 as [|s ws0]; cbn [app] in Hl.
  - injection Hl as Hxw _. subst w. congruence.
  - injection Hl as Hs _. subst s. unfold spaces in H0. discriminate.
Qed.

(** The pass of width one for whitespace on both sides takes the closing
    asterisk of the first text and the opening asterisk of the second for a
    pair. *)
Lemma before_both a w1 ws1 b w2 ws2 c :
  inner a = true -> inner b = true -> inner c = true ->
  isSpace w1 = true -> spaces ws1 = true ->
  isSpace w2 = true -> spaces ws2 = true ->
  replaceAll (emphBoth [STAR]) tpl123 (before a (w1 :: ws1) b (w2 :: ws2) c)
  = after a b c.
Proof.
  intros Ha Hb Hc Hw1 Hs1 Hw2 Hs2.
  destruct (inner_facts a Ha) as (_ & Has & (x & a' & Ea & Hx) & _).
  destruct (inner_facts c Hc) as (_ & Hcs & _).
  unfold replaceAll, replaceAllWith, before, after.
  set (f := fun (_ : unit) (m : rmatch_result) => (expand tpl123 m, tt)).
  set (mid := [STAR] ++ (w1 :: ws1) ++ b ++ (w2 :: ws2) ++ [STAR]).
  change (STAR :: a ++ STAR :: (w1 :: ws1) ++ b ++ (w2 :: ws2) ++ STAR :: c ++ [STAR])
    with ((STAR :: a) ++ [STAR] ++ (w1 :: ws1) ++ b ++ (w2 :: ws2) ++ [STAR]
          ++ c ++ [STAR]).
  rewrite replaceLoop_copy.
  - cbn [fst].
    pose proof (emphBoth_hit [] (length (STAR :: a) + 0) w1 ws1 b w2 ws2
                  (c ++ [STAR]) Hw1 Hs1 Hb Hw2 Hs2) as Hhit.
    fold mid in Hhit.
    assert (Hlen : length mid = S (length mid - 1))
      by (unfold mid; cbn [length app]; lia).
    rewrite (replaceLoop_hit unit _ f _ _ tt _ (length mid - 1) Hhit).
    + cbn [fst snd f expand tpl123 group groups Nat.eqb].
      rewrite <- Hlen.
      replace ([STAR] ++ (w1 :: ws1) ++ b ++ (w2 :: ws2) ++ [STAR] ++ c ++ [STAR])
        with (mid ++ c ++ [STAR])
        by (unfold mid; rewrite <- !app_assoc; reflexivity).
      rewrite skipn_app, skipn_all, Nat.sub_diag. cbn [skipn app].
      rewrite replaceLoop_id.
      * cbn [fst app]. rewrite <- !app_assoc. reflexivity.
      * intros n j. apply matchAt_none_by. intros s1 Hm.
        destruct (emphBoth_needs 0 _ _ Hm) as (_ & _ & Hst). cbn [rest] in Hst.
        pose proof (stars_skipn (c ++ [STAR]) n) as Hle.
        rewrite stars_app, (stars_none c Hcs) in Hle.
        change (stars [STAR]) with 1 in Hle. lia.
    + cbn [lastIndex]. lia.
    + rewrite !length_app. unfold mid. rewrite !length_app. cbn [length]. lia.
  - intros n j Hn. destruct n as [|n].
    + cbn [skipn]. apply matchAt_none_by. intros s1 Hm.
      destruct (emphBoth_inv _ _ _ Hm) as (v1 & vs1 & g & v2 & vs2 & Hr & Hv & _).
      cbn [rest] in Hr. rewrite Ea in Hr. cbn [app] in Hr.
      injection Hr as Hr _. subst v1. congruence.
    + apply (needsFirst_matchAt (isChr STAR));
        [apply (needsFirst_emphBoth 1); lia|].
      cbn [skipn app]. rewrite skipn_app.
      cbn [length] in Hn.
      replace (n - length a) with 0 by lia. cbn [skipn].
      pose proof (without_head STAR _ (without_skipn STAR a n Has)) as Hh.
      destruct (skipn n a) as [|y t] eqn:E; [|exact Hh].
      apply (f_equal (@length _)) in E. rewrite length_skipn in E.
      cbn [length] in E. lia.
Qed.

(** Two emphasised texts on a line, with a text between them that is set
    off by whitespace, are joined to it: the whitespace after the closing
    asterisk of the first and before the opening asterisk of the second is
    removed. *)
Theorem fixEmphasisSpaces_joins_neighbours (a ws1 b ws2 c : jsstring) :
  inner a = true -> inner b = true -> inner c = true ->
  spaces ws1 = true -> ws1 <> [] -> spaces ws2 = true -> ws2 <> [] ->
  fixEmphasisSpaces
    (STAR :: a ++ STAR :: ws1 ++ b ++ ws2 ++ STAR :: c ++ [STAR])
  = STAR :: a ++ STAR :: b ++ STAR :: c ++ [STAR].
Proof.
  intros Ha Hb Hc H1 Hn1 H2 Hn2. unfold fixEmphasisSpaces.
  change (js "***") with (repeat STAR 3).
  change (js "**") with (repeat STAR 2).
  change (js "*") with (repeat STAR 1).
  pose proof (before_no_pair a ws1 b ws2 c Ha Hb Hc H1 H2 Hn1) as Hp.
  unfold before in Hp.
  destruct (no_pair_fixed 1 _ Hp) as (B3 & L3 & T3).
  destruct (no_pair_fixed 0 _ Hp) as (B2 & L2 & T2).
  rewrite B3, L3, T3, B2, L2, T2.
  pose proof (before_not_list a ws1 b ws2 c Ha) as Hl. unfold before in Hl.
  rewrite Hl.
  destruct ws1 as [|w1 ws1]; [congruence|].
  destruct ws2 as [|w2 ws2]; [congruence|].
  unfold spaces in H1, H2. cbn [forallb] in H1, H2.
  apply andb_true_iff in H1 as [Hw1 H1]. apply andb_true_iff in H2 as [Hw2 H2].
  pose proof (before_both a w1 ws1 b w2 ws2 c Ha Hb Hc Hw1 H1 Hw2 H2) as Hb1.
  unfold before, after in Hb1. change (repeat STAR 1) with [STAR].
  rewrite Hb1.
  destruct (after_no_contact a b c Ha Hb Hc) as (C1 & C2). unfold after in C1, C2.
  destruct (no_contact_fixed 0 _ C1 C2) as (_ & L1 & T1).
  change (repeat STAR 1) with [STAR] in L1, T1.
  rewrite L1, T1. reflexivity.
Qed.

Lemma fixEmphasisSpaces_joins_neighbours_witness :
  fixEmphasisSpaces (js "*un* et *deux*") = js "*un*et*deux*".
Proof.
  apply (fixEmphasisSpaces_joins_neighbours
           (js "un") (js " ") (js "et") (js " ") (js "deux"));
    first [reflexivity | discriminate].
Defined.

End Neighbours.

(** ** The quote scan and the pipeline on prose *)

Section Prose.

(** [isAlphanumeric] holds of the strings of one character of the class,
    and of no other string: the pattern is anchored at both ends. *)
Theorem isAlphanumeric_single_char (char : jsstring) :
  isAlphanumeric char = true <-> exists c, char = [c] /\ alnumClass c = true.
Proof.
  unfold isAlphanumeric, test. cbn [seqs]. rewrite anchored_search.
  unfold matchAt. rewrite rmatch_seq, rmatch_bol, rmatch_seq.
  destruct char as [|c [|d t]]; cbn [rmatch rest pos caps].
  - split; [discriminate | intros (c & E & _); discriminate].
  - destruct (alnumClass c) eqn:E.
    + split; [intros _; exists c; split; [reflexivity | exact E] | reflexivity].
    + split; [discriminate|]. intros (c' & Hc & Ha).
      injection Hc as <-. congruence.
  - destruct (alnumClass c); (split; [discriminate|]);
      intros (c' & Hc & _); discriminate.
Qed.

(** The quote scan of a line is idempotent: scanning its own output from
    the same state gives the same line and the same final state. *)
Theorem quoteLoop_idempotent (line : jsstring) (isDialogueOpen : bool) :
  quoteLoop (snd (quoteLoop line isDialogueOpen)) isDialogueOpen
  = quoteLoop line isDialogueOpen.
Proof. apply quoteLoop_idem. Qed.

(** After the scan a straight quote is left only between two alphanumeric
    characters, where the input had it. *)
Theorem quoteLoop_leaves_internal_quotes (line : jsstring)
    (isDialogueOpen : bool) (j : nat) :
  j < length line ->
  nth j (snd (quoteLoop line isDialogueOpen)) SP = APOS
  \/ nth j (snd (quoteLoop line isDialogueOpen)) SP = DQUOTE ->
  internalQuote line j = true
  /\ nth j line SP = nth j (snd (quoteLoop line isDialogueOpen)) SP.
Proof.
  intros Hj. rewrite (quoteLoop_nth line isDialogueOpen j Hj). cbv zeta.
  destruct (N.eqb (nth j line SP) LAQUO) eqn:E1.
  { apply N.eqb_eq in E1. rewrite E1. intros [H | H]; discriminate. }
  destruct (N.eqb (nth j line SP) RAQUO) eqn:E2.
  { apply N.eqb_eq in E2. rewrite E2. intros [H | H]; discriminate. }
  destruct (N.eqb (nth j line SP) APOS || N.eqb (nth j line SP) DQUOTE)%bool eqn:E3.
  - destruct (internalQuote line j).
    + intros _. split; reflexivity.
    + destruct (dialogueAt line isDialogueOpen j); intros [H | H]; discriminate.
  - apply orb_false_iff in E3 as [Ea Ed].
    intros [H | H]; rewrite H in *; discriminate.
Qed.

Lemma quoteLoop_leaves_internal_quotes_witness :
  internalQuote (js "l'arbre") 1 = true
  /\ nth 1 (js "l'arbre") SP = nth 1 (snd (quoteLoop (js "l'arbre") false)) SP.
Proof.
  apply (quoteLoop_leaves_internal_quotes (js "l'arbre") false 1);
    [vm_compute; lia | left; reflexivity].
Defined.

Lemma Forall2_by_nth (R : cu -> cu -> Prop) : forall a b : jsstring,
  length a = length b ->
  (forall j, j < length a -> R (nth j a SP) (nth j b SP)) ->
  Forall2 R a b.
Proof.
  induction a as [|x a IH]; intros [|y b] Hl H; try discriminate.
  - constructor.
  - constructor.
    + apply (H 0). cbn [length]. lia.
    + apply IH; [cbn [length] in Hl; lia|].
      intros j Hj. apply (H (S j)). cbn [length]. lia.
Qed.

Lemma quoteChange_refl c : quoteChange c c = true.
Proof. unfold quoteChange. rewrite N.eqb_refl. reflexivity. Qed.

Lemma quoteLoop_pointwise line st :
  Forall2 (fun c c' => quoteChange c c' = true) line (snd (quoteLoop line st)).
Proof.
  apply Forall2_by_nth; [symmetry; apply quoteLoop_length|].
  intros j Hj. rewrite (quoteLoop_nth line st j Hj). cbv zeta.
  destruct (N.eqb (nth j line SP) LAQUO); [apply quoteChange_refl|].
  destruct (N.eqb (nth j line SP) RAQUO); [apply quoteChange_refl|].
  destruct (N.eqb (nth j line SP) APOS || N.eqb (nth j line SP) DQUOTE)%bool eqn:E;
    [|apply quoteChange_refl].
  destruct (internalQuote line j); [apply quoteChange_refl|].
  unfold quoteChange. rewrite E.
  destruct (dialogueAt line st j); cbn; apply orb_true_r.
Qed.

Lemma quoteLines_pointwise ls : forall st,
  Forall2 (Forall2 (fun c c' => quoteChange c c' = true)) ls
          (fst (quoteLines ls st)).
Proof.
  induction ls as [|l ls IH]; intros st; [constructor|].
  cbn [quoteLines].
  pose proof (quoteLoop_pointwise l st) as Hl.
  destruct (quoteLoop l st) as [st1 out]. cbn [snd] in Hl.
  specialize (IH st1). destruct (quoteLines ls st1) as [os st2].
  cbn [fst] in *. constructor; assumption.
Qed.

Lemma join_pointwise (R : cu -> cu -> Prop) sep a b :
  Forall2 R sep sep -> Forall2 (Forall2 R) a b ->
  Forall2 R (join sep a) (join sep b).
Proof.
  intros Hs H. induction H as [|x y a b Hxy Hab IH]; [constructor|].
  destruct Hab as [|x2 y2 a b Hxy2 Hab].
  - exact Hxy.
  - change (Forall2 R (x ++ sep ++ join sep (x2 :: a))
                      (y ++ sep ++ join sep (y2 :: b))).
    apply Forall2_app; [exact Hxy|]. apply Forall2_app; [exact Hs | exact IH].
Qed.

(** On text without asterisk, backtick and underscore the pipeline works
    character for character: each character stays, or is a straight quote
    that becomes a guillemet.  In particular the text keeps its length and
    its line breaks. *)
Theorem process_changes_quotes_only (text : jsstring) :
  plainText text = true ->
  Forall2 (fun c c' => quoteChange c c' = true) text (process text).
Proof.
  intros H. rewrite (process_plain text H).
  destruct text as [|c t]; [constructor|].
  rewrite <- (join_split LF (c :: t)) at 1.
  apply join_pointwise.
  - constructor; [reflexivity | constructor].
  - apply quoteLines_pointwise.
Qed.

Lemma process_changes_quotes_only_witness :
  Forall2 (fun c c' => quoteChange c c' = true) twoPairs (process twoPairs).
Proof. apply (process_changes_quotes_only twoPairs). reflexivity. Defined.

End Prose.

(** ** Extraction and restoration of the protected fragments *)

Section Extraction.

(** *** The decimal index of a token *)

Lemma digits_of_uint d :
  forallb isDigit (js (NilEmpty.string_of_uint d)) = true.
Proof. induction d; [reflexivity | exact IHd ..]. Qed.

Lemma parseInt_of_uint d : forall acc,
  N.to_nat (fold_left (fun acc d => acc * 10 + (d - 48))%N
                      (js (NilEmpty.string_of_uint d)) acc)
  = Nat.of_uint_acc d (N.to_nat acc).
Proof.
  induction d; intros acc;
    [reflexivity
    | cbn [NilEmpty.string_of_uint js list_ascii_of_string map fold_left
           Nat.of_uint_acc];
      rewrite IHd, Nat.tail_mul_spec; f_equal;
      match goal with
      | |- context [N_of_ascii ?a] =>
          let v := eval vm_compute in (N_of_ascii a) in
          change (N_of_ascii a) with v
      end; lia ..].
Qed.

Lemma parseInt_decimal n : N.to_nat (parseInt (decimal n)) = n.
Proof.
  unfold parseInt, decimal. rewrite parseInt_of_uint.
  exact (DecimalNat.Unsigned.of_to n).
Qed.

Lemma decimal_digits n : forallb isDigit (decimal n) = true.
Proof. apply digits_of_uint. Qed.

Lemma decimal_nonempty n : decimal n <> [].
Proof.
  unfold decimal. intros E.
  assert (Hn : Nat.to_uint n = Decimal.Nil)
    by (destruct (Nat.to_uint n); [reflexivity | discriminate ..]).
  pose proof (DecimalNat.Unsigned.of_to n) as H. rewrite Hn in H.
  subst n. discriminate.
Qed.

(** *** What the extraction pattern matches *)

Lemma extract_inv i l s1 :
  matches extractRegex (MState i l []) s1 ->
  exists run,
    l = run ++ rest s1 /\ backticks run = true /\ pos s1 = length run + i.
Proof.
  unfold extractRegex, RPlus. cbn [seqs].
  set (fence := RLit (js "```")). intros H.
  inversion H as [| | | | | | | | | |n r s0 s2 Hg]; subst; clear H.
  cbn [pos rest].
  inversion Hg as [| | | | | |r1 r2 s0 s3 Ha|r1 r2 s0 s3 Hb| | |]; subst; clear Hg.
  - (* two backticks, a lazy run, then a fence or the end *)
    repeat match goal with
           | H : matches (RSeq _ _) _ _ |- _ => inversion H; subst; clear H
           | H : matches (RChr _) _ _ |- _ => inversion H; subst; clear H
           end.
    match goal with
    | H : matches (RStar _ _) _ _ |- _ =>
        apply matches_star_inv in H;
        destruct H as (ws & Hr & Hp & Hpos & _); cbn [rest pos] in Hr, Hpos
    end.
    subst t.
    match goal with
    | H : matches (RAlt _ _) _ _ |- _ => inversion H; subst; clear H
    end.
    + subst fence.
      match goal with
      | H : matches (RLit _) _ _ |- _ =>
          apply matches_RLit_inv in H; destruct H as (Hr2 & Hp2 & _)
      end.
      exists (BTICK :: BTICK :: ws ++ js "```").
      rewrite Hr2, Hp2, Hpos. repeat split.
      * cbn [app]. rewrite <- app_assoc. reflexivity.
      * unfold backticks. cbn [forallb length Nat.leb].
        rewrite forallb_app, Hp. reflexivity.
      * cbn [length]. rewrite length_app.
        change (length (js "```")) with 3. lia.
    + match goal with
      | H : matches REol _ _ |- _ => inversion H; subst; clear H
      end.
      cbn [rest pos] in *. exists (BTICK :: BTICK :: ws).
      rewrite Hpos. repeat split.
      * unfold backticks. cbn [forallb length Nat.leb]. rewrite Hp. reflexivity.
      * cbn [length]. lia.
  - (* a greedy run and one more backtick *)
    repeat match goal with
           | H : matches (RSeq _ _) _ _ |- _ => inversion H; subst; clear H
           | H : matches (RSet _) _ _ |- _ => inversion H; subst; clear H
           end.
    match goal with
    | H : matches (RChr _) _ _ |- _ => inversion H; subst; clear H
    end.
    match goal with
    | H : matches (RStar _ _) _ _ |- _ =>
        apply matches_star_inv in H;
        destruct H as (ws & Hr & Hp & Hpos & _); cbn [rest pos] in Hr, Hpos
    end.
    cbn [rest pos]. subst.
    match goal with
    | Hx : isChr BTICK ?x = true |- _ =>
        exists (x :: ws ++ [BTICK]); repeat split;
        [ cbn [app]; rewrite <- app_assoc; reflexivity
        | unfold backticks; cbn [forallb length]; rewrite Hx, forallb_app, Hp;
          rewrite length_app; cbn [length forallb];
          replace (length ws + 1) with (S (length ws)) by lia; reflexivity
        | cbn [length]; rewrite length_app; cbn [length]; lia ]
    end.
Qed.

Lemma extract_match i l m :
  matchAt extractRegex i l = Some m ->
  exists run post,
    l = run ++ post /\ backticks run = true
    /\ matched m = run /\ lastIndex m = length run + i.
Proof.
  unfold matchAt.
  destruct (rmatch extractRegex (MState i l []) Some) as [e|] eqn:E;
    [|discriminate].
  intros H. injection H as <-.
  apply rmatch_sound in E. destruct E as (s1 & Hm & Hs). injection Hs as ->.
  destruct (extract_inv i l e Hm) as (run & Hl & Hb & Hp).
  exists run, (rest e). cbn [matched lastIndex]. repeat split; try assumption.
  rewrite Hp. replace (length run + i - i) with (length run) by lia.
  rewrite Hl at 1. apply firstn_whole. reflexivity.
Qed.

(** *** The fragments that the callback stores *)

Lemma replaceLoop_pushed (P : jsstring -> Prop) r :
  (forall i l m, matchAt r i l = Some m -> P (matched m)) ->
  forall l i skip acc, Forall P acc ->
  Forall P (snd (replaceLoop r extractCallback i l skip acc)).
Proof.
  intros HP. induction l as [|c t IH]; intros i skip acc Hacc.
  - destruct skip; cbn [replaceLoop]; [|exact Hacc].
    destruct (matchAt r i []) as [m|] eqn:E; [|exact Hacc].
    cbn [extractCallback snd]. apply Forall_app. split; [exact Hacc|].
    constructor; [exact (HP _ _ _ E) | constructor].
  - destruct skip as [|n]; cbn [replaceLoop]; [|apply IH; exact Hacc].
    destruct (matchAt r i (c :: t)) as [m|] eqn:E.
    + cbn [extractCallback].
      assert (Hacc' : Forall P (acc ++ [matched m])).
      { apply Forall_app. split; [exact Hacc|].
        constructor; [exact (HP _ _ _ E) | constructor]. }
      destruct (lastIndex m - i) as [|n].
      * pose proof (IH (S i) 0 _ Hacc') as X.
        destruct (replaceLoop r extractCallback (S i) t 0 (acc ++ [matched m])).
        exact X.
      * pose proof (IH (S i) n _ Hacc') as X.
        destruct (replaceLoop r extractCallback (S i) t n (acc ++ [matched m])).
        exact X.
    + pose proof (IH (S i) 0 _ Hacc) as X.
      destruct (replaceLoop r extractCallback (S i) t 0 acc). exact X.
Qed.

(** Every fragment that the extraction of [process] stores, to protect it
    from the typographic rules, is a run of two backticks or more: no
    character of the code between the delimiters is ever stored. *)
Theorem extraction_stores_backticks (text : jsstring) :
  Forall (fun fragment => backticks fragment = true)
         (snd (replaceAllWith extractRegex extractCallback text [])).
Proof.
  unfold replaceAllWith. apply replaceLoop_pushed; [|constructor].
  intros i l m H. destruct (extract_match i l m H) as (run & post & _ & Hb & -> & _).
  exact Hb.
Qed.

(** *** Extraction, then restoration *)

Lemma restoreTokens_copy phs pre s :
  without USCORE pre = true ->
  restoreTokens phs (pre ++ s) = pre ++ restoreTokens phs s.
Proof.
  intros Hpre. unfold restoreTokens, replaceAllWith.
  rewrite replaceLoop_copy.
  - cbn [fst]. f_equal.
    pose proof (replaceLoop_shift unit tokenRegex (restoreCallback phs)
                  (length pre + 0) eq_refl (fun a m0 => eq_refl) s 0 0 tt) as E.
    rewrite !Nat.add_0_r in E. rewrite Nat.add_0_r. exact (f_equal fst E).
  - intros n j Hn. apply (needsFirst_matchAt (isChr USCORE));
      [exact needsFirst_token|].
    rewrite skipn_app.
    replace (n - length pre) with 0 by lia. cbn [skipn].
    pose proof (without_head USCORE _ (without_skipn USCORE pre n Hpre)) as Hh.
    destruct (skipn n pre) as [|x t] eqn:E; [|exact Hh].
    apply (f_equal (@length _)) in E. rewrite length_skipn in E.
    simpl in E. lia.
Qed.

Lemma extract_restore n : forall l i acc,
  length l <= n -> without USCORE l = true ->
  exists new,
    snd (replaceLoop extractRegex extractCallback i l 0 acc) = acc ++ new
    /\ forall phs,
         firstn (length (acc ++ new)) phs = acc ++ new ->
         restoreTokens phs
           (fst (replaceLoop extractRegex extractCallback i l 0 acc)) = l.
Proof.
  induction n as [|n IH]; intros l i acc Hn Hu.
  - destruct l; [|cbn [length] in Hn; lia].
    exists []. split; [rewrite app_nil_r; reflexivity|]. intros phs _. reflexivity.
  - destruct l as [|c t].
    { exists []. split; [rewrite app_nil_r; reflexivity|]. intros phs _. reflexivity. }
    destruct (matchAt extractRegex i (c :: t)) as [m|] eqn:E.
    + destruct (extract_match i (c :: t) m E) as (run & post & Hl & Hb & Hm & Hli).
      unfold backticks in Hb. apply andb_true_iff in Hb as [Hbt Hlen].
      apply Nat.leb_le in Hlen.
      assert (Hrl : length run <= length (c :: t)).
      { rewrite Hl, length_app. lia. }
      rewrite (replaceLoop_hit _ extractRegex extractCallback i (c :: t) acc m
                 (length run - 1) E) by lia.
      cbn [fst snd extractCallback]. rewrite Hm.
      replace (S (length run - 1)) with (length run) by lia.
      rewrite (skipn_prefix run post (c :: t) _ Hl eq_refl).
      assert (Hup : without USCORE post = true).
      { rewrite Hl, without_app in Hu. apply andb_true_iff in Hu. apply Hu. }
      destruct (IH post (length run + i) (acc ++ [run])) as (new & Hs & Hr);
        [ rewrite Hl, length_app in Hn; lia | exact Hup |].
      exists (run :: new). split.
      * rewrite Hs, <- app_assoc. reflexivity.
      * intros phs Hphs. rewrite Hl.
        change (placeholder (length acc)) with (tokenText (decimal (length acc))).
        rewrite <- (app_nil_l (tokenText (decimal (length acc)) ++ _)).
        rewrite restoreTokens_token;
          [| reflexivity | apply decimal_nonempty | apply decimal_digits].
        rewrite parseInt_decimal. cbn [app].
        assert (Hnth : nth_error phs (length acc) = Some run).
        { rewrite <- (firstn_skipn (length (acc ++ run :: new)) phs), Hphs.
          rewrite <- app_assoc, nth_error_app2 by lia.
          rewrite Nat.sub_diag. reflexivity. }
        rewrite Hnth. f_equal. apply Hr.
        replace ((acc ++ [run]) ++ new) with (acc ++ run :: new)
          by (rewrite <- app_assoc; reflexivity).
        exact Hphs.
    + rewrite (replaceLoop_miss _ extractRegex extractCallback i c t acc E).
      cbn [fst snd].
      assert (Hc : without USCORE [c] = true /\ without USCORE t = true).
      { change (c :: t) with ([c] ++ t) in Hu. rewrite without_app in Hu.
        apply andb_true_iff in Hu. exact Hu. }
      destruct Hc as [Hc Ht].
      destruct (IH t (S i) acc) as (new & Hs & Hr);
        [cbn [length] in Hn; lia | exact Ht |].
      exists new. split; [exact Hs|]. intros phs Hphs.
      change (c :: fst (replaceLoop extractRegex extractCallback (S i) t 0 acc))
        with ([c] ++ fst (replaceLoop extractRegex extractCallback (S i) t 0 acc)).
      rewrite (restoreTokens_copy phs [c] _ Hc). cbn [app]. f_equal.
      apply Hr. exact Hphs.
Qed.

Lemma extract_restore_eq text :
  without USCORE text = true ->
  restoreTokens (snd (replaceAllWith extractRegex extractCallback text []))
                (fst (replaceAllWith extractRegex extractCallback text []))
  = text.
Proof.
  intros Hu. unfold replaceAllWith.
  destruct (extract_restore (length text) text 0 [] (Nat.le_refl _) Hu)
    as (new & Hs & Hr).
  apply Hr. rewrite Hs. apply firstn_all.
Qed.

(** On a text without underscore, restoring the tokens of the extracted
    text with the fragments stored gives the text back: the two
    replacements of [process] that protect the fragments are inverse to
    each other when nothing is done in between. *)
Theorem extraction_then_restoration (text : jsstring) :
  without USCORE text = true ->
  restoreTokens (snd (replaceAllWith extractRegex extractCallback text []))
                (fst (replaceAllWith extractRegex extractCallback text []))
  = text.
Proof. apply extract_restore_eq. Qed.

Lemma extraction_then_restoration_witness :
  restoreTokens
    (snd (replaceAllWith extractRegex extractCallback (js "a ``b`` c ```") []))
    (fst (replaceAllWith extractRegex extractCallback (js "a ``b`` c ```") []))
  = js "a ``b`` c ```".
Proof.
  apply (extraction_then_restoration (js "a ``b`` c ```")). reflexivity.
Defined.

End Extraction.

(** ** The pipeline on text that has backticks and nothing else to change *)

Section CodeKept.

Lemma replaceLoop_without (A : Type) c r (f : A -> rmatch_result -> jsstring * A) :
  (forall a m, without c (fst (f a m)) = true) ->
  forall l i skip a, without c l = true ->
  without c (fst (replaceLoop r f i l skip a)) = true.
Proof.
  intros Hf. induction l as [|x t IH]; intros i skip a Hl.
  - destruct skip; cbn [replaceLoop]; [|reflexivity].
    destruct (matchAt r i []) as [m|]; [|reflexivity].
    specialize (Hf a m). destruct (f a m) as [out a1]. exact Hf.
  - assert (Hx : without c [x] = true /\ without c t = true).
    { change (x :: t) with ([x] ++ t) in Hl. rewrite without_app in Hl.
      apply andb_true_iff in Hl. exact Hl. }
    destruct Hx as [Hx Ht].
    destruct skip as [|n]; cbn [replaceLoop]; [|apply IH; exact Ht].
    destruct (matchAt r i (x :: t)) as [m|].
    + specialize (Hf a m). destruct (f a m) as [out a1]. cbn [fst] in Hf.
      destruct (lastIndex m - i) as [|n].
      * pose proof (IH (S i) 0 a1 Ht) as X.
        destruct (replaceLoop r f (S i) t 0 a1) as [o2 a2]. cbn [fst] in *.
        change (x :: o2) with ([x] ++ o2).
        rewrite !without_app, Hf, Hx, X. reflexivity.
      * pose proof (IH (S i) n a1 Ht) as X.
        destruct (replaceLoop r f (S i) t n a1) as [o2 a2]. cbn [fst] in *.
        rewrite without_app, Hf, X. reflexivity.
    + pose proof (IH (S i) 0 a Ht) as X.
      destruct (replaceLoop r f (S i) t 0 a) as [o2 a2]. cbn [fst] in *.
      change (x :: o2) with ([x] ++ o2).
      rewrite without_app, Hx, X. reflexivity.
Qed.

Lemma placeholder_without c n :
  (c <? 48)%N = true \/ (57 <? c)%N = true ->
  without c (js "__CODE_BLOCK_") = true -> without c (js "__") = true ->
  without c (placeholder n) = true.
Proof.
  intros Hc H1 H2. unfold placeholder. rewrite !without_app, H1, H2.
  rewrite (digits_without c (decimal n) Hc (decimal_digits n)). reflexivity.
Qed.

Lemma extracted_without c text :
  (c <? 48)%N = true \/ (57 <? c)%N = true ->
  without c (js "__CODE_BLOCK_") = true -> without c (js "__") = true ->
  without c text = true ->
  without c (fst (replaceAllWith extractRegex extractCallback text [])) = true.
Proof.
  intros Hc H1 H2 Ht. unfold replaceAllWith.
  apply replaceLoop_without; [|exact Ht].
  intros a m. cbn [extractCallback fst]. apply placeholder_without; assumption.
Qed.

(** A text without asterisk, straight quote, guillemet and underscore goes
    through the whole pipeline unchanged, whatever backticks it has: the
    runs of backticks are stored and put back, the lines between them are
    left as they are. *)
Theorem process_keeps_unmarked_text (text : jsstring) :
  unmarked text = true -> process text = text.
Proof.
  unfold unmarked. rewrite !andb_true_iff.
  intros [[[[[HS HA] HD] HL] HR] HU].
  destruct text as [|c t]; [reflexivity|].
  unfold process.
  pose proof (extract_restore_eq (c :: t) HU) as Hrt.
  pose proof (extracted_without STAR (c :: t) (or_introl eq_refl) eq_refl eq_refl HS) as OS.
  pose proof (extracted_without APOS (c :: t) (or_introl eq_refl) eq_refl eq_refl HA) as OA.
  pose proof (extracted_without DQUOTE (c :: t) (or_introl eq_refl) eq_refl eq_refl HD) as OD.
  pose proof (extracted_without LAQUO (c :: t) (or_intror eq_refl) eq_refl eq_refl HL) as OL.
  pose proof (extracted_without RAQUO (c :: t) (or_intror eq_refl) eq_refl eq_refl HR) as OR.
  destruct (replaceAllWith extractRegex extractCallback (c :: t) []) as [out phs].
  cbn [fst snd] in *.
  rewrite processLines_inert by (apply split_without; assumption).
  rewrite join_split. exact Hrt.
Qed.

Lemma process_keeps_unmarked_text_witness :
  process (js "Voir ``x = 1`` puis :" ++ [LF] ++ js "```" ++ [LF] ++ js "y = 2"
           ++ [LF] ++ js "```")
  = js "Voir ``x = 1`` puis :" ++ [LF] ++ js "```" ++ [LF] ++ js "y = 2"
    ++ [LF] ++ js "```".
Proof.
  apply (process_keeps_unmarked_text
           (js "Voir ``x = 1`` puis :" ++ [LF] ++ js "```" ++ [LF] ++ js "y = 2"
            ++ [LF] ++ js "```")).
  reflexivity.
Defined.

End CodeKept.

(** ** [getChapters] and [reassemble] *)

Section Chapters.

Lemma headingAt_nonempty i l : headingAt i l -> l <> [].
Proof.
  intros (lead & ws & c & more & -> & _) E.
  apply (f_equal (@length _)) in E. rewrite !length_app in E.
  cbn [length] in E. change (length (js "####")) with 4 in E. lia.
Qed.

Lemma hasHeading_exec text :
  hasHeading text <-> exec headingRegex text 0 <> None.
Proof.
  rewrite (exec_search headingRegex text 0 (Nat.le_0_l _)). cbn [skipn].
  split.
  - intros (j & Hj & Hh) E.
    apply heading_match_iff in Hh. apply Hh.
    pose proof (search_none _ _ _ E j Hj) as Hn.
    rewrite Nat.add_0_r in Hn. exact Hn.
  - intros H. destruct (search headingRegex 0 text) as [m|] eqn:E; [|congruence].
    destruct (search_spec _ _ _ _ E) as (n & Hn & Hm & _).
    rewrite Nat.add_0_r in Hm.
    exists n. split; [exact Hn|].
    apply heading_match_iff. rewrite Hm. discriminate.
Qed.

Lemma normalised_nil : normalised [] = [].
Proof. reflexivity. Qed.

Lemma heading_throws fullText :
  hasHeading (normalised fullText) -> getChapters fullText = Throw TypeError.
Proof.
  intros H. destruct fullText as [|c t].
  - destruct H as (j & _ & Hh). rewrite normalised_nil in Hh.
    destruct j; cbn [skipn] in Hh; elim (headingAt_nonempty _ _ Hh); reflexivity.
  - apply hasHeading_exec in H. unfold getChapters.
    change (replaceAll (RLit [CR; LF]) [TLit [LF]] (c :: t))
      with (normalised (c :: t)).
    destruct (exec headingRegex (normalised (c :: t)) 0) as [m|]; [|congruence].
    reflexivity.
Qed.

Lemma no_heading_normal fullText :
  ~ hasHeading (normalised fullText) ->
  getChapters fullText =
  Normal (if Nat.ltb 0 (length (trim (normalised fullText)))
          then [mkChapter (js "Chapitre 1") (trim (normalised fullText))]
          else []).
Proof.
  intros H. destruct fullText as [|c t]; [reflexivity|].
  unfold getChapters.
  change (replaceAll (RLit [CR; LF]) [TLit [LF]] (c :: t))
    with (normalised (c :: t)).
  destruct (exec headingRegex (normalised (c :: t)) 0) as [m|] eqn:E.
  - elim H. apply hasHeading_exec. rewrite E. discriminate.
  - destruct (Nat.ltb 0 (length (trim (normalised (c :: t))))); reflexivity.
Qed.

Lemma hasHeading_dec text : hasHeading text \/ ~ hasHeading text.
Proof.
  destruct (exec headingRegex text 0) as [m|] eqn:E.
  - left. apply hasHeading_exec. rewrite E. discriminate.
  - right. intros H. apply hasHeading_exec in H. congruence.
Qed.

(** [getChapters] throws exactly on the texts that have a heading boundary:
    the first match is an array, and the code calls [trim] on it. *)
Theorem getChapters_throws_iff_heading (fullText : jsstring) :
  getChapters fullText = Throw TypeError <-> hasHeading (normalised fullText).
Proof.
  split.
  - intros H. destruct (hasHeading_dec (normalised fullText)) as [Hh | Hh];
      [exact Hh|].
    rewrite (no_heading_normal fullText Hh) in H. discriminate.
  - apply heading_throws.
Qed.

(** What [getChapters] returns when it returns: no chapter, or the single
    chapter "Chapitre 1" whose content is the whole text, trimmed and not
    empty.  No call returns a chapter with a title taken from the text. *)
Theorem getChapters_returns_one_chapter (fullText : jsstring)
    (chapters : list Chapter) :
  getChapters fullText = Normal chapters ->
  length chapters <= 1
  /\ Forall (fun c => title c = js "Chapitre 1"
                      /\ content c = trim (normalised fullText)
                      /\ content c <> []) chapters.
Proof.
  intros H. destruct (hasHeading_dec (normalised fullText)) as [Hh | Hh].
  - rewrite (heading_throws fullText Hh) in H. discriminate.
  - rewrite (no_heading_normal fullText Hh) in H. injection H as <-.
    destruct (trim (normalised fullText)) as [|x r] eqn:E; cbn [length Nat.ltb Nat.leb].
    + split; [lia | constructor].
    + split; [cbn [length]; lia|].
      constructor; [|constructor]. cbn [title content].
      repeat split; discriminate.
Qed.

Lemma getChapters_returns_one_chapter_witness :
  length [mkChapter (js "Chapitre 1") (js "un texte")] <= 1
  /\ Forall (fun c => title c = js "Chapitre 1"
                      /\ content c = trim (normalised (js "  un texte  "))
                      /\ content c <> [])
            [mkChapter (js "Chapitre 1") (js "un texte")].
Proof.
  apply (getChapters_returns_one_chapter (js "  un texte  ")). reflexivity.
Defined.

(** *** [reassemble] *)

Lemma join_app sep a b :
  a <> [] -> b <> [] -> join sep (a ++ b) = join sep a ++ sep ++ join sep b.
Proof.
  intros Ha Hb. induction a as [|x a IH]; [congruence|].
  destruct a as [|y a].
  - cbn [app join]. destruct b; [congruence | reflexivity].
  - change ((x :: y :: a) ++ b) with (x :: (y :: a) ++ b).
    change (join sep (x :: (y :: a) ++ b))
      with (x ++ sep ++ join sep ((y :: a) ++ b)).
    rewrite IH by discriminate.
    change (join sep (x :: y :: a)) with (x ++ sep ++ join sep (y :: a)).
    rewrite <- !app_assoc. reflexivity.
Qed.

(** The text of a list of chapters is the text of its first part, the
    separator of three newlines, and the text of the rest. *)
Theorem reassemble_app (a b : list Chapter) :
  a <> [] -> b <> [] ->
  reassemble (a ++ b) = reassemble a ++ [LF; LF; LF] ++ reassemble b.
Proof.
  intros Ha Hb. unfold reassemble.
  destruct a as [|x a]; [congruence|]. destruct b as [|y b]; [congruence|].
  cbn [app]. change (x :: a ++ y :: b) with ((x :: a) ++ y :: b).
  rewrite map_app. apply join_app; discriminate.
Qed.

Lemma reassemble_app_witness :
  reassemble ([mkChapter (js "A") (js "a")] ++ [mkChapter (js "B") []])
  = reassemble [mkChapter (js "A") (js "a")] ++ [LF; LF; LF]
    ++ reassemble [mkChapter (js "B") []].
Proof.
  apply (reassemble_app [mkChapter (js "A") (js "a")] [mkChapter (js "B") []]);
    discriminate.
Defined.

Lemma dropWhile_fixed p l :
  match l with [] => True | x :: _ => p x = false end -> dropWhile p l = l.
Proof. destruct l as [|x t]; [reflexivity|]. cbn [dropWhile]. intros ->. reflexivity. Qed.

Lemma dropWhile_idem p l : dropWhile p (dropWhile p l) = dropWhile p l.
Proof. apply dropWhile_fixed. apply dropWhile_head. Qed.

Lemma dropWhile_snoc p u x :
  p x = false -> dropWhile p (u ++ [x]) = dropWhile p u ++ [x].
Proof.
  intros Hx. induction u as [|c u IH]; cbn [app dropWhile].
  - rewrite Hx. reflexivity.
  - destruct (p c); [exact IH | reflexivity].
Qed.

(** Stripping the end of a text whose first character stays leaves that
    first character in place. *)
Lemma strip_end_head p l :
  match l with [] => True | x :: _ => p x = false end ->
  match rev (dropWhile p (rev l)) with [] => True | x :: _ => p x = false end.
Proof.
  destruct l as [|x t]; [intros _; exact I|]. intros Hx.
  cbn [rev]. rewrite (dropWhile_snoc p (rev t) x Hx).
  rewrite rev_app_distr. cbn [rev app]. exact Hx.
Qed.

Lemma strip_idem p l :
  rev (dropWhile p (rev (dropWhile p (rev (dropWhile p (rev (dropWhile p l)))))))
  = rev (dropWhile p (rev (dropWhile p l))).
Proof.
  rewrite (dropWhile_fixed p (rev (dropWhile p (rev (dropWhile p l))))).
  - rewrite rev_involutive, dropWhile_idem. reflexivity.
  - apply strip_end_head. apply dropWhile_head.
Qed.

Lemma trim_idem s : trim (trim s) = trim s.
Proof. unfold trim, trimEnd, trimStart. apply strip_idem. Qed.

Lemma chapterBlock_trim c :
  chapterBlock c
  = match trim (content c) with
    | [] => js "#### " ++ title c
    | _ :: _ => (js "#### " ++ title c) ++ [LF; LF] ++ trim (content c)
    end.
Proof.
  unfold chapterBlock. destruct (content c) as [|x r]; reflexivity.
Qed.

(** [reassemble] does not see the whitespace around the content of a
    chapter. *)
Theorem reassemble_ignores_outer_whitespace (chaptersData : list Chapter) :
  reassemble (map trimContent chaptersData) = reassemble chaptersData.
Proof.
  unfold reassemble. destruct chaptersData as [|c cs]; [reflexivity|].
  change (map trimContent (c :: cs)) with (trimContent c :: map trimContent cs).
  cbv iota. change (trimContent c :: map trimContent cs)
    with (map trimContent (c :: cs)).
  f_equal. rewrite map_map. apply map_ext. intros ch.
  rewrite !chapterBlock_trim. unfold trimContent. cbn [title content].
  rewrite trim_idem. reflexivity.
Qed.

(** The text of a non-empty list of chapters starts with the heading of the
    first. *)
Lemma reassemble_head c cs :
  exists more, reassemble (c :: cs) = js "#### " ++ title c ++ more.
Proof.
  unfold reassemble. cbn [map].
  assert (Hb : exists m, chapterBlock c = js "#### " ++ title c ++ m).
  { rewrite chapterBlock_trim. destruct (trim (content c)) as [|x r].
    - exists []. rewrite app_nil_r. reflexivity.
    - eexists. rewrite <- app_assoc. reflexivity. }
  destruct Hb as (m & Hb). destruct cs as [|c2 cs].
  - exists m. cbn [map join]. exact Hb.
  - eexists. cbn [map].
    change (join [LF; LF; LF] (chapterBlock c :: chapterBlock c2 :: map chapterBlock cs))
      with (chapterBlock c ++ [LF; LF; LF]
            ++ join [LF; LF; LF] (chapterBlock c2 :: map chapterBlock cs)).
    rewrite Hb, <- !app_assoc. reflexivity.
Qed.

Lemma needsFirst_crlf : needsFirst (isChr CR) (RLit [CR; LF]).
Proof.
  intros i l cs k Hl. destruct l as [|x t]; [reflexivity|].
  cbn [RLit rmatch rest]. unfold isChr in Hl. rewrite Hl. reflexivity.
Qed.

(** The normalisation keeps a prefix without carriage return. *)
Lemma normalised_prefix pre l :
  without CR pre = true ->
  exists l', normalised (pre ++ l) = pre ++ l'.
Proof.
  intros H. unfold normalised, replaceAll, replaceAllWith.
  rewrite replaceLoop_copy.
  - cbn [fst]. eexists. reflexivity.
  - intros n j Hn. apply (needsFirst_matchAt (isChr CR)); [apply needsFirst_crlf|].
    rewrite skipn_app. replace (n - length pre) with 0 by lia. cbn [skipn].
    pose proof (without_head CR _ (without_skipn CR pre n H)) as Hh.
    destruct (skipn n pre) as [|x t] eqn:E.
    + apply (f_equal (@length _)) in E. rewrite length_skipn in E.
      cbn [length] in E. lia.
    + exact Hh.
Qed.

(** Export, then import: the text that [reassemble] writes for chapters of
    which the first has a title that starts with a character other than
    whitespace makes [getChapters] throw. *)
Theorem getChapters_reassemble_throws (c : Chapter) (cs : list Chapter)
    (x : cu) (t : jsstring) :
  title c = x :: t -> isSpace x = false ->
  getChapters (reassemble (c :: cs)) = Throw TypeError.
Proof.
  intros Ht Hx. apply heading_throws.
  destruct (reassemble_head c cs) as (more & ->). rewrite Ht.
  change (js "#### " ++ (x :: t) ++ more)
    with ((js "#### " ++ [x]) ++ t ++ more).
  destruct (normalised_prefix (js "#### " ++ [x]) (t ++ more)) as (l' & ->).
  { unfold without. rewrite forallb_app. cbn [forallb].
    rewrite andb_true_r. apply andb_true_iff. split; [reflexivity|].
    apply negb_true_iff. unfold isChr.
    destruct (N.eqb x CR) eqn:E; [|reflexivity].
    apply N.eqb_eq in E. subst x. discriminate. }
  exists 0. split; [lia|]. cbn [skipn].
  exists [], [SP], x, l'. repeat split.
  - right. split; reflexivity.
  - discriminate.
  - unfold isDot. apply negb_true_iff.
    destruct (isLineTerminator x) eqn:E; [|reflexivity].
    rewrite (lineTerminator_space x E) in Hx. discriminate.
Qed.

Lemma getChapters_reassemble_throws_witness :
  getChapters (reassemble [mkChapter (js "Un") (js "texte"); mkChapter (js "Deux") []])
  = Throw TypeError.
Proof.
  apply (getChapters_reassemble_throws (mkChapter (js "Un") (js "texte"))
           [mkChapter (js "Deux") []] 85%N (js "n"));
    reflexivity.
Defined.

End Chapters.

(** ** The two replacements that strip the newlines around a chapter *)

Section StripNewlines.

Lemma forallb_rev (p : cu -> bool) l : forallb p (rev l) = forallb p l.
Proof.
  induction l as [|c l IH]; [reflexivity|].
  cbn [rev forallb]. rewrite forallb_app, IH. cbn [forallb].
  rewrite andb_true_r. apply andb_comm.
Qed.

Lemma dropWhile_all p l : forallb p l = true -> dropWhile p l = [].
Proof.
  induction l as [|c l IH]; [reflexivity|]. cbn [forallb dropWhile].
  intros H. apply andb_true_iff in H as [-> H]. exact (IH H).
Qed.

Lemma dropWhile_app p u v :
  dropWhile p (u ++ v)
  = if forallb p u then dropWhile p v else dropWhile p u ++ v.
Proof.
  induction u as [|c u IH]; [reflexivity|].
  cbn [app dropWhile forallb]. destruct (p c); [exact IH | reflexivity].
Qed.

Lemma stripEnd_cons p c t :
  rev (dropWhile p (rev (c :: t)))
  = if forallb p (c :: t) then [] else c :: rev (dropWhile p (rev t)).
Proof.
  cbn [rev forallb]. rewrite dropWhile_app, forallb_rev.
  destruct (forallb p t) eqn:E.
  - rewrite andb_true_r. cbn [dropWhile].
    rewrite (dropWhile_all p (rev t)) by (rewrite forallb_rev; exact E).
    destruct (p c); reflexivity.
  - rewrite andb_false_r, rev_app_distr. reflexivity.
Qed.

Lemma stripEnd_prefix p s :
  exists tail, s = rev (dropWhile p (rev s)) ++ tail.
Proof.
  exists (rev (takeWhile p (rev s))).
  rewrite <- rev_app_distr, takeWhile_dropWhile, rev_involutive. reflexivity.
Qed.

(** [/^\n+/]: the newlines at the start. *)
Lemma lead_strip s :
  replaceFirst (seqs [RBol; RPlus true (isChr LF)]) [] s
  = dropWhile (isChr LF) s.
Proof.
  unfold replaceFirst. cbn [seqs]. rewrite anchored_search.
  unfold matchAt. rewrite rmatch_seq, rmatch_bol.
  destruct s as [|c t]; [reflexivity|].
  destruct (isChr LF c) eqn:E.
  - rewrite (rmatch_plus_hit true (isChr LF) c t 0 [] Some E).
    rewrite star_greedy_total by (intros; discriminate).
    cbn [index lastIndex expand firstn app dropWhile pos]. rewrite E.
    rewrite Nat.add_1_r. cbn [skipn].
    apply (skipn_prefix (takeWhile (isChr LF) t));
      [symmetry; apply takeWhile_dropWhile | reflexivity].
  - rewrite rmatch_plus_miss by exact E. cbn [dropWhile]. rewrite E.
    reflexivity.
Qed.

(** [/\n+$/] matches at an index exactly when the text from there on is a
    non-empty run of newlines. *)
Lemma trail_match i l :
  matchAt (seqs [RPlus true (isChr LF); REol]) i l
  = match l with
    | [] => None
    | _ :: _ =>
        if forallb (isChr LF) l
        then Some (Match i l [] (length l + i))
        else None
    end.
Proof.
  unfold matchAt. cbn [seqs]. rewrite rmatch_seq.
  destruct l as [|c t]; [reflexivity|].
  cbn [forallb]. destruct (isChr LF c) eqn:E;
    [|rewrite rmatch_plus_miss by exact E; reflexivity].
  rewrite (rmatch_plus_hit true (isChr LF) c t i [] _ E). cbn [andb].
  destruct (forallb (isChr LF) t) eqn:Ht.
  - pose proof (star_greedy_all (isChr LF) t (S i) [] []
                  (fun s' => rmatch REol s' Some)
                  (MState (length t + S i) [] []) Ht I eq_refl) as H.
    rewrite app_nil_r in H. rewrite H. cbn [pos caps length].
    replace (length t + S i - i) with (S (length t)) by lia.
    replace (length t + S i) with (S (length t + i)) by lia.
    change (S (length t)) with (length (c :: t)).
    rewrite firstn_all. reflexivity.
  - replace (star true (isChr LF) (S i) t [] (fun s' => rmatch REol s' Some))
      with (@None mstate); [reflexivity|].
    symmetry.
    change (rmatch (RStar true (isChr LF)) (MState (S i) t [])
              (fun s' => rmatch REol s' Some) = None).
    apply rmatch_none_iff. intros s1 Hm.
    apply matches_star_inv in Hm. destruct Hm as (ws & Hr & Hp & _ & _).
    cbn [rest] in Hr. destruct s1 as [j r cs]. cbn [rest] in Hr.
    destruct r as [|x r]; [|reflexivity].
    rewrite app_nil_r in Hr. subst ws. congruence.
Qed.

Lemma trail_search l : forall i,
  search (seqs [RPlus true (isChr LF); REol]) i l
  = let kept := rev (dropWhile (isChr LF) (rev l)) in
    if Nat.ltb (length kept) (length l)
    then Some (Match (length kept + i) (skipn (length kept) l) []
                     (length l + i))
    else None.
Proof.
  induction l as [|c t IH]; intros i; [reflexivity|].
  cbn [search]. rewrite trail_match. cbv zeta. rewrite stripEnd_cons.
  destruct (forallb (isChr LF) (c :: t)) eqn:E; [reflexivity|].
  rewrite IH. cbv zeta. cbn [length].
  change (Nat.ltb (S (length (rev (dropWhile (isChr LF) (rev t)))))
                  (S (length t)))
    with (Nat.ltb (length (rev (dropWhile (isChr LF) (rev t)))) (length t)).
  destruct (Nat.ltb _ (length t)); [|reflexivity].
  cbn [skipn]. rewrite !Nat.add_succ_r. reflexivity.
Qed.

(** [/\n+$/]: the newlines at the end. *)
Lemma trail_strip s :
  replaceFirst (seqs [RPlus true (isChr LF); REol]) [] s
  = rev (dropWhile (isChr LF) (rev s)).
Proof.
  unfold replaceFirst. rewrite trail_search. cbv zeta.
  destruct (stripEnd_prefix (isChr LF) s) as (tail & Hs).
  set (kept := rev (dropWhile (isChr LF) (rev s))) in *.
  destruct (Nat.ltb (length kept) (length s)) eqn:E.
  - cbn [index lastIndex expand app]. rewrite !Nat.add_0_r.
    rewrite skipn_all, app_nil_r.
    apply (firstn_prefix kept tail); [exact Hs | reflexivity].
  - apply Nat.ltb_ge in E. rewrite Hs in E at 1.
    rewrite length_app in E.
    destruct tail as [|x tail]; [|cbn [length] in E; lia].
    rewrite app_nil_r in Hs. exact Hs.
Qed.

(** The cleaning of a chapter's content in [getChapters] removes the
    newlines, and only the newlines, at the start and at the end of the
    text; cleaning twice is cleaning once. *)
Theorem stripNewlines_strips (s : jsstring) :
  stripNewlines s = stripped s
  /\ stripNewlines (stripNewlines s) = stripNewlines s.
Proof.
  assert (H : forall x, stripNewlines x = stripped x).
  { intros x. unfold stripNewlines, stripped. rewrite lead_strip.
    apply trail_strip. }
  split; [apply H|]. rewrite !H. unfold stripped. apply strip_idem.
Qed.

End StripNewlines.

(** ** The lines that [process] skips *)

Section TokenLines.

(** What [/^__CODE_BLOCK_\d+__$/] accepts. *)
Lemma onlyToken_inv s :
  test onlyTokenRegex s = true ->
  exists d, forallb isDigit d = true /\ s = tokenText d.
Proof.
  unfold test, onlyTokenRegex. cbn [seqs]. rewrite anchored_search.
  unfold matchAt.
  set (head := RLit (js "__CODE_BLOCK_")). set (tail := RLit (js "__")).
  destruct (rmatch _ (MState 0 s []) Some) as [e|] eqn:E; [|discriminate].
  intros _. apply rmatch_sound in E. destruct E as (s1 & Hm & _).
  unfold RPlus in Hm.
  repeat match goal with
         | H : matches (RSeq _ _) _ _ |- _ => inversion H; subst; clear H
         | H : matches (RSet _) _ _ |- _ => inversion H; subst; clear H
         | H : matches RBol _ _ |- _ => inversion H; subst; clear H
         | H : matches REol _ _ |- _ => inversion H; subst; clear H
         end.
  subst head tail.
  repeat match goal with
         | H : matches (RStar _ _) _ _ |- _ =>
             let ws := fresh "ws" in
             let Hr := fresh "Hr" in
             let Hp := fresh "Hp" in
             apply matches_star_inv in H;
             destruct H as (ws & Hr & Hp & _ & _); cbn [rest] in Hr
         | H : matches (RLit _) _ _ |- _ =>
             let Hr := fresh "Hr" in
             apply matches_RLit_inv in H;
             destruct H as (Hr & _ & _); cbn [rest] in Hr
         end.
  subst.
  match goal with
  | Hx : isDigit ?x = true, Hp : forallb isDigit ?ws = true |- _ =>
      exists (x :: ws); split; [cbn [forallb]; rewrite Hx, Hp; reflexivity|]
  end.
  unfold tokenText.
  repeat match goal with
         | H : _ = _ ++ _ |- _ => rewrite H
         end.
  rewrite app_nil_r. reflexivity.
Qed.

(** A text is its trimmed part between two runs of whitespace. *)
Lemma trim_split line :
  exists ws1 ws2,
    line = ws1 ++ trim line ++ ws2 /\ spaces ws1 = true /\ spaces ws2 = true.
Proof.
  exists (takeWhile isSpace line),
         (rev (takeWhile isSpace (rev (dropWhile isSpace line)))).
  repeat split.
  - unfold trim, trimEnd, trimStart.
    rewrite <- rev_app_distr, takeWhile_dropWhile, rev_involutive.
    symmetry. apply takeWhile_dropWhile.
  - apply takeWhile_all.
  - unfold spaces. rewrite forallb_rev. apply takeWhile_all.
Qed.

Lemma spaces_without c ws :
  isSpace c = false -> spaces ws = true -> without c ws = true.
Proof.
  intros Hc. unfold spaces, without. intros H. apply forallb_forall.
  intros x Hx. rewrite forallb_forall in H. specialize (H x Hx).
  unfold isChr. destruct (N.eqb x c) eqn:E; [|reflexivity].
  apply N.eqb_eq in E. subst x. congruence.
Qed.

Lemma trim_without c line :
  isSpace c = false -> without c (trim line) = true -> without c line = true.
Proof.
  intros Hc H. destruct (trim_split line) as (ws1 & ws2 & E & H1 & H2).
  rewrite E, !without_app, H.
  rewrite (spaces_without c ws1 Hc H1), (spaces_without c ws2 Hc H2).
  reflexivity.
Qed.

(** The lines that [process] skips, those that are one token between
    whitespace, are lines that its rules leave as they are: skipping them
    changes neither the text nor the dialogue state. *)
Theorem skipped_line_is_unchanged_anyway (line : jsstring)
    (isDialogueOpen : bool) :
  test onlyTokenRegex (trim line) = true ->
  reorderMarkers (snd (quoteLoop (fixEmphasisSpaces line) isDialogueOpen))
  = line
  /\ fst (quoteLoop (fixEmphasisSpaces line) isDialogueOpen) = isDialogueOpen
  /\ processLine line isDialogueOpen = (line, isDialogueOpen).
Proof.
  intros H. destruct (onlyToken_inv _ H) as (d & Hd & Ht).
  destruct (inertText_parts _ (tokenText_inert d Hd))
    as (HS & _ & HA & HD & HL & HR).
  rewrite <- Ht in HS, HA, HD, HL, HR.
  apply (trim_without STAR line eq_refl) in HS.
  apply (trim_without APOS line eq_refl) in HA.
  apply (trim_without DQUOTE line eq_refl) in HD.
  apply (trim_without LAQUO line eq_refl) in HL.
  apply (trim_without RAQUO line eq_refl) in HR.
  rewrite (fixEmphasisSpaces_without_star line HS).
  rewrite (quoteLoop_inert line isDialogueOpen HA HD HL HR). cbn [fst snd].
  repeat split.
  - apply reorderMarkers_without_star. exact HS.
  - unfold processLine. rewrite H. reflexivity.
Qed.

Lemma skipped_line_is_unchanged_anyway_witness :
  reorderMarkers
    (snd (quoteLoop (fixEmphasisSpaces (js "  __CODE_BLOCK_12__ ")) true))
  = js "  __CODE_BLOCK_12__ "
  /\ fst (quoteLoop (fixEmphasisSpaces (js "  __CODE_BLOCK_12__ ")) true) = true
  /\ processLine (js "  __CODE_BLOCK_12__ ") true
     = (js "  __CODE_BLOCK_12__ ", true).
Proof.
  apply (skipped_line_is_unchanged_anyway (js "  __CODE_BLOCK_12__ ") true).
  reflexivity.
Defined.

End TokenLines.

(** ** An emphasised quotation through the pipeline *)

Section QuotedEmphasis.

Let O (k : nat) (l : jsstring) : jsstring :=
  replaceAll (openPass k) [TLit (LAQUO :: repeat STAR k)] l.
Let C (k : nat) (l : jsstring) : jsstring :=
  replaceAll (closePass k) [TLit (repeat STAR k ++ [RAQUO])] l.

Lemma expand_shift tpl d m : expand tpl (shiftMatch d m) = expand tpl m.
Proof.
  induction tpl as [|[s|n] tpl IH]; cbn [expand]; rewrite ?IH; reflexivity.
Qed.

(** A replacement with a pattern without anchor, on a text that starts with
    a part where it does not match, and on a text that starts with a
    match. *)
Lemma replaceAll_copy r tpl pre l :
  noBol r = true ->
  (forall n j, n < length pre -> matchAt r j (skipn n (pre ++ l)) = None) ->
  replaceAll r tpl (pre ++ l) = pre ++ replaceAll r tpl l.
Proof.
  intros Hb H. unfold replaceAll, replaceAllWith.
  rewrite replaceLoop_copy by exact H. cbn [fst]. f_equal.
  exact (f_equal fst
           (replaceLoop_shift unit r (fun _ m => (expand tpl m, tt))
              (length pre) Hb (fun a m => f_equal (fun x => (x, tt))
                                            (expand_shift tpl _ m))
              l 0 0 tt)).
Qed.

Lemma replaceAll_hit r tpl l m n :
  noBol r = true ->
  matchAt r 0 l = Some m -> lastIndex m = S n -> S n <= length l ->
  replaceAll r tpl l = expand tpl m ++ replaceAll r tpl (skipn (S n) l).
Proof.
  intros Hb Hm Hl Hn. unfold replaceAll, replaceAllWith.
  rewrite (replaceLoop_hit unit r _ 0 l tt m n Hm) by lia.
  cbn [fst snd]. f_equal.
  exact (f_equal fst
           (replaceLoop_shift unit r (fun _ m => (expand tpl m, tt))
              (S n) Hb (fun a m => f_equal (fun x => (x, tt))
                                     (expand_shift tpl _ m))
              (skipn (S n) l) 0 0 tt)).
Qed.

Lemma noBol_RLit s : noBol (RLit s) = true.
Proof.
  induction s as [|c [|d s] IH]; [reflexivity | reflexivity |].
  change (RLit (c :: d :: s)) with (RSeq (RChr c) (RLit (d :: s))).
  cbn [noBol]. exact IH.
Qed.

Lemma noBol_open k : noBol (openPass k) = true.
Proof. unfold openPass. cbn [noBol]. rewrite noBol_RLit. reflexivity. Qed.

Lemma noBol_close k : noBol (closePass k) = true.
Proof. unfold closePass. cbn [noBol]. rewrite noBol_RLit. reflexivity. Qed.

Lemma occurs_lacking c p l :
  In c p -> without c l = true -> occurs p l = false.
Proof.
  intros Hc. induction l as [|x l IH]; intros H.
  - cbn [occurs]. destruct p; [destruct Hc | reflexivity].
  - assert (Hx : without c [x] = true /\ without c l = true).
    { change (x :: l) with ([x] ++ l) in H. rewrite without_app in H.
      apply andb_true_iff in H. exact H. }
    destruct Hx as [Hx Hl]. cbn [occurs]. rewrite (IH Hl), orb_false_r.
    clear IH. revert x l H Hx Hl.
    induction p as [|a p IHp]; intros x l H Hx Hl; [destruct Hc|].
    cbn [isPrefix]. destruct (N.eqb a x) eqn:E; [|reflexivity].
    apply N.eqb_eq in E. subst a. cbn [andb].
    destruct Hc as [Hc | Hc].
    + subst c. unfold without, isChr in Hx. cbn [forallb] in Hx.
      rewrite N.eqb_refl in Hx. discriminate.
    + destruct l as [|y l]; [destruct p; [destruct Hc | reflexivity]|].
      assert (Hy : without c [y] = true /\ without c l = true).
      { change (y :: l) with ([y] ++ l) in Hl. rewrite without_app in Hl.
        apply andb_true_iff in Hl. exact Hl. }
      destruct Hy as [Hy Hl']. apply (IHp Hc y l Hl Hy Hl').
Qed.

Lemma O_lacking k l :
  1 <= k <= 3 -> without LAQUO l = true -> O k l = l.
Proof.
  intros Hk H. apply (O_id k l Hk).
  apply (occurs_lacking LAQUO); [|exact H].
  apply in_or_app. right. left. reflexivity.
Qed.

Lemma C_lacking k l :
  1 <= k <= 3 -> without RAQUO l = true -> C k l = l.
Proof.
  intros Hk H. apply (C_id k l Hk).
  apply (occurs_lacking RAQUO); [left; reflexivity | exact H].
Qed.

Lemma O_hit k l :
  1 <= k <= 3 ->
  isPrefix (repeat STAR k ++ [LAQUO]) l = true ->
  O k l = (LAQUO :: repeat STAR k) ++ O k (skipn (S k) l).
Proof.
  intros Hk H.
  assert (Hk' : k = 1 \/ k = 2 \/ k = 3) by lia.
  destruct (open_hit k 0 l Hk' H) as (m & Hm & Hl & He).
  pose proof (f_equal (@length _) (isPrefix_app _ _ H)) as Hlen.
  rewrite !length_app, repeat_length in Hlen.
  rewrite length_app, repeat_length in Hl. cbn [length] in Hl, Hlen.
  unfold O. rewrite (replaceAll_hit _ _ l m k (noBol_open k) Hm) by lia.
  rewrite He. reflexivity.
Qed.

Lemma O_miss k c l :
  1 <= k <= 3 ->
  isPrefix (repeat STAR k ++ [LAQUO]) (c :: l) = false ->
  O k (c :: l) = c :: O k l.
Proof.
  intros Hk H.
  assert (Hk' : k = 1 \/ k = 2 \/ k = 3) by lia.
  unfold O. apply (replaceAll_copy _ _ [c] l (noBol_open k)).
  intros n j Hn. cbn [length] in Hn. replace n with 0 by lia. cbn [skipn app].
  apply (open_miss k j _ Hk' H).
Qed.

Lemma C_hit k l :
  1 <= k <= 3 ->
  isPrefix (RAQUO :: repeat STAR k) l = true ->
  C k l = (repeat STAR k ++ [RAQUO]) ++ C k (skipn (S k) l).
Proof.
  intros Hk H.
  assert (Hk' : k = 1 \/ k = 2 \/ k = 3) by lia.
  destruct (close_hit k 0 l Hk' H) as (m & Hm & Hl & He).
  pose proof (f_equal (@length _) (isPrefix_app _ _ H)) as Hlen.
  rewrite length_app in Hlen.
  cbn [length] in Hl, Hlen. rewrite repeat_length in Hl, Hlen.
  unfold C. rewrite (replaceAll_hit _ _ l m k (noBol_close k) Hm) by lia.
  rewrite He. reflexivity.
Qed.

Lemma C_miss k c l :
  1 <= k <= 3 ->
  isPrefix (RAQUO :: repeat STAR k) (c :: l) = false ->
  C k (c :: l) = c :: C k l.
Proof.
  intros Hk H.
  assert (Hk' : k = 1 \/ k = 2 \/ k = 3) by lia.
  unfold C. apply (replaceAll_copy _ _ [c] l (noBol_close k)).
  intros n j Hn. cbn [length] in Hn. replace n with 0 by lia. cbn [skipn app].
  apply (close_miss k j _ Hk' H).
Qed.

Lemma C_copy k pre l :
  1 <= k <= 3 -> without RAQUO pre = true -> C k (pre ++ l) = pre ++ C k l.
Proof.
  intros Hk H.
  assert (Hk' : k = 1 \/ k = 2 \/ k = 3) by lia.
  unfold C. apply (replaceAll_copy _ _ pre l (noBol_close k)).
  intros n j Hn. apply (close_miss k j _ Hk').
  rewrite skipn_app. replace (n - length pre) with 0 by lia. cbn [skipn].
  pose proof (without_head RAQUO _ (without_skipn RAQUO pre n H)) as Hh.
  destruct (skipn n pre) as [|x t] eqn:E.
  - apply (f_equal (@length _)) in E. rewrite length_skipn in E.
    cbn [length] in E. lia.
  - cbn [app isPrefix]. unfold isChr in Hh. rewrite N.eqb_sym, Hh. reflexivity.
Qed.

(** The line after the quote scan, after the passes for the opening
    guillemet, and after the passes for the closing one. *)
Let scanned (k : nat) (t : jsstring) : jsstring :=
  repeat STAR k ++ LAQUO :: t ++ RAQUO :: repeat STAR k.
Let opened (k : nat) (t : jsstring) : jsstring :=
  (LAQUO :: repeat STAR k ++ t) ++ RAQUO :: repeat STAR k.
Let closed (k : nat) (t : jsstring) : jsstring :=
  (LAQUO :: repeat STAR k ++ t ++ repeat STAR k) ++ [RAQUO].

Ltac lacks H :=
  unfold without in *; cbn [app forallb repeat];
  rewrite ?forallb_app; cbn [forallb]; rewrite ?H; reflexivity.

Ltac widths j k :=
  destruct j as [|[|[|[|j]]]]; try lia;
  destruct k as [|[|[|[|k]]]]; try lia.

Lemma O_scanned_wider j k t :
  1 <= k < j -> j <= 3 -> without LAQUO t = true ->
  O j (scanned k t) = scanned k t.
Proof.
  intros Hk Hj Ht. unfold scanned. widths j k; cbn [repeat app];
    repeat (rewrite O_miss by first [lia | reflexivity]);
    rewrite O_lacking by first [lia | lacks Ht]; reflexivity.
Qed.

Lemma O_scanned k t :
  1 <= k <= 3 -> without LAQUO t = true ->
  O k (scanned k t) = opened k t.
Proof.
  intros Hk Ht. unfold scanned, opened.
  destruct k as [|[|[|[|k]]]]; try lia; cbn [repeat app];
    rewrite O_hit by first [lia | reflexivity]; cbn [skipn repeat app];
    rewrite O_lacking by first [lia | lacks Ht]; reflexivity.
Qed.

Lemma O_opened j k t :
  1 <= j <= 3 -> 1 <= k <= 3 -> without LAQUO t = true ->
  O j (opened k t) = opened k t.
Proof.
  intros Hj Hk Ht. unfold opened. widths j k; cbn [repeat app];
    rewrite O_miss by first [lia | reflexivity];
    rewrite O_lacking by first [lia | lacks Ht]; reflexivity.
Qed.

Lemma C_opened_wider j k t :
  1 <= k < j -> j <= 3 -> without RAQUO t = true ->
  C j (opened k t) = opened k t.
Proof.
  intros Hk Hj Ht. unfold opened.
  rewrite C_copy by first [lia | widths j k; lacks Ht].
  widths j k; cbn [repeat app];
    repeat (rewrite C_miss by first [lia | reflexivity]);
    rewrite C_lacking by first [lia | reflexivity]; reflexivity.
Qed.

Lemma C_opened k t :
  1 <= k <= 3 -> without RAQUO t = true ->
  C k (opened k t) = closed k t.
Proof.
  intros Hk Ht. unfold opened, closed.
  rewrite C_copy by first [lia | destruct k as [|[|[|[|k]]]]; try lia; lacks Ht].
  destruct k as [|[|[|[|k]]]]; try lia; cbn [repeat app];
    rewrite C_hit by first [lia | reflexivity]; cbn [skipn repeat app];
    rewrite C_lacking by first [lia | reflexivity];
    rewrite <- ?app_assoc; reflexivity.
Qed.

Lemma C_closed j k t :
  1 <= j <= 3 -> 1 <= k <= 3 -> without RAQUO t = true ->
  C j (closed k t) = closed k t.
Proof.
  intros Hj Hk Ht. unfold closed.
  rewrite C_copy by first [lia | widths j k; lacks Ht].
  widths j k; cbn [repeat app];
    rewrite C_miss by first [lia | reflexivity];
    rewrite C_lacking by first [lia | reflexivity]; reflexivity.
Qed.

(** The reorderer puts both guillemets outside the markers. *)
Lemma reorder_quoted k t :
  1 <= k <= 3 -> without LAQUO t = true -> without RAQUO t = true ->
  reorderMarkers (scanned k t) = closed k t.
Proof.
  intros Hk HL HR.
  change (reorderMarkers (scanned k t))
    with (C 1 (C 2 (C 3 (O 1 (O 2 (O 3 (scanned k t))))))).
  destruct k as [|[|[|[|k]]]]; try lia.
  - rewrite (O_scanned_wider 3 1), (O_scanned_wider 2 1), (O_scanned 1),
      (C_opened_wider 3 1), (C_opened_wider 2 1), (C_opened 1);
      first [reflexivity | assumption | lia].
  - rewrite (O_scanned_wider 3 2), (O_scanned 2), (O_opened 1 2),
      (C_opened_wider 3 2), (C_opened 2), (C_closed 1 2);
      first [reflexivity | assumption | lia].
  - rewrite (O_scanned 3), (O_opened 2 3), (O_opened 1 3),
      (C_opened 3), (C_closed 2 3), (C_closed 1 3);
      first [reflexivity | assumption | lia].
Qed.

(** *** The quote scan *)

Lemma quoteFold_segment seg : forall line pre post st acc,
  line = pre ++ seg ++ post ->
  without APOS seg = true -> without DQUOTE seg = true ->
  without LAQUO seg = true -> without RAQUO seg = true ->
  fold_left (quoteStep line) (seq (length pre) (length seg)) (st, acc)
  = (st, acc ++ seg).
Proof.
  induction seg as [|x seg IH]; intros line pre post st acc El HA HD HL HR.
  - cbn [length seq fold_left]. rewrite app_nil_r. reflexivity.
  - cbn [length seq fold_left].
    assert (Hx : nth (length pre) line SP = x)
      by (rewrite El; cbn [app]; apply nth_middle).
    assert (P : forall c, without c (x :: seg) = true ->
                          N.eqb x c = false /\ without c seg = true).
    { intros c H. change (x :: seg) with ([x] ++ seg) in H.
      rewrite without_app in H. apply andb_true_iff in H as [H1 H2].
      split; [|exact H2]. unfold without, isChr in H1. cbn [forallb] in H1.
      rewrite andb_true_r in H1. apply negb_true_iff in H1. exact H1. }
    destruct (P _ HA) as [EA HA']. destruct (P _ HD) as [ED HD'].
    destruct (P _ HL) as [EL HL']. destruct (P _ HR) as [ER HR'].
    rewrite quoteStep_eq. cbv zeta. rewrite Hx, EL, ER, EA, ED. cbn [orb].
    replace (S (length pre)) with (length (pre ++ [x]))
      by (rewrite length_app; cbn [length]; lia).
    rewrite (IH line (pre ++ [x]) post st (acc ++ [x]));
      [rewrite <- app_assoc; reflexivity | | assumption ..].
    rewrite El, <- app_assoc. reflexivity.
Qed.

Lemma quoteStep_quote line pre qc post st acc :
  line = pre ++ qc :: post ->
  qc = APOS \/ qc = DQUOTE ->
  internalQuote line (length pre) = false ->
  quoteStep line (st, acc) (length pre)
  = (negb st, acc ++ [if st then RAQUO else LAQUO]).
Proof.
  intros El Hq Hi. rewrite quoteStep_eq. cbv zeta.
  assert (Hx : nth (length pre) line SP = qc)
    by (rewrite El; apply nth_middle).
  rewrite Hx, Hi.
  destruct Hq; subst qc; cbn [N.eqb orb]; destruct st; reflexivity.
Qed.

Lemma prev_at p x l :
  prevChar ((p ++ [x]) ++ l) (length (p ++ [x])) = x.
Proof.
  rewrite length_app. cbn [length]. rewrite Nat.add_1_r. cbn [prevChar].
  rewrite <- app_assoc. cbn [app]. apply nth_middle.
Qed.

Lemma next_at pre c y l :
  nextChar (pre ++ c :: y :: l) (length pre) = y.
Proof.
  unfold nextChar.
  replace (S (length pre)) with (length (pre ++ [c]))
    by (rewrite length_app; cbn [length]; lia).
  change (pre ++ c :: y :: l) with (pre ++ [c] ++ y :: l).
  rewrite app_assoc. apply nth_middle.
Qed.

Lemma stars_passive k c :
  isChr c STAR = false -> without c (repeat STAR k) = true.
Proof.
  intros H. unfold without. induction k as [|k IH]; [reflexivity|].
  cbn [repeat forallb]. rewrite H. exact IH.
Qed.

(** The scan of the line: the first quote opens, the second closes. *)
Lemma scan_quoted k qc t :
  qc = APOS \/ qc = DQUOTE ->
  without APOS t = true -> without DQUOTE t = true ->
  without LAQUO t = true -> without RAQUO t = true ->
  quoteLoop (repeat STAR (S k) ++ qc :: t ++ qc :: repeat STAR (S k)) false
  = (false, scanned (S k) t).
Proof.
  intros Hq HA HD HL HR. unfold quoteLoop, scanned.
  set (m := repeat STAR (S k)).
  set (line := m ++ qc :: t ++ qc :: m).
  assert (Hm : forall c, isChr c STAR = false -> without c m = true)
    by (intros c; apply stars_passive).
  assert (Hlen : length line
                 = length m + (1 + (length t + (1 + length m)))).
  { unfold line. rewrite !length_app. cbn [length]. rewrite length_app.
    cbn [length]. lia. }
  rewrite Hlen, !seq_app, !fold_left_app. cbn [Nat.add].
  (* the opening marker *)
  change (seq 0 (length m)) with (seq (length (@nil N)) (length m)).
  rewrite (quoteFold_segment m line [] (qc :: t ++ qc :: m) false []
             eq_refl (Hm APOS eq_refl) (Hm DQUOTE eq_refl)
             (Hm LAQUO eq_refl) (Hm RAQUO eq_refl)).
  (* the opening quote *)
  cbn [seq fold_left app].
  assert (I1 : internalQuote line (length m) = false).
  { assert (Em : m = repeat STAR k ++ [STAR])
      by (unfold m; cbn [repeat]; apply repeat_cons).
    unfold internalQuote.
    replace (prevChar line (length m)) with STAR; [reflexivity|].
    unfold line. rewrite Em. symmetry. apply prev_at. }
  rewrite (quoteStep_quote line m qc (t ++ qc :: m) false m eq_refl Hq I1).
  cbn [negb].
  (* the text *)
  replace (length m + 1) with (length (m ++ [qc]))
    by (rewrite length_app; reflexivity).
  rewrite (quoteFold_segment t line (m ++ [qc]) (qc :: m) true (m ++ [LAQUO]));
    [| unfold line; rewrite <- app_assoc; reflexivity | assumption ..].
  (* the closing quote *)
  replace (length (m ++ [qc]) + length t) with (length (m ++ qc :: t))
    by (rewrite !length_app; cbn [length]; lia).
  assert (E2 : line = (m ++ qc :: t) ++ qc :: m)
    by (unfold line; rewrite <- app_assoc; reflexivity).
  assert (I2 : internalQuote line (length (m ++ qc :: t)) = false).
  { unfold internalQuote.
    replace (nextChar line (length (m ++ qc :: t))) with STAR;
      [apply andb_false_r|].
    rewrite E2. symmetry. apply (next_at (m ++ qc :: t) qc STAR (repeat STAR k)). }
  rewrite (quoteStep_quote line (m ++ qc :: t) qc m true _ E2 Hq I2).
  cbn [negb].
  (* the closing marker *)
  replace (length (m ++ qc :: t) + 1) with (length ((m ++ qc :: t) ++ [qc]))
    by (rewrite (length_app (m ++ qc :: t)); reflexivity).
  rewrite (quoteFold_segment m line ((m ++ qc :: t) ++ [qc]) [] false _);
    [| unfold line; rewrite app_nil_r, <- !app_assoc; reflexivity
     | apply Hm; reflexivity ..].
  rewrite <- !app_assoc. reflexivity.
Qed.

(** *** The whole pipeline *)

Lemma quiet_parts t :
  quiet t = true ->
  without STAR t = true /\ without APOS t = true /\ without DQUOTE t = true
  /\ without LAQUO t = true /\ without RAQUO t = true
  /\ without USCORE t = true /\ without BTICK t = true
  /\ without LF t = true.
Proof.
  unfold quiet, unmarked. rewrite !andb_true_iff. tauto.
Qed.

(** An emphasised quotation, that is one line made of a marker of one, two
    or three asterisks, a straight quote, a text, the same quote and the
    marker again, comes out of [process] with guillemets put for the quotes
    and moved outside the markers.  The text has no asterisk, quote,
    guillemet, backtick, underscore or newline. *)
Theorem process_quoted_emphasis (k : nat) (qc : cu) (t : jsstring) :
  1 <= k <= 3 -> qc = APOS \/ qc = DQUOTE -> quiet t = true ->
  process (repeat STAR k ++ qc :: t ++ qc :: repeat STAR k)
  = LAQUO :: repeat STAR k ++ t ++ repeat STAR k ++ [RAQUO].
Proof.
  intros Hk Hq Ht.
  destruct (quiet_parts t Ht) as (HS & HA & HD & HL & HR & HU & HB & HN).
  destruct k as [|k]; [lia|].
  set (line := repeat STAR (S k) ++ qc :: t ++ qc :: repeat STAR (S k)).
  assert (W : forall c, isChr c STAR = false -> isChr c qc = false ->
                        without c t = true -> without c line = true).
  { intros c Hs Hc Hct. unfold line.
    rewrite without_app, (stars_passive (S k) c Hs).
    change (qc :: t ++ qc :: repeat STAR (S k))
      with ([qc] ++ t ++ [qc] ++ repeat STAR (S k)).
    rewrite !without_app, Hct, (stars_passive (S k) c Hs).
    unfold without. cbn [forallb]. rewrite Hc. reflexivity. }
  assert (Q : forall c, (c =? APOS)%N = false -> (c =? DQUOTE)%N = false ->
                        isChr c qc = false).
  { intros c H1 H2. unfold isChr.
    destruct Hq; subst qc; rewrite N.eqb_sym; assumption. }
  pose proof (W BTICK eq_refl (Q BTICK eq_refl eq_refl) HB) as WB.
  pose proof (W USCORE eq_refl (Q USCORE eq_refl eq_refl) HU) as WU.
  pose proof (W LF eq_refl (Q LF eq_refl eq_refl) HN) as WN.
  set (rest := repeat STAR k ++ qc :: t ++ qc :: repeat STAR (S k)).
  change (process line) with (process (STAR :: rest)).
  unfold process. cbv beta iota. change (STAR :: rest) with line.
  rewrite (needsFirst_replaceAllWith (list (list N)) (isChr BTICK) extractRegex
             extractCallback line [] needsFirst_extract WB).
  rewrite (split_line LF line WN). cbn [processLines].
  (* the line is not a token *)
  unfold processLine, test.
  rewrite (needsFirst_search (isChr USCORE) onlyTokenRegex (trim line) 0
             needsFirst_onlyToken (without_trim USCORE line WU)).
  (* no asterisk touches whitespace *)
  assert (Hsp : isSpace qc = false) by (destruct Hq; subst qc; reflexivity).
  assert (Hst : isChr STAR qc = false) by (destruct Hq; subst qc; reflexivity).
  assert (A1 : adjacent (isChr STAR) isSpace line = false).
  { unfold line. rewrite adj_skip_q; [| apply marker_not_space | exact Hsp].
    change (qc :: t ++ qc :: repeat STAR (S k))
      with ([qc] ++ t ++ [qc] ++ repeat STAR (S k)).
    rewrite adj_skip_p by (cbn [forallb]; rewrite Hst; reflexivity).
    rewrite adj_skip_p by exact HS.
    rewrite adj_skip_p by (cbn [forallb]; rewrite Hst; reflexivity).
    apply adj_none_q. apply marker_not_space. }
  assert (A2 : adjacent isSpace (isChr STAR) line = false).
  { unfold line. rewrite adj_skip_p by apply marker_not_space.
    replace (qc :: t ++ qc :: repeat STAR (S k))
      with (((qc :: t) ++ [qc]) ++ repeat STAR (S k))
      by (rewrite <- app_assoc; reflexivity).
    rewrite adj_last; [apply adj_none_p; apply marker_not_space | | exact Hsp].
    rewrite forallb_app. cbn [forallb]. rewrite Hst. cbn [negb andb].
    unfold without in HS. rewrite HS. reflexivity. }
  rewrite (no_contact_line line A1 A2).
  unfold line at 1. rewrite (scan_quoted k qc t Hq HA HD HL HR).
  rewrite (reorder_quoted (S k) t Hk HL HR). unfold closed.
  cbn [join]. unfold restoreTokens.
  rewrite (needsFirst_replaceAllWith unit (isChr USCORE) tokenRegex
             (restoreCallback []) _ tt needsFirst_token).
  - cbn [fst app]. rewrite <- !app_assoc. reflexivity.
  - change (forallb (fun c => negb (isChr USCORE c))
              ((LAQUO :: repeat STAR (S k) ++ t ++ repeat STAR (S k)) ++ [RAQUO]))
      with (without USCORE
              (([LAQUO] ++ repeat STAR (S k) ++ t ++ repeat STAR (S k)) ++ [RAQUO])).
    rewrite !without_app, HU, (stars_passive (S k) USCORE eq_refl). reflexivity.
Qed.

Lemma process_quoted_emphasis_witness :
  process (js "**" ++ [DQUOTE] ++ js "Viens ici" ++ [DQUOTE] ++ js "**")
  = LAQUO :: js "**Viens ici**" ++ [RAQUO].
Proof.
  apply (process_quoted_emphasis 2 DQUOTE (js "Viens ici"));
    [lia | right; reflexivity | reflexivity].
Defined.

End QuotedEmphasis.

(** ** [countWords] *)

Section Words.

Lemma space_match q c t :
  isSpace c = true ->
  matchAt (RPlus true isSpace) q (c :: t)
  = Some (Match q (firstn (S (length (takeWhile isSpace t))) (c :: t)) []
                (length (takeWhile isSpace t) + S q)).
Proof.
  intros H. unfold matchAt.
  rewrite (rmatch_plus_hit true isSpace c t q [] Some H).
  rewrite star_greedy_total by (intros; discriminate).
  cbn [pos caps].
  replace (length (takeWhile isSpace t) + S q - q)
    with (S (length (takeWhile isSpace t))) by lia.
  reflexivity.
Qed.

Lemma word_miss q c t :
  isSpace c = false -> matchAt (RPlus true isSpace) q (c :: t) = None.
Proof.
  intros H. unfold matchAt. rewrite rmatch_plus_miss by exact H. reflexivity.
Qed.

(** The loop closes one piece for each run of whitespace. *)
Lemma splitLoop_pieces l : forall q piece,
  length (splitLoop (RPlus true isSpace) q l 0 piece) = S (runsFrom false l)
  /\ length (splitLoop (RPlus true isSpace) q l
               (length (takeWhile isSpace l)) piece)
     = S (runsFrom true l).
Proof.
  induction l as [|c t IH]; intros q piece; [split; reflexivity|].
  assert (H0 : length (splitLoop (RPlus true isSpace) q (c :: t) 0 piece)
               = S (runsFrom false (c :: t))).
  { cbn [splitLoop runsFrom]. destruct (isSpace c) eqn:E.
    - rewrite (space_match q c t E). cbn [lastIndex].
      replace (length (takeWhile isSpace t) + S q - q)
        with (S (length (takeWhile isSpace t))) by lia.
      cbn [length]. rewrite (proj2 (IH (S q) [])). reflexivity.
    - rewrite (word_miss q c t E). apply (IH (S q)). }
  split; [exact H0|].
  cbn [takeWhile runsFrom]. destruct (isSpace c) eqn:E.
  - cbn [length splitLoop]. apply (IH (S q)).
  - cbn [length]. rewrite H0. cbn [runsFrom]. rewrite E. reflexivity.
Qed.

(** In a text that ends with a character of a word, the words and the runs
    of whitespace alternate. *)
Lemma words_runs t : forall x,
  isSpace x = false ->
  wordsFrom true (t ++ [x]) = runsFrom false (t ++ [x])
  /\ wordsFrom false (t ++ [x]) = S (runsFrom true (t ++ [x])).
Proof.
  induction t as [|c t IH]; intros x Hx.
  - cbn [app wordsFrom runsFrom]. rewrite Hx. split; reflexivity.
  - destruct (IH x Hx) as [H1 H2]. cbn [app wordsFrom runsFrom].
    destruct (isSpace c); split; cbn [Nat.add]; congruence.
Qed.

Lemma words_lead ws l :
  spaces ws = true -> wordsFrom false (ws ++ l) = wordsFrom false l.
Proof.
  unfold spaces. induction ws as [|w ws IH]; intros H; [reflexivity|].
  cbn [forallb] in H. apply andb_true_iff in H as [Hw H].
  cbn [app wordsFrom]. rewrite Hw. exact (IH H).
Qed.

Lemma words_spaces ws : forall w, spaces ws = true -> wordsFrom w ws = 0.
Proof.
  unfold spaces. induction ws as [|c ws IH]; intros w H; [reflexivity|].
  cbn [forallb] in H. apply andb_true_iff in H as [Hc H].
  cbn [wordsFrom]. rewrite Hc. exact (IH false H).
Qed.

Lemma words_trail ws u :
  spaces ws = true -> forall w, wordsFrom w (u ++ ws) = wordsFrom w u.
Proof.
  intros H. induction u as [|c u IH]; intros w.
  - cbn [app]. rewrite (words_spaces ws w H). reflexivity.
  - cbn [app wordsFrom]. destruct (isSpace c); rewrite ?IH; reflexivity.
Qed.

(** The trimmed text starts and ends with a character of a word. *)
Lemma trim_edges s x u :
  trim s = x :: u ->
  isSpace x = false
  /\ exists t y, x :: u = t ++ [y] /\ isSpace y = false.
Proof.
  unfold trim, trimEnd, trimStart. intros H. split.
  - pose proof (strip_end_head isSpace (dropWhile isSpace s)
                  (dropWhile_head isSpace s)) as Hh.
    rewrite H in Hh. exact Hh.
  - pose proof (dropWhile_head isSpace (rev (dropWhile isSpace s))) as Hd.
    destruct (dropWhile isSpace (rev (dropWhile isSpace s))) as [|y d];
      [discriminate|].
    exists (rev d), y. split; [|exact Hd]. rewrite <- H. reflexivity.
Qed.

(** [countWords] returns the number of words of the text: the number of
    maximal runs of characters that are not whitespace. *)
Theorem countWords_counts_words (str : jsstring) :
  countWords str = wordCount str.
Proof.
  unfold countWords, wordCount.
  destruct str as [|c t]; [reflexivity|].
  destruct (trim_split (c :: t)) as (ws1 & ws2 & E & H1 & H2).
  rewrite E at 2. rewrite (words_lead ws1 _ H1), (words_trail ws2 _ H2).
  destruct (trim (c :: t)) as [|x u] eqn:Et; [reflexivity|].
  destruct (trim_edges _ _ _ Et) as (Hx & t' & y & Exu & Hy).
  unfold splitRegex. rewrite (proj1 (splitLoop_pieces (x :: u) 0 [])).
  rewrite Exu at 2. rewrite (proj2 (words_runs t' y Hy)), <- Exu.
  cbn [runsFrom]. rewrite Hx. reflexivity.
Qed.

End Words.

(** ** The font size of the editor *)

Section FontSize.

Lemma changeFontSize_range size delta :
  (MIN_FONT_SIZE <= size <= MAX_FONT_SIZE)%Z ->
  (MIN_FONT_SIZE <= fst (changeFontSize size delta) <= MAX_FONT_SIZE)%Z.
Proof.
  intros H. unfold changeFontSize. cbv zeta.
  destruct (MIN_FONT_SIZE <=? size + delta)%Z eqn:E1;
    [|cbn [andb fst]; exact H].
  destruct (size + delta <=? MAX_FONT_SIZE)%Z eqn:E2;
    [|cbn [andb fst]; exact H].
  cbn [andb fst]. apply Z.leb_le in E1, E2. split; assumption.
Qed.

Lemma fold_range deltas : forall size,
  (MIN_FONT_SIZE <= size <= MAX_FONT_SIZE)%Z ->
  (MIN_FONT_SIZE
   <= fold_left (fun s d => fst (changeFontSize s d)) deltas size
   <= MAX_FONT_SIZE)%Z.
Proof.
  induction deltas as [|d ds IH]; intros size H; [exact H|].
  cbn [fold_left]. apply IH, changeFontSize_range, H.
Qed.

(** Whatever the series of calls of [changeFontSize], and whatever their
    integer arguments, the font size stays between the two bounds; and a call
    touches the page exactly when the size it asks for is between the
    bounds, in which case that size is taken. *)
Theorem changeFontSize_stays_in_range (deltas : list Z) (size delta : Z) :
  (MIN_FONT_SIZE <= fontSizeAfter deltas <= MAX_FONT_SIZE)%Z
  /\ (snd (changeFontSize size delta) = true
      <-> (MIN_FONT_SIZE <= size + delta <= MAX_FONT_SIZE)%Z)
  /\ fst (changeFontSize size delta)
     = (if snd (changeFontSize size delta) then size + delta else size)%Z.
Proof.
  split; [|split].
  - unfold fontSizeAfter. apply fold_range.
    unfold initialFontSize, MIN_FONT_SIZE, MAX_FONT_SIZE. lia.
  - unfold changeFontSize. cbv zeta.
    destruct (MIN_FONT_SIZE <=? size + delta)%Z eqn:E1;
      destruct (size + delta <=? MAX_FONT_SIZE)%Z eqn:E2; cbn [andb snd];
      try apply Z.leb_le in E1; try apply Z.leb_le in E2;
      try apply Z.leb_gt in E1; try apply Z.leb_gt in E2;
      split; intros H; try discriminate; try reflexivity; try lia.
  - unfold changeFontSize. cbv zeta.
    destruct ((MIN_FONT_SIZE <=? size + delta)%Z
              && (size + delta <=? MAX_FONT_SIZE)%Z)%bool; reflexivity.
Qed.

End FontSize.
